(** * YouTube video summarizer: a shallow embedding of [app.py]

    The functions of [app.py] that carry logic of their own are embedded
    here as Rocq functions, and the properties the specification states
    about them are settled against those functions.

    Conventions.
    - A Python [str] is a list of characters, [str := list ascii].  A
      character is one of the code points U+0000..U+00FF; Python's tables
      ([str.isspace], [str.lower]) are written out for that range.
    - [None] is [None]; a Python value that may be [None] is an [option].
    - A call that may raise returns a [result]; external services (the
      transcript service, the HTTP client, the hosted model) are
      parameters of the functions that call them. *)

From Stdlib Require Import Ascii String.
From Stdlib.Strings Require Import Byte.
From Stdlib Require Import DecimalZ DecimalPos DecimalFacts.
From Stdlib Require Import List Bool Arith PeanoNat ZArith QArith Qround Lia.
Import ListNotations.
Close Scope Q_scope.

(* ================================================================== *)
(** * Strings *)

Definition str := list ascii.

(** [lit "abc"] is the Python literal ['abc']. *)
Definition lit (s : string) : str := list_ascii_of_string s.
Arguments lit s%_string.

Definition str_eqb (a b : str) : bool :=
  if list_eq_dec ascii_dec a b then true else false.

(** [x in xs] on strings. *)
Definition mem (x : str) (xs : list str) : bool := existsb (str_eqb x) xs.

(** [strip_prefix l s] is [Some t] when [s = l ++ t]. *)
Fixpoint strip_prefix (l s : str) : option str :=
  match l with
  | [] => Some s
  | a :: l' =>
      match s with
      | [] => None
      | b :: s' => if Ascii.eqb a b then strip_prefix l' s' else None
      end
  end.

(** The longest prefix of [s] inside the class [p], and what is left. *)
Fixpoint run (p : ascii -> bool) (s : str) : str :=
  match s with
  | c :: s' => if p c then c :: run p s' else []
  | [] => []
  end.

Fixpoint after_run (p : ascii -> bool) (s : str) : str :=
  match s with
  | c :: s' => if p c then after_run p s' else s
  | [] => []
  end.

(* ================================================================== *)
(** * Exceptions

    A Python call either returns or raises.  [except Exception] catches
    every [exn]. *)

Inductive exn : Type :=
| ZeroDivisionError
| Error (message : str).

Inductive result (A : Type) : Type :=
| Ok (a : A)
| Raise (e : exn).

Arguments Ok {A} a.
Arguments Raise {A} e.

Definition bind {A B : Type} (r : result A) (f : A -> result B) : result B :=
  match r with
  | Ok a => f a
  | Raise e => Raise e
  end.

Notation "x <- r ;; k" := (bind r (fun x => k))
  (at level 61, r at next level, right associativity).

(** [try: body / except Exception as e: handler e]. *)
Definition try_except {A : Type} (body : result A) (handler : exn -> result A)
  : result A :=
  match body with
  | Ok a => Ok a
  | Raise e => handler e
  end.

(* ================================================================== *)
(** * Regular expressions, as [re.search] runs them

    The fragment of Python's [re] syntax the program uses: literal text,
    ordered alternation, concatenation, a greedy [*] or [+] over a
    one-character class, and one capturing group.  The matcher
    backtracks the way Python's does: alternatives are tried left to
    right, a repetition takes as many characters as it can and gives them
    back one at a time, and [search] tries the start positions from left
    to right. *)

Inductive regex : Type :=
| RLit (l : str)
| RAlt (r1 r2 : regex)
| RSeq (r1 r2 : regex)
| RStar (p : ascii -> bool)
| RPlus (p : ascii -> bool)
| RGroup (r : regex).

Section Matcher.
Variable A : Type.

(** Greedy repetition of a character class, then the continuation. *)
Fixpoint star (p : ascii -> bool) (s : str) (k : str -> option A) : option A :=
  match s with
  | [] => k []
  | c :: s' =>
      if p c then
        match star p s' k with
        | Some x => Some x
        | None => k s
        end
      else k s
  end.

(** [rmatch r s g k]: match [r] at the head of [s]; [g] is the text of
    group 1 so far, [k] receives the rest of the input and the group. *)
Fixpoint rmatch (r : regex) (s : str) (g : option str)
  (k : str -> option str -> option A) : option A :=
  match r with
  | RLit l =>
      match strip_prefix l s with
      | Some s' => k s' g
      | None => None
      end
  | RAlt r1 r2 =>
      match rmatch r1 s g k with
      | Some x => Some x
      | None => rmatch r2 s g k
      end
  | RSeq r1 r2 => rmatch r1 s g (fun s' g' => rmatch r2 s' g' k)
  | RStar p => star p s (fun s' => k s' g)
  | RPlus p =>
      match s with
      | [] => None
      | c :: s' => if p c then star p s' (fun s'' => k s'' g) else None
      end
  | RGroup r1 =>
      rmatch r1 s g
        (fun s' _ => k s' (Some (firstn (length s - length s') s)))
  end.

End Matcher.

Arguments star {A} p s k.
Arguments rmatch {A} r s g k.

(** A match object; [group1] is what [match.group(1)] returns. *)
Record match_obj : Type := MatchObj { group1 : option str }.

Definition match_here (r : regex) (s : str) : option match_obj :=
  rmatch r s None (fun _ g => Some (MatchObj g)).

(** [re.search(r, s)]: the match at the leftmost position that has one. *)
Fixpoint search (r : regex) (s : str) : option match_obj :=
  match match_here r s with
  | Some m => Some m
  | None =>
      match s with
      | [] => None
      | _ :: s' => search r s'
      end
  end.

(* ================================================================== *)
(** * [extract_video_id] *)

Definition newline : ascii := ascii_of_nat 10.

(** The class [[^&\n?#]]. *)
Definition id_char (c : ascii) : bool :=
  negb (Ascii.eqb c "&" || Ascii.eqb c newline
        || Ascii.eqb c "?" || Ascii.eqb c "#")%char.

(** The class [.]: any character except a newline. *)
Definition dot (c : ascii) : bool := negb (Ascii.eqb c newline).

(** [(?:youtube\.com\/watch\?v=|youtu\.be\/|youtube\.com\/embed\/)([^&\n?#]+)] *)
Definition pattern1 : regex :=
  RSeq (RAlt (RLit (lit "youtube.com/watch?v="))
             (RAlt (RLit (lit "youtu.be/"))
                   (RLit (lit "youtube.com/embed/"))))
       (RGroup (RPlus id_char)).

(** [youtube\.com\/watch\?.*v=([^&\n?#]+)] *)
Definition pattern2 : regex :=
  RSeq (RLit (lit "youtube.com/watch?"))
       (RSeq (RStar dot)
             (RSeq (RLit (lit "v="))
                   (RGroup (RPlus id_char)))).

Definition patterns : list regex := [pattern1; pattern2].

Fixpoint first_group (ps : list regex) (video_url : str) : option str :=
  match ps with
  | [] => None
  | pattern :: ps' =>
      match search pattern video_url with
      | Some m => group1 m
      | None => first_group ps' video_url
      end
  end.

Definition extract_video_id (video_url : str) : option str :=
  first_group patterns video_url.


(** The URL shapes the specification lists, each given by the text that
    stands before the identifier: [watch?v=ID], [youtu.be/ID], [embed/ID]. *)
Definition shape_watch : str := lit "youtube.com/watch?v=".
Definition shape_short : str := lit "youtu.be/".
Definition shape_embed : str := lit "youtube.com/embed/".
Definition shapes : list str := [shape_watch; shape_short; shape_embed].

(** The identifier ends where the string ends or a character of [&\n?#]
    stands. *)
Definition ends_id (tail : str) : Prop :=
  match tail with
  | [] => True
  | c :: _ => id_char c = false
  end.

(** One of the shapes stands in [s] right after the prefix [p], with at
    least one identifier character behind it. *)
Definition shape_at (s p : str) : Prop :=
  exists mk c q, In mk shapes /\ id_char c = true /\ s = p ++ mk ++ c :: q.

(** The shape of the second rule: a watch URL whose [v=] comes later on
    the same line of the query. *)
Definition query_at (s p : str) : Prop :=
  exists mid c q,
    forallb dot mid = true /\ id_char c = true /\
    s = p ++ lit "youtube.com/watch?" ++ mid ++ lit "v=" ++ c :: q.

(** A string has a recognized shape when a rule applies somewhere in it. *)
Definition recognized (s : str) : Prop :=
  exists p, shape_at s p \/ query_at s p.

(** What the capturing group [([^&\n?#]+)] yields at the head of [s]. *)
Definition capture (s : str) : option match_obj :=
  match s with
  | [] => None
  | c :: _ => if id_char c then Some (MatchObj (Some (run id_char s))) else None
  end.

(** The literal [l], then the capturing group. *)
Definition then_capture (l s : str) : option match_obj :=
  match strip_prefix l s with
  | Some r => capture r
  | None => None
  end.

(** The first of two alternatives that matches. *)
Definition orelse {A : Type} (a b : option A) : option A :=
  match a with
  | Some x => Some x
  | None => b
  end.


(* ================================================================== *)
(** * [analyze_transcript] *)

(** [str.isspace] on one character: U+0009..U+000D, U+001C..U+0020,
    U+0085 and U+00A0. *)
Definition isspace (c : ascii) : bool :=
  let n := nat_of_ascii c in
  ((9 <=? n) && (n <=? 13)) || ((28 <=? n) && (n <=? 32))
  || (n =? 133) || (n =? 160).

(** [str.split()] with no separator: the maximal runs of characters that
    are not whitespace.  [cur] is the run being read. *)
Fixpoint split_from (cur s : str) : list str :=
  match s with
  | [] =>
      match cur with
      | [] => []
      | _ :: _ => [cur]
      end
  | c :: s' =>
      if isspace c then
        match cur with
        | [] => split_from [] s'
        | _ :: _ => cur :: split_from [] s'
        end
      else split_from (cur ++ [c]) s'
  end.

Definition split (s : str) : list str := split_from [] s.

(** [str.lower] on one character: [A-Z], and U+00C0..U+00DE except the
    multiplication sign U+00D7, move up by 32. *)
Definition lower_char (c : ascii) : ascii :=
  let n := nat_of_ascii c in
  if ((65 <=? n) && (n <=? 90))
     || ((192 <=? n) && (n <=? 222) && negb (n =? 215))
  then ascii_of_nat (n + 32)
  else c.

Definition lower (s : str) : str := map lower_char s.

Definition stop_words : list str :=
  map lit
    ["the"; "a"; "an"; "and"; "or"; "but"; "in"; "on"; "at"; "to"; "for";
     "of"; "with"; "by"; "is"; "are"; "was"; "were"; "be"; "been"; "have";
     "has"; "had"; "do"; "does"; "did"; "will"; "would"; "could"; "should";
     "may"; "might"; "must"; "can"; "this"; "that"; "these"; "those"; "i";
     "you"; "he"; "she"; "it"; "we"; "they"; "me"; "him"; "her"; "us";
     "them"]%string.

(** [collections.Counter]: the elements with their counts, in the order
    in which each element was first seen. *)
Definition counter := list (str * nat).

Fixpoint incr (w : str) (c : counter) : counter :=
  match c with
  | [] => [(w, 1)]
  | (k, n) :: c' =>
      if str_eqb k w then (k, S n) :: c' else (k, n) :: incr w c'
  end.

Definition Counter (ws : list str) : counter :=
  fold_left (fun c w => incr w c) ws [].

(** [sorted(items, key=itemgetter(1), reverse=True)]: descending counts,
    equal counts in their original order. *)
Fixpoint insert_desc (x : str * nat) (l : counter) : counter :=
  match l with
  | [] => [x]
  | y :: l' => if snd x <? snd y then y :: insert_desc x l' else x :: l
  end.

Fixpoint sorted_desc (l : counter) : counter :=
  match l with
  | [] => []
  | x :: l' => insert_desc x (sorted_desc l')
  end.

(** [Counter.most_common(n)], which is [heapq.nlargest(n, items, key)],
    that is the first [n] of the sorted items. *)
Definition most_common (n : nat) (c : counter) : counter :=
  firstn n (sorted_desc c).

(** Python's [float], through the operations the program applies to it
    and the laws of IEEE 754 arithmetic the properties below rest on.
    A result is rounded, so no law gives its exact value: the laws are
    about zero and sign, and each holds of binary64 for the integers a
    length can be (infinities included: a quotient may overflow). *)
Class Floats : Type := {
  float : Type;
  of_int : Z -> float;              (* the conversion of an [int] *)
  fdiv : float -> float -> float;   (* [x / y], for [y] not zero *)
  fmul : float -> float -> float;   (* [x * y] *)
  is_zero : float -> bool;          (* [x == 0] *)
  is_pos : float -> bool;           (* [x > 0] *)
  fround2 : float -> float;         (* [round(x, 2)] *)
  nonneg : float -> Prop;           (* [x >= 0] *)
  of_int_nonneg : forall z, (0 <= z)%Z -> nonneg (of_int z);
  of_int_zero : forall z, is_zero (of_int z) = true <-> z = 0%Z;
  pos_not_zero : forall x, is_pos x = true -> is_zero x = false;
  fdiv_zero : forall z, z <> 0%Z ->
    is_zero (fdiv (of_int 0) (of_int z)) = true;
  fdiv_nonneg : forall z y, (0 <= z)%Z -> is_pos y = true ->
    nonneg (fdiv (of_int z) y);
  fmul_nonneg : forall x z, nonneg x -> (0 < z)%Z -> nonneg (fmul x (of_int z));
  fround2_nonneg : forall x, nonneg x -> nonneg (fround2 x)
}.

Section Analyzer.
Context {F : Floats}.

(** Python numbers: an [int] or a [float]. *)
Inductive number : Type :=
| Int (z : Z)
| Float (x : float).

Definition to_float (n : number) : float :=
  match n with
  | Int z => of_int z
  | Float x => x
  end.

(** [a / b]: true division; it raises when the divisor is zero. *)
Definition truediv (a b : number) : result number :=
  if is_zero (to_float b) then Raise ZeroDivisionError
  else Ok (Float (fdiv (to_float a) (to_float b))).

(** [a * b]. *)
Definition mul (a b : number) : number :=
  match a, b with
  | Int x, Int y => Int (x * y)
  | _, _ => Float (fmul (to_float a) (to_float b))
  end.

(** [a > 0]. *)
Definition gt_zero (a : number) : bool :=
  match a with
  | Int z => (0 <? z)%Z
  | Float x => is_pos x
  end.

(** [round(n, 2)]: an [int] comes back as it is. *)
Definition round2 (n : number) : number :=
  match n with
  | Int z => Int z
  | Float x => Float (fround2 x)
  end.

Record analysis : Type := Analysis {
  word_count : nat;
  character_count : nat;
  speaking_speed : number;
  top_words : list (str * nat);
  estimated_duration : number
}.

(** The condition of the comprehension that feeds the counter. *)
Definition counted (word : str) : bool :=
  negb (mem (lower word) stop_words) && (3 <? length word).

Definition analyze_transcript (transcript_text : str) : result analysis :=
  let words := split transcript_text in
  let word_count := length words in
  duration <- truediv (Int (Z.of_nat (length transcript_text))) (Int 200) ;;
  speed <- (if gt_zero duration
            then q <- truediv (Int (Z.of_nat word_count)) duration ;;
                 Ok (mul q (Int 60))
            else Ok (Int 0)) ;;
  let word_freq := Counter (map lower (filter counted words)) in
  let top_words := most_common 10 word_freq in
  Ok {| word_count := word_count;
        character_count := length transcript_text;
        speaking_speed := round2 speed;
        top_words := top_words;
        estimated_duration := round2 duration |}.

(** [n >= 0]. *)
Definition number_nonneg (n : number) : Prop :=
  match n with
  | Int z => (0 <= z)%Z
  | Float x => nonneg x
  end.

End Analyzer.

Section AnalyzerValues.
Context {F : Floats}.

(** The analysis never raises: the division by 200 has a non-zero
    divisor, and the division by the duration runs only behind
    [duration > 0].  These are the values it computes. *)
Definition duration_of (text : str) : float :=
  fdiv (of_int (Z.of_nat (length text))) (of_int 200).

Definition speed_of (text : str) : number :=
  if is_pos (duration_of text)
  then Float (fmul (fdiv (of_int (Z.of_nat (length (split text))))
                         (duration_of text))
                   (of_int 60))
  else Int 0.

End AnalyzerValues.

(** The whitespace-delimited tokens of a string, stated on the string
    itself: whitespace, then a non-empty word without whitespace that
    ends at the end of the string or at a whitespace character, and so
    on. *)
Inductive tokens : str -> list str -> Prop :=
| tokens_end (sp : str) :
    forallb isspace sp = true -> tokens sp []
| tokens_word (sp w rest : str) (ws : list str) :
    forallb isspace sp = true ->
    w <> [] ->
    forallb (fun c => negb (isspace c)) w = true ->
    match rest with [] => True | c :: _ => isspace c = true end ->
    tokens rest ws ->
    tokens (sp ++ w ++ rest) (w :: ws).

(** The transcript of the specification's example. *)
Definition fox : str :=
  lit "the quick brown fox jumps over the lazy dog dog dog".

(** Its words longer than 3 characters outside the stop-word set, each
    seen once. *)
Definition fox_top_words : list (str * nat) :=
  [(lit "quick", 1); (lit "brown", 1); (lit "jumps", 1);
   (lit "over", 1); (lit "lazy", 1)].


(** The nearest integer, a tie going to the even one. *)
Definition round_half_even (q : Q) : Z :=
  let f := Qfloor q in
  match Qcompare (q - inject_Z f) (1 # 2) with
  | Lt => f
  | Gt => (f + 1)%Z
  | Eq => if Z.even f then f else (f + 1)%Z
  end.

(* ================================================================== *)
(** * The calls to the outside

    The transcript service, the public video page and the hosted model
    are parameters: each is a function from the request to what the call
    returns or raises, so that a request made twice in one run is
    answered the same way.  The calls to the presentation layer
    ([st.error], the progress bar, the status text) return nothing the
    logic reads and are left out. *)

(** [str.strip()]. *)
Definition lstrip (s : str) : str := after_run isspace s.
Definition strip (s : str) : str := rev (lstrip (rev (lstrip s))).

(** [sep.join(parts)]. *)
Fixpoint join (sep : str) (parts : list str) : str :=
  match parts with
  | [] => []
  | [x] => x
  | x :: rest => x ++ sep ++ join sep rest
  end.

(** [s.split(sep)] for a one-character separator: the pieces between the
    separators, empty ones included.  [cur] is the piece being read. *)
Fixpoint split_on_from (sep : ascii) (cur s : str) : list str :=
  match s with
  | [] => [cur]
  | c :: s' =>
      if Ascii.eqb c sep then cur :: split_on_from sep [] s'
      else split_on_from sep (cur ++ [c]) s'
  end.

Definition split_on (sep : ascii) (s : str) : list str :=
  split_on_from sep [] s.

(** [s.replace(old, new)] for a non-empty [old]: every occurrence, left
    to right, none overlapping another.  [skip] counts the characters of
    an occurrence still to pass over. *)
Fixpoint replace_from (old new : str) (skip : nat) (s : str) : str :=
  match s with
  | [] => []
  | c :: s' =>
      match skip with
      | S n => replace_from old new n s'
      | O =>
          match strip_prefix old s with
          | Some _ => new ++ replace_from old new (length old - 1) s'
          | None => c :: replace_from old new 0 s'
          end
      end
  end.

Definition replace (old new s : str) : str := replace_from old new 0 s.

(** Truth value of a string that may be [None]: [None] and [''] are
    false. *)
Definition truthy (o : option str) : bool :=
  match o with
  | Some (_ :: _) => true
  | _ => false
  end.

(** [if transcript_text and video_id:], the test both callers of
    [extract_transcript] apply to the pair it returns. *)
Definition caller_accepts (p : option str * option str) : bool :=
  truthy (fst p) && truthy (snd p).

Inductive summary_type : Type :=
| bullet_points
| detailed
| key_insights
| timeline.

Definition prompts (t : summary_type) : str :=
  match t with
  | bullet_points =>
      lit "You are a YouTube video summarizer. Create a concise bullet-point summary of the video transcript within 250 words. Focus on key points and main ideas."
  | detailed =>
      lit "You are a YouTube video summarizer. Provide a comprehensive detailed summary of the video transcript within 500 words. Include context, examples, and explanations."
  | key_insights =>
      lit "You are a YouTube video summarizer. Extract the most important insights, takeaways, and actionable points from the video transcript within 300 words."
  | timeline =>
      lit "You are a YouTube video summarizer. Create a chronological timeline summary of the video content, highlighting the progression of topics discussed within 400 words."
  end.

Record metadata : Type := Metadata {
  title : str;
  video_id : str;
  url : str
}.

Record batch_result : Type := BatchResult {
  br_url : str;
  br_video_id : str;
  br_title : str;
  br_summary : str;
  br_word_count : nat
}.

(** The class [[^<]]. *)
Definition not_lt (c : ascii) : bool := negb (Ascii.eqb c "<").

(** [<title>([^<]+)</title>] *)
Definition title_pattern : regex :=
  RSeq (RLit (lit "<title>"))
       (RSeq (RGroup (RPlus not_lt))
             (RLit (lit "</title>"))).

Definition watch_url (video_id : str) : str :=
  lit "https://www.youtube.com/watch?v=" ++ video_id.

Definition unknown_title : str := lit "Unknown Title".

Definition keywords_template : str :=
  lit "Extract the main topics and key phrases from this video transcript. Return them as a comma-separated list of the most important topics and keywords: ".

Definition sentiment_template : str :=
  lit "Analyze the sentiment of this video transcript. Determine if it's positive, negative, or neutral and provide a brief explanation: ".

Section Services.

(** [GenerativeModel("models/gemma-3-27b-it").generate_content(prompt).text] *)
Variable generate_content : str -> result str.

(** The [text] of the snippets of [YouTubeTranscriptApi().fetch(video_id)]. *)
Variable fetch : str -> result (list str).

(** [requests.get(url, headers=headers).text] *)
Variable requests_get : str -> result str.

Definition get_video_metadata (video_id : str) : result metadata :=
  try_except
    (let url := watch_url video_id in
     response_text <- requests_get url ;;
     let title_match := search title_pattern response_text in
     let title :=
       match title_match with
       | Some m =>
           match group1 m with
           | Some g => replace (lit " - YouTube") [] g
           | None => unknown_title
           end
       | None => unknown_title
       end in
     Ok {| title := title; video_id := video_id; url := url |})
    (fun _ =>
       Ok {| title := unknown_title;
             video_id := video_id;
             url := watch_url video_id |}).

Definition extract_keywords (transcript_text : str) : result str :=
  try_except
    (let prompt := keywords_template ++ firstn 1000 transcript_text in
     response_text <- generate_content prompt ;;
     Ok (strip response_text))
    (fun _ => Ok (lit "Unable to extract keywords")).

Definition analyze_sentiment (transcript_text : str) : result str :=
  try_except
    (let prompt := sentiment_template ++ firstn 1000 transcript_text in
     response_text <- generate_content prompt ;;
     Ok (strip response_text))
    (fun _ => Ok (lit "Unable to analyze sentiment")).

Definition generate_gemini_content (transcript_text prompt : str)
  : result str :=
  response_text <- generate_content (transcript_text ++ prompt) ;;
  Ok response_text.

(** The pair the function returns: each component may be [None]. *)
Definition extract_transcript (video_url : str)
  : result (option str * option str) :=
  try_except
    (let video_id := extract_video_id video_url in
     if negb (truthy video_id) then Ok (None, None)
     else
       match video_id with
       | Some id =>
           transcript <- fetch id ;;
           let transcript_text := join (lit " ") transcript in
           Ok (Some transcript_text, Some id)
       | None => Ok (None, None)
       end)
    (fun _ => Ok (None, None)).

(** [[url.strip() for url in batch_urls.split('\n') if url.strip()]] *)
Definition batch_lines (batch_urls : str) : list str :=
  map strip
    (filter (fun url => truthy (Some (strip url)))
            (split_on newline batch_urls)).

(** The body of the batch loop, over the urls still to process;
    [batch_results] is the list built so far. *)
Fixpoint batch_loop (st : summary_type) (urls : list str)
  (batch_results : list batch_result) : result (list batch_result) :=
  match urls with
  | [] => Ok batch_results
  | url :: rest =>
      p <- extract_transcript url ;;
      if caller_accepts p then
        match p with
        | (Some transcript_text, Some video_id) =>
            metadata <- get_video_metadata video_id ;;
            summary <- generate_gemini_content transcript_text (prompts st) ;;
            batch_loop st rest
              (batch_results ++
                 [{| br_url := url;
                     br_video_id := video_id;
                     br_title := title metadata;
                     br_summary := summary;
                     br_word_count := length (split transcript_text) |}])
        | _ => batch_loop st rest batch_results
        end
      else batch_loop st rest batch_results
  end.

(** The batch handler once the button is pressed.  Nothing runs on an
    empty text area or when no line is left; the result list is then
    empty (the source does not create one). *)
Definition process_batch (st : summary_type) (batch_urls : str)
  : result (list batch_result) :=
  if truthy (Some batch_urls) then
    let urls := batch_lines batch_urls in
    match urls with
    | [] => Ok []
    | _ :: _ => batch_loop st urls []
    end
  else Ok [].

(** A record of the result list holds what the loop computed for its
    url. *)
Definition record_of_run (st : summary_type) (r : batch_result) : Prop :=
  exists text md,
    extract_transcript (br_url r) = Ok (Some text, Some (br_video_id r))
    /\ text <> []
    /\ get_video_metadata (br_video_id r) = Ok md
    /\ br_title r = title md
    /\ generate_content (text ++ prompts st) = Ok (br_summary r)
    /\ br_word_count r = length (split text).

(** No summary call raises on the urls the loop keeps. *)
Definition summaries_return (st : summary_type) (urls : list str) : Prop :=
  forall url text id,
    In url urls ->
    extract_transcript url = Ok (Some text, Some id) ->
    text <> [] ->
    exists s, generate_content (text ++ prompts st) = Ok s.

(** Some summary call raises on a url the loop keeps. *)
Definition summary_raises (st : summary_type) (urls : list str) : Prop :=
  exists url text id e,
    In url urls
    /\ extract_transcript url = Ok (Some text, Some id)
    /\ text <> []
    /\ generate_content (text ++ prompts st) = Raise e.

End Services.

(** A title stands in [page] right after the prefix [p]: the opening
    tag, a non-empty text without [<], the closing tag. *)
Definition title_at (page p : str) : Prop :=
  exists t q,
    t <> [] /\ forallb not_lt t = true /\
    page = p ++ lit "<title>" ++ t ++ lit "</title>" ++ q.

(** What the batch loop makes of one url: it keeps the url when the
    extraction returned a transcript that is not empty. *)
Definition kept (fetch : str -> result (list str)) (url : str) : bool :=
  match extract_transcript fetch url with
  | Ok (Some (_ :: _), Some _) => true
  | _ => false
  end.

(** A run of [extract_transcript] that returned a transcript and an
    identifier. *)
Definition successful (p : option str * option str) : Prop :=
  exists text id, p = (Some text, Some id).

(** The extraction failed: the function returned [(None, None)]. *)
Definition extraction_failed (fetch : str -> result (list str)) (url : str)
  : bool :=
  match extract_transcript fetch url with
  | Ok (Some _, Some _) => false
  | _ => true
  end.

(* ================================================================== *)
(** * [export_to_json]

    [json.dumps(data, indent=2)], [str.encode()] and the buffer; and the
    reading back of the buffer, [json.loads]. *)

Definition dquote : ascii := ascii_of_nat 34.
Definition backslash : ascii := ascii_of_nat 92.

(** ** [str.encode()] and [bytes.decode()]: UTF-8 on U+0000..U+00FF *)

Definition byte_of_nat (n : nat) : byte := byte_of_ascii (ascii_of_nat n).

Definition utf8_char (c : ascii) : list byte :=
  let n := nat_of_ascii c in
  if n <? 128 then [byte_of_ascii c]
  else [byte_of_nat (192 + n / 64); byte_of_nat (128 + n mod 64)].

Definition utf8_encode (s : str) : list byte := flat_map utf8_char s.

Fixpoint utf8_decode (b : list byte) : option str :=
  match b with
  | [] => Some []
  | b1 :: r =>
      let n1 := Byte.to_nat b1 in
      if n1 <? 128 then
        match utf8_decode r with
        | Some s => Some (ascii_of_byte b1 :: s)
        | None => None
        end
      else if (194 <=? n1) && (n1 <=? 195) then
        match r with
        | b2 :: r' =>
            let n2 := Byte.to_nat b2 in
            if (128 <=? n2) && (n2 <=? 191) then
              match utf8_decode r' with
              | Some s => Some (ascii_of_nat ((n1 - 192) * 64 + (n2 - 128)) :: s)
              | None => None
              end
            else None
        | [] => None
        end
      else None
  end.

(** [io.BytesIO]. *)
Record BytesIO : Type := { getvalue : list byte }.

(** ** Integers in decimal *)

Fixpoint uint_str (d : Decimal.uint) : str :=
  match d with
  | Decimal.Nil => []
  | Decimal.D0 d' => "0"%char :: uint_str d'
  | Decimal.D1 d' => "1"%char :: uint_str d'
  | Decimal.D2 d' => "2"%char :: uint_str d'
  | Decimal.D3 d' => "3"%char :: uint_str d'
  | Decimal.D4 d' => "4"%char :: uint_str d'
  | Decimal.D5 d' => "5"%char :: uint_str d'
  | Decimal.D6 d' => "6"%char :: uint_str d'
  | Decimal.D7 d' => "7"%char :: uint_str d'
  | Decimal.D8 d' => "8"%char :: uint_str d'
  | Decimal.D9 d' => "9"%char :: uint_str d'
  end.

(** [repr] of an [int]. *)
Definition int_repr (z : Z) : str :=
  match Z.to_int z with
  | Decimal.Pos d => uint_str d
  | Decimal.Neg d => "-"%char :: uint_str d
  end.

Definition is_digit (c : ascii) : bool :=
  let n := nat_of_ascii c in (48 <=? n) && (n <=? 57).

(** The digits of [s] as a number; [s] holds digits only. *)
Fixpoint str_uint (s : str) : Decimal.uint :=
  match s with
  | [] => Decimal.Nil
  | c :: s' =>
      let d := str_uint s' in
      match nat_of_ascii c - 48 with
      | 0 => Decimal.D0 d
      | 1 => Decimal.D1 d
      | 2 => Decimal.D2 d
      | 3 => Decimal.D3 d
      | 4 => Decimal.D4 d
      | 5 => Decimal.D5 d
      | 6 => Decimal.D6 d
      | 7 => Decimal.D7 d
      | 8 => Decimal.D8 d
      | _ => Decimal.D9 d
      end
  end.

(** [int(s)] for [s] an optional [-] and digits. *)
Definition int_of_str (s : str) : Z :=
  match s with
  | c :: s' =>
      if Ascii.eqb c "-" then Z.of_int (Decimal.Neg (str_uint s'))
      else Z.of_int (Decimal.Pos (str_uint s))
  | [] => 0%Z
  end.

(** ** Strings in JSON *)

Definition hex_digit (n : nat) : ascii :=
  nth n (lit "0123456789abcdef") "0"%char.

Definition hex_value (c : ascii) : option nat :=
  let n := nat_of_ascii c in
  if (48 <=? n) && (n <=? 57) then Some (n - 48)
  else if (97 <=? n) && (n <=? 102) then Some (n - 87)
  else if (65 <=? n) && (n <=? 70) then Some (n - 55)
  else None.

(** One character as [ensure_ascii=True] writes it: the quote and the
    backslash escaped, the short escapes, [\u00xx] for what is outside
    the printable ASCII range, and the character itself otherwise. *)
Definition encode_char (c : ascii) : str :=
  let n := nat_of_ascii c in
  if Ascii.eqb c dquote then [backslash; dquote]
  else if Ascii.eqb c backslash then [backslash; backslash]
  else if n =? 10 then [backslash; "n"%char]
  else if n =? 13 then [backslash; "r"%char]
  else if n =? 9 then [backslash; "t"%char]
  else if n =? 8 then [backslash; "b"%char]
  else if n =? 12 then [backslash; "f"%char]
  else if (n <? 32) || (126 <? n)
       then backslash :: lit "u00" ++ [hex_digit (n / 16); hex_digit (n mod 16)]
  else [c].

Definition encode_string (s : str) : str :=
  dquote :: flat_map encode_char s ++ [dquote].

(** The inside of a JSON string up to its closing quote, and what
    follows the quote.  A control character must come escaped. *)
Fixpoint parse_chars (s : str) : option (str * str) :=
  match s with
  | [] => None
  | c :: r =>
      if Ascii.eqb c dquote then Some ([], r)
      else if Ascii.eqb c backslash then
        match r with
        | [] => None
        | e :: r1 =>
            if Ascii.eqb e "u" then
              match r1 with
              | h1 :: h2 :: h3 :: h4 :: r2 =>
                  match hex_value h1, hex_value h2, hex_value h3, hex_value h4 with
                  | Some a, Some b, Some x, Some y =>
                      let code := ((a * 16 + b) * 16 + x) * 16 + y in
                      if code <? 256 then
                        match parse_chars r2 with
                        | Some (t, rest) => Some (ascii_of_nat code :: t, rest)
                        | None => None
                        end
                      else None
                  | _, _, _, _ => None
                  end
              | _ => None
              end
            else
              let unescaped :=
                if Ascii.eqb e dquote then Some dquote
                else if Ascii.eqb e backslash then Some backslash
                else if Ascii.eqb e "/" then Some "/"%char
                else if Ascii.eqb e "b" then Some (ascii_of_nat 8)
                else if Ascii.eqb e "f" then Some (ascii_of_nat 12)
                else if Ascii.eqb e "n" then Some (ascii_of_nat 10)
                else if Ascii.eqb e "r" then Some (ascii_of_nat 13)
                else if Ascii.eqb e "t" then Some (ascii_of_nat 9)
                else None in
              match unescaped with
              | Some x =>
                  match parse_chars r1 with
                  | Some (t, rest) => Some (x :: t, rest)
                  | None => None
                  end
              | None => None
              end
        end
      else if nat_of_ascii c <? 32 then None
      else
        match parse_chars r with
        | Some (t, rest) => Some (c :: t, rest)
        | None => None
        end
  end.

(** ** Numbers in JSON

    The decoder's number pattern: an optional minus sign and either 0 or
    digits that do not start with 0; then, each optional, a fraction (a
    point and digits) and an exponent (e or E, an optional sign,
    digits).  The scanner gives the text matched, whether it has a
    fraction or an exponent, and the rest. *)
Definition scan_int (s : str) : option (str * str) :=
  let '(sign, s1) :=
    match s with
    | c :: r => if Ascii.eqb c "-" then ([c], r) else ([], s)
    | [] => ([], s)
    end in
  match s1 with
  | d :: r =>
      if Ascii.eqb d "0" then Some (sign ++ [d], r)
      else if is_digit d
           then Some (sign ++ d :: run is_digit r, after_run is_digit r)
      else None
  | [] => None
  end.

Definition scan_frac (s : str) : str * str :=
  match s with
  | p :: d :: r =>
      if Ascii.eqb p "." && is_digit d
      then (p :: d :: run is_digit r, after_run is_digit r)
      else ([], s)
  | _ => ([], s)
  end.

Definition scan_exp (s : str) : str * str :=
  match s with
  | e :: r =>
      if Ascii.eqb e "e" || Ascii.eqb e "E" then
        let '(sign, r1) :=
          match r with
          | c :: r' =>
              if Ascii.eqb c "+" || Ascii.eqb c "-" then ([c], r') else ([], r)
          | [] => ([], r)
          end in
        match r1 with
        | d :: r2 =>
            if is_digit d
            then (e :: sign ++ d :: run is_digit r2, after_run is_digit r2)
            else ([], s)
        | [] => ([], s)
        end
      else ([], s)
  | [] => ([], s)
  end.

Inductive number_text : Type :=
| IntText (integer : str)
| FloatText (text : str).

Definition scan_number (s : str) : option (number_text * str) :=
  match scan_int s with
  | Some (integer, s1) =>
      let '(frac, s2) := scan_frac s1 in
      let '(exp, s3) := scan_exp s2 in
      match frac, exp with
      | [], [] => Some (IntText integer, s3)
      | _, _ => Some (FloatText (integer ++ frac ++ exp), s3)
      end
  | None => None
  end.

(** JSON whitespace: space, tab, line feed, carriage return. *)
Definition json_ws (c : ascii) : bool :=
  let n := nat_of_ascii c in
  (n =? 32) || (n =? 9) || (n =? 10) || (n =? 13).

Definition skip_ws (s : str) : str := after_run json_ws s.

(** What may follow a number: the end, or a character no number holds. *)
Definition number_char (c : ascii) : bool :=
  is_digit c || Ascii.eqb c "." || Ascii.eqb c "e" || Ascii.eqb c "E"
  || Ascii.eqb c "+" || Ascii.eqb c "-".

Definition ends_number (rest : str) : Prop :=
  match rest with
  | [] => True
  | c :: _ => number_char c = false
  end.

(** What follows a value in the encoder's output: the end of the text,
    a comma, or the line break before a closing bracket. *)
Definition after_value (rest : str) : Prop :=
  match rest with
  | [] => True
  | c :: _ => c = ","%char \/ c = newline
  end.

(** The first character of an encoded value: no whitespace, no closing
    bracket. *)
Definition starts_value (s : str) : Prop :=
  match s with
  | [] => False
  | c :: _ =>
      json_ws c = false /\ Ascii.eqb c "]" = false /\ Ascii.eqb c "}" = false
  end.

Section Json.

(** Python's finite [float]s with their [repr] and with [float(text)]. *)
Variable flt : Type.
Variable float_repr : flt -> str.
Variable float_of_str : str -> option flt.

(** The values [json.dumps] takes: a dict is the list of its items in
    insertion order, its keys are strings. *)
#[warnings="-register-all"]
Inductive pyval : Type :=
| PNone
| PBool (b : bool)
| PInt (z : Z)
| PFloat (x : flt)
| PStr (s : str)
| PList (l : list pyval)
| PTuple (l : list pyval)
| PDict (d : list (str * pyval)).

(** A line break and the indentation of [level]: two spaces a level. *)
Definition newline_indent (level : nat) : str :=
  newline :: repeat " "%char (2 * level).

(** [json.dumps(v, indent=2)] at a nesting [level]. *)
Fixpoint encode (level : nat) (v : pyval) : str :=
  match v with
  | PNone => lit "null"
  | PBool true => lit "true"
  | PBool false => lit "false"
  | PInt z => int_repr z
  | PFloat x => float_repr x
  | PStr s => encode_string s
  | PList l | PTuple l =>
      match l with
      | [] => lit "[]"
      | _ :: _ =>
          "["%char :: newline_indent (S level)
          ++ join (","%char :: newline_indent (S level))
               (map (encode (S level)) l)
          ++ newline_indent level ++ ["]"%char]
      end
  | PDict d =>
      match d with
      | [] => lit "{}"
      | _ :: _ =>
          "{"%char :: newline_indent (S level)
          ++ join (","%char :: newline_indent (S level))
               (map (fun kv => encode_string (fst kv) ++ lit ": "
                               ++ encode (S level) (snd kv)) d)
          ++ newline_indent level ++ ["}"%char]
      end
  end.

Definition dumps (data : pyval) : str := encode 0 data.

Definition export_to_json (data : pyval) (filename : str) : BytesIO :=
  let json_str := dumps data in
  {| getvalue := utf8_encode json_str |}.

(** [d[k] = v] on the items of a dict: a key already there keeps its
    place and takes the new value. *)
Fixpoint dict_set (d : list (str * pyval)) (k : str) (v : pyval)
  : list (str * pyval) :=
  match d with
  | [] => [(k, v)]
  | (k', v') :: d' =>
      if str_eqb k' k then (k', v) :: d' else (k', v') :: dict_set d' k v
  end.

Definition dict_of_pairs (pairs : list (str * pyval)) : list (str * pyval) :=
  fold_left (fun d kv => dict_set d (fst kv) (snd kv)) pairs [].

(** The decoder.  [fuel] bounds the nesting and the number of items
    read; the length of the text is enough. *)
Fixpoint parse_value (fuel : nat) (s : str) : option (pyval * str) :=
  match fuel with
  | O => None
  | S f =>
      match s with
      | [] => None
      | c :: r =>
          if Ascii.eqb c dquote then
            match parse_chars r with
            | Some (t, rest) => Some (PStr t, rest)
            | None => None
            end
          else if Ascii.eqb c "[" then
            match skip_ws r with
            | c1 :: r1 =>
                if Ascii.eqb c1 "]" then Some (PList [], r1)
                else
                  match parse_elements f (c1 :: r1) with
                  | Some (l, rest) => Some (PList l, rest)
                  | None => None
                  end
            | [] => None
            end
          else if Ascii.eqb c "{" then
            match skip_ws r with
            | c1 :: r1 =>
                if Ascii.eqb c1 "}" then Some (PDict [], r1)
                else
                  match parse_members f (c1 :: r1) with
                  | Some (pairs, rest) => Some (PDict (dict_of_pairs pairs), rest)
                  | None => None
                  end
            | [] => None
            end
          else if Ascii.eqb c "n" then
            match strip_prefix (lit "null") s with
            | Some rest => Some (PNone, rest)
            | None => None
            end
          else if Ascii.eqb c "t" then
            match strip_prefix (lit "true") s with
            | Some rest => Some (PBool true, rest)
            | None => None
            end
          else if Ascii.eqb c "f" then
            match strip_prefix (lit "false") s with
            | Some rest => Some (PBool false, rest)
            | None => None
            end
          else
            match scan_number s with
            | Some (IntText integer, rest) => Some (PInt (int_of_str integer), rest)
            | Some (FloatText text, rest) =>
                match float_of_str text with
                | Some x => Some (PFloat x, rest)
                | None => None
                end
            | None => None
            end
      end
  end
with parse_elements (fuel : nat) (s : str) : option (list pyval * str) :=
  match fuel with
  | O => None
  | S f =>
      match parse_value f s with
      | Some (v, s1) =>
          match skip_ws s1 with
          | c :: s2 =>
              if Ascii.eqb c "," then
                match parse_elements f (skip_ws s2) with
                | Some (l, rest) => Some (v :: l, rest)
                | None => None
                end
              else if Ascii.eqb c "]" then Some ([v], s2)
              else None
          | [] => None
          end
      | None => None
      end
  end
with parse_members (fuel : nat) (s : str)
  : option (list (str * pyval) * str) :=
  match fuel with
  | O => None
  | S f =>
      match s with
      | q :: r =>
          if Ascii.eqb q dquote then
            match parse_chars r with
            | Some (k, s1) =>
                match skip_ws s1 with
                | c :: s2 =>
                    if Ascii.eqb c ":" then
                      match parse_value f (skip_ws s2) with
                      | Some (v, s3) =>
                          match skip_ws s3 with
                          | c' :: s4 =>
                              if Ascii.eqb c' "," then
                                match parse_members f (skip_ws s4) with
                                | Some (pairs, rest) => Some ((k, v) :: pairs, rest)
                                | None => None
                                end
                              else if Ascii.eqb c' "}" then Some ([(k, v)], s4)
                              else None
                          | [] => None
                          end
                      | None => None
                      end
                    else None
                | [] => None
                end
            | None => None
            end
          else None
      | [] => None
      end
  end.

(** [json.loads(text)]: one value, whitespace around it, nothing else. *)
Definition loads (text : str) : option pyval :=
  match parse_value (S (length text)) (skip_ws text) with
  | Some (v, rest) =>
      match skip_ws rest with
      | [] => Some v
      | _ :: _ => None
      end
  | None => None
  end.

(** [json.loads(buffer.getvalue())]: the bytes are decoded, then read. *)
Definition loads_bytes (b : list byte) : option pyval :=
  match utf8_decode b with
  | Some text => loads text
  | None => None
  end.

(** What the decoder makes of a value: a tuple comes back as a list. *)
Fixpoint listed (v : pyval) : pyval :=
  match v with
  | PList l | PTuple l => PList (map listed l)
  | PDict d => PDict (map (fun kv => (fst kv, listed (snd kv))) d)
  | _ => v
  end.

(** A float the text form carries: its [repr] is a JSON number with a
    fraction or an exponent, and [float] reads it back. *)
Definition float_text_ok (x : flt) : Prop :=
  scan_number (float_repr x) = Some (FloatText (float_repr x), [])
  /\ float_of_str (float_repr x) = Some x.

(** A value [json.dumps] and [json.loads] can carry: the keys of each
    dict differ from one another, and each float is carried by its
    text. *)
Fixpoint serializable (v : pyval) : Prop :=
  match v with
  | PFloat x => float_text_ok x
  | PList l | PTuple l =>
      (fix all (l : list pyval) : Prop :=
         match l with
         | [] => True
         | x :: l' => serializable x /\ all l'
         end) l
  | PDict d =>
      NoDup (map fst d)
      /\ (fix all (d : list (str * pyval)) : Prop :=
            match d with
            | [] => True
            | kv :: d' => serializable (snd kv) /\ all d'
            end) d
  | _ => True
  end.

(** The value holds a tuple somewhere. *)
Fixpoint has_tuple (v : pyval) : bool :=
  match v with
  | PTuple _ => true
  | PList l => existsb has_tuple l
  | PDict d => existsb (fun kv => has_tuple (snd kv)) d
  | _ => false
  end.

End Json.

Arguments PNone {flt}.
Arguments PBool {flt} b.
Arguments PInt {flt} z.
Arguments PStr {flt} s.
Arguments PList {flt} l.
Arguments PTuple {flt} l.
Arguments PDict {flt} d.
Arguments PFloat {flt} x.
Arguments encode {flt} float_repr level v.
Arguments dumps {flt} float_repr data.
Arguments export_to_json {flt} float_repr data filename.
Arguments dict_set {flt} d k v.
Arguments dict_of_pairs {flt} pairs.
Arguments parse_value {flt} float_of_str fuel s.
Arguments parse_elements {flt} float_of_str fuel s.
Arguments parse_members {flt} float_of_str fuel s.
Arguments loads {flt} float_of_str text.
Arguments loads_bytes {flt} float_of_str b.
Arguments listed {flt} v.
Arguments float_text_ok {flt} float_repr float_of_str x.
Arguments serializable {flt} float_repr float_of_str v.
Arguments has_tuple {flt} v.

(** ** The records the program exports *)

(** The dict [analyze_transcript] returns, as a value: [top_words] is a
    list of tuples. *)
Definition number_py {F : Floats} (n : number) : pyval float :=
  match n with
  | Int z => PInt z
  | Float x => PFloat x
  end.

Definition analysis_py {F : Floats} (a : analysis) : pyval float :=
  PDict
    [(lit "word_count", PInt (Z.of_nat (word_count a)));
     (lit "character_count", PInt (Z.of_nat (character_count a)));
     (lit "speaking_speed", number_py (speaking_speed a));
     (lit "top_words",
      PList (map (fun wn => PTuple [PStr (fst wn); PInt (Z.of_nat (snd wn))])
               (top_words a)));
     (lit "estimated_duration", number_py (estimated_duration a))].

(** One dict of [batch_results]. *)
Definition batch_result_py {flt : Type} (r : batch_result) : pyval flt :=
  PDict
    [(lit "url", PStr (br_url r));
     (lit "video_id", PStr (br_video_id r));
     (lit "title", PStr (br_title r));
     (lit "summary", PStr (br_summary r));
     (lit "word_count", PInt (Z.of_nat (br_word_count r)))].

(** ** Text of the exact floats

    [repr] and [float] on the rationals with at most two decimals, not
    negative and below 10^16, where [repr] prints all the digits: the
    integer part, a point, and one or two decimals. *)
Definition digit_char (n : Z) : ascii := ascii_of_nat (48 + Z.to_nat n).

Definition decimal_repr (q : Q) : str :=
  let h := Qfloor (q * 100) in
  (int_repr (h / 100) ++ "."%char :: digit_char ((h mod 100) / 10)
   :: (if h mod 10 =? 0 then [] else [digit_char (h mod 10)]))%Z.

Definition digit_value (c : ascii) : Z := Z.of_nat (nat_of_ascii c - 48).

Definition decimal_of_str (s : str) : option Q :=
  let i := run is_digit s in
  match i, after_run is_digit s with
  | _ :: _, p :: x1 :: r =>
      if Ascii.eqb p "." && is_digit x1 then
        match r with
        | [] => Some (Qmake (int_of_str i * 100 + digit_value x1 * 10) 100)
        | [x2] =>
            if is_digit x2
            then Some (Qmake (int_of_str i * 100 + digit_value x1 * 10
                               + digit_value x2) 100)
            else None
        | _ => None
        end
      else None
  | _, _ => None
  end.

(** ** The inputs of the examples *)

(** Three lines for the examples: a video, a line that is no URL, a
    second video; the first line is padded and a blank line follows
    it. *)
Definition three_lines : str :=
  lit "  https://youtu.be/abc123 " ++ [newline; newline]
  ++ lit "not a url" ++ [newline]
  ++ lit "https://www.youtube.com/watch?v=zzz999&t=1s".

Definition summary_ok : str -> result str := fun _ => Ok (lit "A summary.").
Definition model_down : str -> result str := fun _ => Raise (Error (lit "503")).
Definition page_ok : str -> result str :=
  fun _ => Ok (lit "<title>A video - YouTube</title>").

(** A transcript service that knows one video. *)
Definition one_video : str -> result (list str) :=
  fun id =>
    if str_eqb id (lit "abc123") then Ok [lit "hello there"; lit "world"]
    else Raise (Error (lit "no captions")).

(** A transcript service that answers with no snippet at all. *)
Definition no_snippets : str -> result (list str) := fun _ => Ok [].

(* ================================================================== *)
(** * Further definitions for the properties beyond the specification *)

From Stdlib Require Import Sorted Permutation.

(** The count a counter holds for [w]; 0 when [w] is not a key. *)
Fixpoint count_of (w : str) (c : counter) : nat :=
  match c with
  | [] => 0
  | (k, n) :: c' => if str_eqb k w then n else count_of w c'
  end.

(** The number of times [w] stands in [ws]. *)
Definition occurrences (w : str) (ws : list str) : nat :=
  count_occ (list_eq_dec ascii_dec) ws w.

(** The sum of the counts of a counter. *)
Definition total (c : counter) : nat := list_sum (map snd c).

(** The words of a transcript that reach the counter, lower-cased. *)
Definition counted_words (text : str) : list str :=
  map lower (filter counted (split text)).

(** Counts go down along the list. *)
Definition descending (c : counter) : Prop :=
  StronglySorted (fun x y => snd y <= snd x) c.

(** What stands in a URL right before a captured identifier: one of the
    shapes of the first rule, or the watch page, the rest of the line up
    to a [v=], and that [v=]. *)
Definition marker_before (pre : str) : Prop :=
  (exists p mk, In mk shapes /\ pre = p ++ mk)
  \/ (exists p mid, forallb dot mid = true
                    /\ pre = p ++ lit "youtube.com/watch?" ++ mid ++ lit "v=").

(** The elements of [ws], each once, in the order they are first seen. *)
Definition first_seen (ws : list str) : list str :=
  rev (nodup (list_eq_dec ascii_dec) (rev ws)).

(** No whitespace at either end. *)
Definition trimmed (s : str) : Prop :=
  match s with [] => True | c :: _ => isspace c = false end
  /\ match rev s with [] => True | c :: _ => isspace c = false end.

(** [piece] stands in [s], between [a] and [b]. *)
Definition piece_of (piece s : str) : Prop :=
  exists a b, s = a ++ piece ++ b.

(** * [export_to_text], over every code point

    The content of a text export is a summary or a transcript, which
    hold characters of any script.  Here a string is the list of its
    code points, [str.encode()] is UTF-8 with its one to four bytes and
    its refusal of surrogates, and [bytes.decode()] is the strict
    decoder. *)

(** A code point: U+0000..U+10FFFF. *)
Definition code_point (n : N) : Prop := (n < 0x110000)%N.

(** U+D800..U+DFFF. *)
Definition is_surrogate (n : N) : bool :=
  ((0xD800 <=? n) && (n <=? 0xDFFF))%N.

Definition byte_of_N (n : N) : byte :=
  match Byte.of_N n with
  | Some b => b
  | None => Byte.x00
  end.

(** What [str.encode()] raises on a surrogate. *)
Definition UnicodeEncodeError : exn :=
  Error (lit "'utf-8' codec can't encode character: surrogates not allowed").

(** The bytes of one code point. *)
Definition utf8_point (n : N) : result (list byte) :=
  (if n <? 0x80 then Ok [byte_of_N n]
   else if n <? 0x800 then
     Ok [byte_of_N (0xC0 + n / 64); byte_of_N (0x80 + n mod 64)]
   else if is_surrogate n then Raise UnicodeEncodeError
   else if n <? 0x10000 then
     Ok [byte_of_N (0xE0 + n / 4096); byte_of_N (0x80 + (n / 64) mod 64);
         byte_of_N (0x80 + n mod 64)]
   else
     Ok [byte_of_N (0xF0 + n / 262144); byte_of_N (0x80 + (n / 4096) mod 64);
         byte_of_N (0x80 + (n / 64) mod 64); byte_of_N (0x80 + n mod 64)])%N.

(** [content.encode()]. *)
Fixpoint encode_utf8 (content : list N) : result (list byte) :=
  match content with
  | [] => Ok []
  | n :: rest =>
      b <- utf8_point n ;;
      bs <- encode_utf8 rest ;;
      Ok (b ++ bs)
  end.

(** The six low bits of a continuation byte [10xxxxxx]. *)
Definition continuation (b : byte) : option N :=
  let x := Byte.to_N b in
  (if (0x80 <=? x) && (x <=? 0xBF) then Some (x - 0x80) else None)%N.

(** [buffer.decode()]: [None] stands for [UnicodeDecodeError], raised on
    a byte that starts no sequence, a sequence cut short, a code point
    written longer than it needs, a surrogate, and what lies beyond
    U+10FFFF. *)
Fixpoint decode_utf8 (b : list byte) : option (list N) :=
  match b with
  | [] => Some []
  | b1 :: r =>
      let x := Byte.to_N b1 in
      (if x <? 0x80 then option_map (cons x) (decode_utf8 r)
       else if x <? 0xC0 then None
       else if x <? 0xE0 then
         match r with
         | b2 :: r' =>
             match continuation b2 with
             | Some c2 =>
                 let n := (x - 0xC0) * 64 + c2 in
                 if n <? 0x80 then None
                 else option_map (cons n) (decode_utf8 r')
             | None => None
             end
         | _ => None
         end
       else if x <? 0xF0 then
         match r with
         | b2 :: b3 :: r' =>
             match continuation b2, continuation b3 with
             | Some c2, Some c3 =>
                 let n := ((x - 0xE0) * 64 + c2) * 64 + c3 in
                 if (n <? 0x800) || is_surrogate n then None
                 else option_map (cons n) (decode_utf8 r')
             | _, _ => None
             end
         | _ => None
         end
       else if x <? 0xF8 then
         match r with
         | b2 :: b3 :: b4 :: r' =>
             match continuation b2, continuation b3, continuation b4 with
             | Some c2, Some c3, Some c4 =>
                 let n := (((x - 0xF0) * 64 + c2) * 64 + c3) * 64 + c4 in
                 if (n <? 0x10000) || (0x10FFFF <? n) then None
                 else option_map (cons n) (decode_utf8 r')
             | _, _, _ => None
             end
         | _ => None
         end
       else None)%N
  end.

(** The number of bytes UTF-8 gives a code point. *)
Definition utf8_width (n : N) : nat :=
  if (n <? 0x80)%N then 1
  else if (n <? 0x800)%N then 2
  else if (n <? 0x10000)%N then 3
  else 4.

(** [export_to_text]: the content, encoded. *)
Definition export_to_text (content : list N) (filename : str)
  : result BytesIO :=
  buffer <- encode_utf8 content ;;
  Ok {| getvalue := buffer |}.

(** The code points of a string of the range U+0000..U+00FF. *)
Definition points (s : str) : list N := map N_of_ascii s.

(** A character of the ASCII range, and a byte below 128. *)
Definition is_ascii (c : ascii) : bool := nat_of_ascii c <? 128.
Definition ascii_byte (b : byte) : bool := Byte.to_nat b <? 128.

(** * The single-video handler

    What the page computes once the button is pressed on a URL: the
    metadata, the summary and, for each option of the sidebar that is
    on, the analysis, the keywords and the sentiment.  [None] stands
    for a run that shows no video; the calls that only draw on the page
    are left out. *)

Section SingleVideo.
Context {F : Floats}.
Variable generate_content : str -> result str.
Variable fetch : str -> result (list str).
Variable requests_get : str -> result str.

Record video_report : Type := VideoReport {
  shown_metadata : metadata;
  shown_summary : str;
  shown_analysis : option analysis;
  shown_keywords : option str;
  shown_sentiment : option str
}.

(** [if flag: x = call()]. *)
Definition when {A : Type} (flag : bool) (call : result A)
  : result (option A) :=
  if flag then x <- call ;; Ok (Some x) else Ok None.

Definition analyze_video (st : summary_type)
  (show_analysis show_keywords show_sentiment : bool)
  (analyze_button : bool) (youtube_url : str)
  : result (option video_report) :=
  if analyze_button && truthy (Some youtube_url) then
    p <- extract_transcript fetch youtube_url ;;
    if caller_accepts p then
      match p with
      | (Some transcript_text, Some video_id) =>
          metadata <- get_video_metadata requests_get video_id ;;
          summary <- generate_gemini_content generate_content
                       transcript_text (prompts st) ;;
          analysis <- when show_analysis (analyze_transcript transcript_text) ;;
          keywords <- when show_keywords
                        (extract_keywords generate_content transcript_text) ;;
          sentiment <- when show_sentiment
                         (analyze_sentiment generate_content transcript_text) ;;
          Ok (Some {| shown_metadata := metadata;
                      shown_summary := summary;
                      shown_analysis := analysis;
                      shown_keywords := keywords;
                      shown_sentiment := sentiment |})
      | _ => Ok None
      end
    else Ok None
  else Ok None.

End SingleVideo.

(** Inputs of the examples: a transcript service that answers with the
    identifier as the only snippet, and a model that answers for the
    transcripts that start with [abc] and raises for the others. *)
Definition echo_id : str -> result (list str) := fun id => Ok [id].

Definition summary_abc : str -> result str :=
  fun prompt =>
    if str_eqb (firstn 3 prompt) (lit "abc") then Ok (lit "A summary.")
    else Raise (Error (lit "quota")).
(* ================================================================== *)
(** * Properties *)

(** ** Strings *)

Lemma str_eqb_eq (a b : str) : str_eqb a b = true <-> a = b.
Proof.
  unfold str_eqb. destruct (list_eq_dec ascii_dec a b); split; congruence.
Qed.

Lemma str_eqb_neq (a b : str) : str_eqb a b = false <-> a <> b.
Proof.
  unfold str_eqb. destruct (list_eq_dec ascii_dec a b); split; congruence.
Qed.

Lemma str_eqb_refl (a : str) : str_eqb a a = true.
Proof. apply str_eqb_eq. reflexivity. Qed.

Lemma mem_In (x : str) (xs : list str) : mem x xs = true <-> In x xs.
Proof.
  unfold mem. rewrite existsb_exists. split.
  - intros [y [Hy E]]. apply str_eqb_eq in E. subst. exact Hy.
  - intros H. exists x. split; [exact H | apply str_eqb_refl].
Qed.

Lemma strip_prefix_Some (l s t : str) :
  strip_prefix l s = Some t <-> s = l ++ t.
Proof.
  revert s. induction l as [|a l IH]; intros s; simpl.
  - split; congruence.
  - destruct s as [|b s].
    + split; discriminate.
    + destruct (Ascii.eqb_spec a b) as [->|N].
      * rewrite IH. split; congruence.
      * split; [discriminate | intros E; inversion E; congruence].
Qed.

Lemma strip_prefix_app (l t : str) : strip_prefix l (l ++ t) = Some t.
Proof. apply strip_prefix_Some. reflexivity. Qed.

Lemma strip_prefix_None (l s : str) :
  strip_prefix l s = None <-> forall t, s <> l ++ t.
Proof.
  split.
  - intros H t E. apply strip_prefix_Some in E. congruence.
  - intros H. destruct (strip_prefix l s) as [t|] eqn:E; [|reflexivity].
    apply strip_prefix_Some in E. exfalso. exact (H t E).
Qed.

(** ** [extract_video_id] *)

Example extract_video_id_short :
  extract_video_id (lit "https://youtu.be/abc123") = Some (lit "abc123").
Proof. reflexivity. Qed.

Example extract_video_id_watch :
  extract_video_id (lit "https://www.youtube.com/watch?v=dQw4w9WgXcQ&t=42s")
  = Some (lit "dQw4w9WgXcQ").
Proof. reflexivity. Qed.

Example extract_video_id_second_rule :
  extract_video_id (lit "https://www.youtube.com/watch?feature=share&v=abc123")
  = Some (lit "abc123").
Proof. reflexivity. Qed.

Example extract_video_id_none :
  extract_video_id (lit "https://example.com/video/abc123") = None.
Proof. reflexivity. Qed.

Section StarFacts.
Variable A : Type.
Implicit Types (p : ascii -> bool) (k : str -> option A).

Lemma star_None p s k :
  star p s k = None <->
  forall a b, s = a ++ b -> forallb p a = true -> k b = None.
Proof.
  induction s as [|c s IH]; simpl.
  - split.
    + intros H a b E _. symmetry in E. apply app_eq_nil in E as [-> ->]. exact H.
    + intros H. apply (H [] []); reflexivity.
  - destruct (p c) eqn:Pc.
    + destruct (star p s k) as [x|] eqn:Es.
      * split; [discriminate|]. intros H.
        destruct IH as [_ IH2]. 
        assert (N : Some x = None); [|discriminate N].
        apply IH2. intros a b E Fa.
        apply (H (c :: a) b); [simpl; congruence | simpl; rewrite Pc; exact Fa].
      * destruct IH as [IH1 _]. specialize (IH1 eq_refl). split.
        -- intros Hk a b E Fa. destruct a as [|a0 a].
           ++ simpl in E. subst b. exact Hk.
           ++ simpl in E. inversion E; subst. simpl in Fa.
              apply andb_true_iff in Fa as [_ Fa]. eapply IH1; eauto.
        -- intros H. apply (H [] (c :: s)); reflexivity.
    + split.
      * intros Hk a b E Fa. destruct a as [|a0 a].
        -- simpl in E. subst b. exact Hk.
        -- simpl in E. inversion E; subst. simpl in Fa. rewrite Pc in Fa. discriminate.
      * intros H. apply (H [] (c :: s)); reflexivity.
Qed.

Lemma star_Some p s k x :
  star p s k = Some x ->
  exists a b, s = a ++ b /\ forallb p a = true /\ k b = Some x.
Proof.
  revert x. induction s as [|c s IH]; simpl; intros x H.
  - exists [], []. auto.
  - destruct (p c) eqn:Pc.
    + destruct (star p s k) as [y|] eqn:Es.
      * inversion H; subst y. destruct (IH x eq_refl) as (a & b & E & Fa & Kb).
        exists (c :: a), b. simpl. rewrite Pc. subst s. auto.
      * exists [], (c :: s). auto.
    + exists [], (c :: s). auto.
Qed.

(** A greedy repetition first offers the longest run to what follows. *)
Lemma star_longest p a b k x :
  forallb p a = true ->
  match b with [] => True | c :: _ => p c = false end ->
  k b = Some x ->
  star p (a ++ b) k = Some x.
Proof.
  intros Fa Hb Kb. induction a as [|c a IH]; simpl.
  - destruct b as [|c b]; [exact Kb|]. simpl. rewrite Hb. exact Kb.
  - simpl in Fa. apply andb_true_iff in Fa as [Pc Fa].
    rewrite Pc, (IH Fa). reflexivity.
Qed.

End StarFacts.

Lemma run_after_run p s : s = run p s ++ after_run p s.
Proof.
  induction s as [|c s IH]; simpl; [reflexivity|].
  destruct (p c); simpl; congruence.
Qed.

Lemma run_all p s : forallb p (run p s) = true.
Proof.
  induction s as [|c s IH]; simpl; [reflexivity|].
  destruct (p c) eqn:E; simpl; [rewrite E; exact IH | reflexivity].
Qed.

Lemma after_run_stop p s :
  match after_run p s with [] => True | c :: _ => p c = false end.
Proof.
  induction s as [|c s IH]; simpl; [exact I|].
  destruct (p c) eqn:E; [exact IH | exact E].
Qed.

Lemma run_app_stop p a b :
  forallb p a = true ->
  match b with [] => True | c :: _ => p c = false end ->
  run p (a ++ b) = a.
Proof.
  intros Fa Hb. induction a as [|c a IH]; simpl.
  - destruct b as [|c b]; [reflexivity|]. simpl. rewrite Hb. reflexivity.
  - simpl in Fa. apply andb_true_iff in Fa as [Pc Fa]. rewrite Pc, (IH Fa).
    reflexivity.
Qed.

Lemma firstn_run p s :
  firstn (length s - length (after_run p s)) s = run p s.
Proof.
  rewrite (run_after_run p s) at 1 3.
  rewrite length_app, Nat.add_sub.
  rewrite firstn_app, Nat.sub_diag, firstn_all. simpl. apply app_nil_r.
Qed.

Lemma group_plus_here (s : str) (g : option str) :
  rmatch (RGroup (RPlus id_char)) s g (fun _ g' => Some (MatchObj g'))
  = capture s.
Proof.
  destruct s as [|c s]; [reflexivity|].
  cbn [rmatch capture]. destruct (id_char c) eqn:Pc; [|reflexivity].
  rewrite (run_after_run id_char s) at 1.
  erewrite star_longest;
    [reflexivity | apply run_all | apply after_run_stop | ].
  f_equal. f_equal. f_equal.
  pose proof (firstn_run id_char (c :: s)) as F.
  cbn [after_run] in F. rewrite Pc in F. exact F.
Qed.

Lemma capture_Some (s : str) (m : match_obj) :
  capture s = Some m <->
  exists c q, id_char c = true /\ s = c :: q /\
              m = MatchObj (Some (run id_char s)).
Proof.
  destruct s as [|c s]; simpl.
  - split; [discriminate | intros (c & q & _ & E & _); discriminate].
  - destruct (id_char c) eqn:Pc; split.
    + intros E. inversion E. exists c, s. auto.
    + intros (c' & q & _ & _ & ->). reflexivity.
    + discriminate.
    + intros (c' & q & Pc' & E & _). inversion E; subst. congruence.
Qed.

Lemma capture_None (s : str) :
  capture s = None <-> forall c q, s = c :: q -> id_char c = false.
Proof.
  destruct s as [|c s]; simpl.
  - split; [intros _ c q E; discriminate | reflexivity].
  - destruct (id_char c) eqn:Pc; split.
    + discriminate.
    + intros H. specialize (H c s eq_refl). congruence.
    + intros _ c' q E. inversion E; subst. exact Pc.
    + reflexivity.
Qed.

Lemma capture_group (s : str) (m : match_obj) :
  capture s = Some m -> exists g, group1 m = Some g.
Proof.
  intros H. apply capture_Some in H as (c & q & _ & _ & ->). simpl. eauto.
Qed.

Lemma capture_id (id tail : str) :
  id <> [] -> forallb id_char id = true -> ends_id tail ->
  capture (id ++ tail) = Some (MatchObj (Some id)).
Proof.
  intros Hne Hid Hend. destruct id as [|c id]; [congruence|].
  pose proof (run_app_stop id_char (c :: id) tail Hid) as R.
  simpl in Hid. apply andb_true_iff in Hid as [Pc Hid].
  cbn [capture app]. rewrite Pc. cbn [app] in R. rewrite R; [reflexivity|].
  destruct tail; [exact I | exact Hend].
Qed.

Lemma then_capture_Some (l s : str) (m : match_obj) :
  then_capture l s = Some m ->
  exists c q, id_char c = true /\ s = l ++ c :: q /\ exists g, group1 m = Some g.
Proof.
  unfold then_capture. destruct (strip_prefix l s) as [r|] eqn:E; [|discriminate].
  intros H. apply strip_prefix_Some in E.
  pose proof (capture_group _ _ H) as G.
  apply capture_Some in H as (c & q & Pc & -> & _).
  exists c, q. auto.
Qed.

Lemma then_capture_None (l s : str) :
  then_capture l s = None ->
  forall c q, s = l ++ c :: q -> id_char c = false.
Proof.
  unfold then_capture. intros H c q E.
  apply strip_prefix_Some in E. rewrite E in H.
  exact (proj1 (capture_None _) H c q eq_refl).
Qed.

Lemma rmatch_lit {A : Type} l s g (k : str -> option str -> option A) :
  rmatch (RLit l) s g k
  = match strip_prefix l s with Some s' => k s' g | None => None end.
Proof. reflexivity. Qed.

Lemma rmatch_seq {A : Type} r1 r2 s g (k : str -> option str -> option A) :
  rmatch (RSeq r1 r2) s g k
  = rmatch r1 s g (fun s' g' => rmatch r2 s' g' k).
Proof. reflexivity. Qed.

Lemma rmatch_alt {A : Type} r1 r2 s g (k : str -> option str -> option A) :
  rmatch (RAlt r1 r2) s g k = orelse (rmatch r1 s g k) (rmatch r2 s g k).
Proof. reflexivity. Qed.

Lemma rmatch_star {A : Type} p s g (k : str -> option str -> option A) :
  rmatch (RStar p) s g k = star p s (fun s' => k s' g).
Proof. reflexivity. Qed.

(** The first rule at one position: the three alternatives in order, each
    followed by the capture. *)
Lemma pattern1_here (s : str) :
  match_here pattern1 s
  = orelse (then_capture shape_watch s)
      (orelse (then_capture shape_short s) (then_capture shape_embed s)).
Proof.
  unfold match_here, pattern1, then_capture.
  rewrite rmatch_seq, !rmatch_alt, !rmatch_lit.
  fold shape_watch shape_short shape_embed.
  destruct (strip_prefix shape_watch s), (strip_prefix shape_short s),
    (strip_prefix shape_embed s); rewrite ?group_plus_here; reflexivity.
Qed.

(** The second rule at one position. *)
Lemma pattern2_here (s : str) :
  match_here pattern2 s
  = match strip_prefix (lit "youtube.com/watch?") s with
    | Some r => star dot r (then_capture (lit "v="))
    | None => None
    end.
Proof.
  unfold match_here, pattern2.
  rewrite rmatch_seq, rmatch_lit.
  destruct (strip_prefix (lit "youtube.com/watch?") s) as [r|]; [|reflexivity].
  rewrite rmatch_seq, rmatch_star.
  assert (E : forall A (k1 k2 : str -> option A) t,
             (forall u, k1 u = k2 u) -> star dot t k1 = star dot t k2).
  { intros A k1 k2 t Hk. induction t as [|c t IH]; simpl.
    - apply Hk.
    - rewrite IH, Hk. reflexivity. }
  apply E. intros u. unfold then_capture.
  rewrite rmatch_seq, rmatch_lit.
  destruct (strip_prefix (lit "v=") u); [apply group_plus_here | reflexivity].
Qed.

Lemma search_here (r : regex) (s : str) (m : match_obj) :
  match_here r s = Some m -> search r s = Some m.
Proof. intros H. destruct s; simpl; rewrite H; reflexivity. Qed.

Lemma search_None (r : regex) (s : str) :
  search r s = None <-> forall p t, s = p ++ t -> match_here r t = None.
Proof.
  induction s as [|c s IH]; simpl.
  - destruct (match_here r []) eqn:E; split; try discriminate.
    + intros H. rewrite (H [] [] eq_refl) in E. discriminate.
    + intros _ p t Ept. symmetry in Ept. apply app_eq_nil in Ept as [_ ->]. exact E.
    + reflexivity.
  - destruct (match_here r (c :: s)) eqn:E; split; try discriminate.
    + intros H. rewrite (H [] (c :: s) eq_refl) in E. discriminate.
    + intros H p t Ept. destruct p as [|c' p]; simpl in Ept.
      * subst t. exact E.
      * inversion Ept; subst. exact (proj1 IH H p t eq_refl).
    + intros H. apply IH. intros p t Ept. apply (H (c :: p) t). simpl. congruence.
Qed.

Lemma search_Some (r : regex) (s : str) (m : match_obj) :
  search r s = Some m -> exists p t, s = p ++ t /\ match_here r t = Some m.
Proof.
  induction s as [|c s IH]; simpl.
  - destruct (match_here r []) eqn:E; [|discriminate].
    intros H. inversion H; subst. exists [], []. auto.
  - destruct (match_here r (c :: s)) eqn:E.
    + intros H. inversion H; subst. exists [], (c :: s). auto.
    + intros H. destruct (IH H) as (p & t & Ept & Hm).
      exists (c :: p), t. simpl. split; congruence.
Qed.

(** [search] returns the match at [t] when no earlier position has one. *)
Lemma search_first (r : regex) (pre t : str) (m : match_obj) :
  (forall p q, pre = p ++ q -> q <> [] -> match_here r (q ++ t) = None) ->
  match_here r t = Some m ->
  search r (pre ++ t) = Some m.
Proof.
  intros Hearly Hm. induction pre as [|c pre IH].
  - apply search_here. exact Hm.
  - pose proof (Hearly [] (c :: pre) eq_refl) as H0.
    cbn [app search] in *. rewrite H0; [|discriminate].
    apply IH. intros p q E Hq. apply (Hearly (c :: p) q); [simpl; congruence | exact Hq].
Qed.

Lemma pattern1_here_Some (t : str) (m : match_obj) :
  match_here pattern1 t = Some m ->
  shape_at t [] /\ exists g, group1 m = Some g.
Proof.
  rewrite pattern1_here. unfold orelse, shape_at, shapes.
  destruct (then_capture shape_watch t) eqn:E1;
    [|destruct (then_capture shape_short t) eqn:E2].
  - intros H; inversion H; subst.
    apply then_capture_Some in E1 as (c & q & Pc & E & G).
    split; [exists shape_watch, c, q; simpl; auto | exact G].
  - intros H; inversion H; subst.
    apply then_capture_Some in E2 as (c & q & Pc & E & G).
    split; [exists shape_short, c, q; simpl; auto | exact G].
  - intros H.
    apply then_capture_Some in H as (c & q & Pc & E & G).
    split; [exists shape_embed, c, q; simpl; auto | exact G].
Qed.

Lemma pattern1_here_None (t : str) :
  match_here pattern1 t = None -> ~ shape_at t [].
Proof.
  rewrite pattern1_here. unfold orelse.
  destruct (then_capture shape_watch t) eqn:E1; [discriminate|].
  destruct (then_capture shape_short t) eqn:E2; [discriminate|].
  intros E3 (mk & c & q & Hin & Pc & E). simpl in E.
  destruct Hin as [<-|[<-|[<-|[]]]].
  - rewrite (then_capture_None _ _ E1 _ _ E) in Pc. discriminate.
  - rewrite (then_capture_None _ _ E2 _ _ E) in Pc. discriminate.
  - rewrite (then_capture_None _ _ E3 _ _ E) in Pc. discriminate.
Qed.

Lemma pattern2_here_Some (t : str) (m : match_obj) :
  match_here pattern2 t = Some m ->
  query_at t [] /\ exists g, group1 m = Some g.
Proof.
  rewrite pattern2_here.
  destruct (strip_prefix (lit "youtube.com/watch?") t) as [r|] eqn:E;
    [|discriminate].
  apply strip_prefix_Some in E. intros H.
  apply star_Some in H as (a & b & Er & Fa & H).
  apply then_capture_Some in H as (c & q & Pc & Eb & G).
  split; [|exact G]. exists a, c, q. subst. auto.
Qed.

Lemma pattern2_here_None (t : str) :
  match_here pattern2 t = None -> ~ query_at t [].
Proof.
  rewrite pattern2_here. intros H (mid & c & q & Fm & Pc & E). cbn [app] in E.
  subst t. rewrite strip_prefix_app in H.
  pose proof (proj1 (star_None _ _ _ _) H mid _ eq_refl Fm) as N.
  rewrite (then_capture_None _ _ N c q eq_refl) in Pc. discriminate.
Qed.

(** Every shape starts with the letter [y]. *)
Lemma shapes_head (mk : str) :
  In mk shapes -> exists rest, mk = "y"%char :: rest.
Proof.
  intros [<-|[<-|[<-|[]]]]; eexists; reflexivity.
Qed.

Lemma first_y (pre x p y : str) :
  forallb (fun c => negb (Ascii.eqb c "y")) pre = true ->
  pre ++ x = p ++ "y"%char :: y ->
  length pre <= length p.
Proof.
  revert p. induction pre as [|c pre IH]; intros p Hy E; simpl; [lia|].
  simpl in Hy. apply andb_true_iff in Hy as [Hc Hy].
  destruct p as [|c' p]; simpl in *.
  - inversion E; subst. rewrite Ascii.eqb_refl in Hc. discriminate.
  - inversion E; subst. specialize (IH p Hy H1). lia.
Qed.

(** A prefix without the letter [y], such as [https://www.], holds no
    earlier occurrence of a shape. *)
Lemma shape_after_prefix (pre x p : str) :
  forallb (fun c => negb (Ascii.eqb c "y")) pre = true ->
  shape_at (pre ++ x) p -> length pre <= length p.
Proof.
  intros Hy (mk & c & q & Hin & _ & E).
  destruct (shapes_head _ Hin) as [rest ->].
  eapply first_y; [exact Hy | exact E].
Qed.

Lemma extract_video_id_unfold (s : str) :
  extract_video_id s
  = match search pattern1 s with
    | Some m => group1 m
    | None => match search pattern2 s with
              | Some m => group1 m
              | None => None
              end
    end.
Proof. reflexivity. Qed.

Lemma extract_video_id_shape (pre mk id tail : str) :
  In mk shapes -> id <> [] -> forallb id_char id = true -> ends_id tail ->
  (forall p, shape_at (pre ++ mk ++ id ++ tail) p -> length pre <= length p) ->
  extract_video_id (pre ++ mk ++ id ++ tail) = Some id.
Proof.
  intros Hin Hne Hid Hend Hfirst.
  rewrite extract_video_id_unfold.
  rewrite (search_first pattern1 pre (mk ++ id ++ tail) (MatchObj (Some id)));
    [reflexivity | | ].
  - intros p q E Hq.
    destruct (match_here pattern1 (q ++ mk ++ id ++ tail)) as [m|] eqn:Em;
      [|reflexivity].
    apply pattern1_here_Some in Em as [(mk' & c & r & Hin' & Pc & E') _].
    exfalso. assert (L : length pre <= length p).
    { apply Hfirst. exists mk', c, r. repeat split; auto.
      subst pre. rewrite <- app_assoc. simpl in E'. rewrite E'. reflexivity. }
    subst pre. rewrite length_app in L. destruct q; [congruence|]. simpl in L. lia.
  - rewrite pattern1_here. unfold then_capture, orelse.
    pose proof (capture_id id tail Hne Hid Hend) as C.
    destruct Hin as [<-|[<-|[<-|[]]]].
    + rewrite strip_prefix_app, C. reflexivity.
    + change (strip_prefix shape_watch (shape_short ++ id ++ tail)) with (@None str).
      rewrite strip_prefix_app, C. reflexivity.
    + change (strip_prefix shape_watch (shape_embed ++ id ++ tail)) with (@None str).
      change (strip_prefix shape_short (shape_embed ++ id ++ tail)) with (@None str).
      rewrite strip_prefix_app, C. reflexivity.
Qed.

Lemma extract_video_id_None (s : str) :
  extract_video_id s = None <-> ~ recognized s.
Proof.
  rewrite extract_video_id_unfold. split.
  - intros H (p & [Hs|Hq]).
    + destruct (search pattern1 s) as [m|] eqn:E1.
      * apply search_Some in E1 as (p' & t & _ & Hm).
        apply pattern1_here_Some in Hm as [_ [g G]]. congruence.
      * destruct Hs as (mk & c & q & Hin & Pc & E).
        apply (pattern1_here_None _ (proj1 (search_None _ _) E1 p _ E)).
        exists mk, c, q. auto.
    + destruct (search pattern1 s) as [m|] eqn:E1.
      * apply search_Some in E1 as (p' & t & _ & Hm).
        apply pattern1_here_Some in Hm as [_ [g G]]. congruence.
      * destruct (search pattern2 s) as [m|] eqn:E2.
        -- apply search_Some in E2 as (p' & t & _ & Hm).
           apply pattern2_here_Some in Hm as [_ [g G]]. congruence.
        -- destruct Hq as (mid & c & q & Fm & Pc & E).
           apply (pattern2_here_None _ (proj1 (search_None _ _) E2 p _ E)).
           exists mid, c, q. auto.
  - intros H.
    destruct (search pattern1 s) as [m|] eqn:E1.
    + exfalso. apply H. apply search_Some in E1 as (p & t & E & Hm).
      apply pattern1_here_Some in Hm as [(mk & c & q & Hin & Pc & Et) _].
      exists p. left. exists mk, c, q. simpl in Et. subst. auto.
    + destruct (search pattern2 s) as [m|] eqn:E2; [|reflexivity].
      exfalso. apply H. apply search_Some in E2 as (p & t & E & Hm).
      apply pattern2_here_Some in Hm as [(mid & c & q & Fm & Pc & Et) _].
      exists p. right. exists mid, c, q. simpl in Et. subst. auto.
Qed.

Lemma run_nonempty (p : ascii -> bool) (c : ascii) (q : str) :
  p c = true -> run p (c :: q) <> [].
Proof. intros H. simpl. rewrite H. discriminate. Qed.

(** What a successful [then_capture] has read. *)
Lemma then_capture_run (l s : str) (m : match_obj) :
  then_capture l s = Some m ->
  exists r, s = l ++ r /\ run id_char r <> []
            /\ group1 m = Some (run id_char r).
Proof.
  unfold then_capture. destruct (strip_prefix l s) as [r|] eqn:E; [|discriminate].
  apply strip_prefix_Some in E. intros H.
  apply capture_Some in H as (c & q & Pc & -> & ->).
  exists (c :: q). split; [exact E|]. split; [|reflexivity].
  apply run_nonempty, Pc.
Qed.

Lemma pattern1_here_run (t : str) (m : match_obj) :
  match_here pattern1 t = Some m ->
  exists mk r, In mk shapes /\ t = mk ++ r /\ run id_char r <> []
               /\ group1 m = Some (run id_char r).
Proof.
  rewrite pattern1_here. unfold orelse, shapes.
  destruct (then_capture shape_watch t) as [m1|] eqn:E1.
  - intros H. injection H as <-.
    apply then_capture_run in E1 as (r & ? & ? & ?).
    exists shape_watch, r. simpl. auto.
  - destruct (then_capture shape_short t) as [m2|] eqn:E2.
    + intros H. injection H as <-.
      apply then_capture_run in E2 as (r & ? & ? & ?).
      exists shape_short, r. simpl. auto.
    + intros H. apply then_capture_run in H as (r & ? & ? & ?).
      exists shape_embed, r. simpl. auto.
Qed.

Lemma pattern2_here_run (t : str) (m : match_obj) :
  match_here pattern2 t = Some m ->
  exists mid r, forallb dot mid = true
                /\ t = lit "youtube.com/watch?" ++ mid ++ lit "v=" ++ r
                /\ run id_char r <> []
                /\ group1 m = Some (run id_char r).
Proof.
  rewrite pattern2_here.
  destruct (strip_prefix (lit "youtube.com/watch?") t) as [r0|] eqn:E;
    [|discriminate].
  apply strip_prefix_Some in E. intros H.
  apply star_Some in H as (a & b & -> & Fa & H).
  apply then_capture_run in H as (r & -> & ? & ?).
  exists a, r. auto.
Qed.

(** Where a returned identifier stands in the URL. *)
Lemma extract_video_id_piece (s id : str) :
  extract_video_id s = Some id ->
  id <> [] /\ forallb id_char id = true
  /\ exists pre tail,
       s = pre ++ id ++ tail /\ ends_id tail /\ marker_before pre.
Proof.
  rewrite extract_video_id_unfold.
  destruct (search pattern1 s) as [m|] eqn:E1.
  - apply search_Some in E1 as (p & t & -> & Hm).
    apply pattern1_here_run in Hm as (mk & r & Hin & -> & Hr & ->).
    intros H. injection H as <-.
    split; [exact Hr|]. split; [apply run_all|].
    exists (p ++ mk), (after_run id_char r). split; [|split].
    + rewrite <- app_assoc. do 2 f_equal. apply run_after_run.
    + apply after_run_stop.
    + left. exists p, mk. auto.
  - destruct (search pattern2 s) as [m|] eqn:E2; [|discriminate].
    apply search_Some in E2 as (p & t & -> & Hm).
    apply pattern2_here_run in Hm as (mid & r & Fm & -> & Hr & ->).
    intros H. injection H as <-.
    split; [exact Hr|]. split; [apply run_all|].
    exists (p ++ lit "youtube.com/watch?" ++ mid ++ lit "v="),
      (after_run id_char r).
    split; [|split].
    + rewrite <- !app_assoc. do 4 f_equal. apply run_after_run.
    + apply after_run_stop.
    + right. exists p, mid. auto.
Qed.

(** The repetition takes the longest run its continuation accepts. *)
Lemma star_greedy {A : Type} (p : ascii -> bool) (k : str -> option A) (x : A)
  (a : str) : forall b : str,
  forallb p a = true ->
  k b = Some x ->
  (forall a' b', a ++ b = a' ++ b' -> forallb p a' = true ->
                 length a < length a' -> k b' = None) ->
  star p (a ++ b) k = Some x.
Proof.
  induction a as [|c a IH]; intros b Fa Hk Hlast.
  - cbn [app]. destruct b as [|c b]; [exact Hk|]. cbn [star].
    destruct (p c) eqn:Pc; [|exact Hk].
    replace (star p b k) with (@None A); [exact Hk|].
    symmetry. apply star_None. intros a2 b2 E F2.
    apply (Hlast (c :: a2) b2).
    + cbn [app]. rewrite E. reflexivity.
    + cbn [forallb]. rewrite Pc. exact F2.
    + simpl. lia.
  - cbn [forallb] in Fa. apply andb_prop in Fa as [Pc Fa].
    cbn [app star]. rewrite Pc.
    rewrite (IH b Fa Hk); [reflexivity|].
    intros a' b' E F' L. apply (Hlast (c :: a') b').
    + cbn [app]. rewrite E. reflexivity.
    + cbn [forallb]. rewrite Pc. exact F'.
    + simpl. lia.
Qed.

Lemma search_pattern1_None (s : str) :
  (forall p, ~ shape_at s p) -> search pattern1 s = None.
Proof.
  intros H. destruct (search pattern1 s) as [m|] eqn:E; [|reflexivity].
  exfalso. apply search_Some in E as (p & t & -> & Hm).
  apply pattern1_here_Some in Hm as [(mk & c & q & Hin & Pc & Et) _].
  apply (H p). exists mk, c, q. simpl in Et. subst. auto.
Qed.

Lemma no_shape_search (s : str) :
  search pattern1 s = None -> forall p, ~ shape_at s p.
Proof.
  intros E p (mk & c & q & Hin & Pc & Es).
  apply (pattern1_here_None _ (proj1 (search_None _ _) E p _ Es)).
  exists mk, c, q. auto.
Qed.

Lemma query_after_prefix (pre x p : str) :
  forallb (fun c => negb (Ascii.eqb c "y")) pre = true ->
  query_at (pre ++ x) p -> length pre <= length p.
Proof.
  intros F (mid & c & q & _ & _ & E).
  exact (first_y pre x p _ F E).
Qed.

(** The second rule reads the last [v=] of the line. *)
Lemma extract_video_id_greedy (pre mid id tail : str) :
  (forall p, ~ shape_at
       (pre ++ lit "youtube.com/watch?" ++ mid ++ lit "v=" ++ id ++ tail) p) ->
  (forall p, query_at
       (pre ++ lit "youtube.com/watch?" ++ mid ++ lit "v=" ++ id ++ tail) p ->
     length pre <= length p) ->
  forallb dot mid = true ->
  id <> [] -> forallb id_char id = true -> ends_id tail ->
  (forall a c q,
     mid ++ lit "v=" ++ id ++ tail = a ++ lit "v=" ++ c :: q ->
     forallb dot a = true -> id_char c = true -> length a <= length mid) ->
  extract_video_id
    (pre ++ lit "youtube.com/watch?" ++ mid ++ lit "v=" ++ id ++ tail)
  = Some id.
Proof.
  intros Hno Hfirst Fm Hid Fid Htail Hlast.
  rewrite extract_video_id_unfold, (search_pattern1_None _ Hno).
  assert (Hhere : match_here pattern2
            (lit "youtube.com/watch?" ++ mid ++ lit "v=" ++ id ++ tail)
          = Some (MatchObj (Some id))).
  { rewrite pattern2_here, strip_prefix_app.
    apply star_greedy; [exact Fm | |].
    - unfold then_capture. rewrite strip_prefix_app.
      apply capture_id; assumption.
    - intros a' b' E F' L.
      destruct (then_capture (lit "v=") b') as [m|] eqn:Em; [|reflexivity].
      exfalso. apply then_capture_Some in Em as (c & q & Pc & -> & _).
      specialize (Hlast a' c q E F' Pc). lia. }
  rewrite (search_first pattern2 pre _ (MatchObj (Some id)));
    [reflexivity | | exact Hhere].
  intros p q -> Hq.
  destruct (match_here pattern2 (q ++ _)) as [m|] eqn:Em; [|reflexivity].
  exfalso. apply pattern2_here_Some in Em as [(mid' & c & q' & F' & Pc & Et) _].
  cbn [app] in Et.
  assert (L : length (p ++ q) <= length p).
  { apply Hfirst. exists mid', c, q'. rewrite <- app_assoc, Et. auto. }
  rewrite length_app in L. destruct q; [congruence | simpl in L; lia].
Qed.

(** C1.  A string in which one of the shapes [watch?v=], [youtu.be/],
    [embed/] is followed by an identifier [id] (a non-empty run of
    characters outside [&\n?#] that ends at the end of the string or at
    one of those characters), and in which no shape stands earlier, yields
    exactly [id].  A string without such a shape that the second rule
    matches yields the identifier after the last [v=] of the line of the
    leftmost watch page.  Whatever is returned is such a captured run
    of the string, right after the text a rule asks for; and the result
    is [None] exactly for the strings in which no rule recognizes a
    shape. *)
Theorem extract_video_id_spec (s : str) :
  (forall pre mk id tail,
      s = pre ++ mk ++ id ++ tail ->
      In mk shapes -> id <> [] -> forallb id_char id = true -> ends_id tail ->
      (forall p, shape_at s p -> length pre <= length p) ->
      extract_video_id s = Some id)
  /\ (forall pre mid id tail,
        s = pre ++ lit "youtube.com/watch?" ++ mid ++ lit "v=" ++ id ++ tail ->
        (forall p, ~ shape_at s p) ->
        (forall p, query_at s p -> length pre <= length p) ->
        forallb dot mid = true ->
        id <> [] -> forallb id_char id = true -> ends_id tail ->
        (forall a c q,
           mid ++ lit "v=" ++ id ++ tail = a ++ lit "v=" ++ c :: q ->
           forallb dot a = true -> id_char c = true ->
           length a <= length mid) ->
        extract_video_id s = Some id)
  /\ (forall id,
        extract_video_id s = Some id ->
        id <> [] /\ forallb id_char id = true
        /\ exists pre tail,
             s = pre ++ id ++ tail /\ ends_id tail /\ marker_before pre)
  /\ (extract_video_id s = None <-> ~ recognized s).
Proof.
  split; [|split; [|split]].
  - intros pre mk id tail -> Hin Hne Hid Hend Hfirst.
    apply extract_video_id_shape; assumption.
  - intros pre mid id tail -> Hno Hfirst Fm Hne Hid Hend Hlast.
    apply extract_video_id_greedy; assumption.
  - intros id. apply extract_video_id_piece.
  - apply extract_video_id_None.
Qed.

(** The specification's example, through the theorem:
    [https://youtu.be/abc123] yields [abc123]; and a URL only the
    second rule matches. *)
Lemma extract_video_id_spec_witness :
  extract_video_id (lit "https://youtu.be/abc123") = Some (lit "abc123")
  /\ extract_video_id
       (lit "https://www.youtube.com/watch?feature=share&v=abc123")
     = Some (lit "abc123").
Proof.
  split.
  - apply (proj1 (extract_video_id_spec (lit "https://youtu.be/abc123"))
             (lit "https://") shape_short (lit "abc123") []).
    + reflexivity.
    + simpl; auto.
    + discriminate.
    + reflexivity.
    + exact I.
    + intros p.
      apply (shape_after_prefix (lit "https://") (lit "youtu.be/abc123") p).
      reflexivity.
  - apply (proj1 (proj2 (extract_video_id_spec
             (lit "https://www.youtube.com/watch?feature=share&v=abc123")))
             (lit "https://www.") (lit "feature=share&") (lit "abc123") []).
    + reflexivity.
    + apply no_shape_search. reflexivity.
    + intros p.
      apply (query_after_prefix (lit "https://www.")
               (lit "youtube.com/watch?feature=share&v=abc123") p).
      reflexivity.
    + reflexivity.
    + discriminate.
    + reflexivity.
    + exact I.
    + intros a c q E _ _.
      do 15 (destruct a as [|? a]; [simpl; lia|]).
      exfalso. apply (f_equal (skipn 15)) in E. simpl in E.
      repeat (destruct a as [|? a];
              [discriminate E
              | try discriminate E; apply (f_equal (@tl _)) in E; simpl in E]).
Defined.

(** ** [analyze_transcript] *)

Lemma split_from_skip (sp s : str) :
  forallb isspace sp = true -> split_from [] (sp ++ s) = split_from [] s.
Proof.
  induction sp as [|c sp IH]; simpl; [reflexivity|].
  intros H. apply andb_true_iff in H as [Hc H]. rewrite Hc. exact (IH H).
Qed.

Lemma split_from_word (w : str) : forall (cur rest : str),
  forallb (fun c => negb (isspace c)) w = true ->
  match rest with [] => True | c :: _ => isspace c = true end ->
  cur ++ w <> [] ->
  split_from cur (w ++ rest) = (cur ++ w) :: split_from [] rest.
Proof.
  induction w as [|c w IH]; intros cur rest Hw Hrest Hne.
  - rewrite app_nil_r in *. simpl.
    destruct rest as [|d rest]; simpl.
    + destruct cur; [congruence | reflexivity].
    + rewrite Hrest. destruct cur; [congruence | reflexivity].
  - simpl in Hw. apply andb_true_iff in Hw as [Hc Hw].
    apply negb_true_iff in Hc. simpl. rewrite Hc.
    rewrite (IH (cur ++ [c]) rest Hw Hrest).
    + rewrite <- app_assoc. reflexivity.
    + rewrite <- app_assoc. simpl. intros E. apply app_eq_nil in E as [_ E].
      discriminate.
Qed.

(** The tokens of a string are what [split] returns. *)
Lemma tokens_split (s : str) (ws : list str) : tokens s ws -> split s = ws.
Proof.
  unfold split. induction 1 as [sp Hsp | sp w rest ws Hsp Hne Hw Hrest _ IH].
  - rewrite <- (app_nil_r sp), split_from_skip by exact Hsp. reflexivity.
  - rewrite split_from_skip by exact Hsp.
    rewrite (split_from_word w [] rest Hw Hrest) by exact Hne.
    simpl. rewrite IH. reflexivity.
Qed.

Lemma after_run_length (p : ascii -> bool) (s : str) :
  length (after_run p s) <= length s.
Proof.
  induction s as [|c s IH]; simpl; [lia|]. destruct (p c); simpl; lia.
Qed.

(** Every string has a list of tokens. *)
Lemma tokens_exist (s : str) : exists ws, tokens s ws.
Proof.
  remember (length s) as n eqn:En. revert s En.
  induction n as [n IH] using lt_wf_ind. intros s En.
  set (nonspace := fun c => negb (isspace c)).
  pose proof (run_after_run isspace s) as E1.
  pose proof (run_all isspace s) as Hsp.
  pose proof (after_run_stop isspace s) as Hs1.
  destruct (after_run isspace s) as [|c s1] eqn:Es1.
  - exists []. rewrite E1, app_nil_r. constructor. exact Hsp.
  - pose proof (run_after_run nonspace (c :: s1)) as E2.
    pose proof (run_all nonspace (c :: s1)) as Hw.
    pose proof (after_run_stop nonspace (c :: s1)) as Hs2.
    pose proof (after_run_length nonspace s1) as L2.
    pose proof (after_run_length isspace s) as L1. rewrite Es1 in L1.
    assert (Hc : nonspace c = true) by (unfold nonspace; rewrite Hs1; reflexivity).
    cbn [run after_run] in E2, Hw, Hs2. rewrite Hc in E2, Hw, Hs2.
    destruct (IH (length (after_run nonspace s1))) with (s := after_run nonspace s1)
      as [ws Hws]; [simpl in L1; lia | reflexivity |].
    exists ((c :: run nonspace s1) :: ws).
    rewrite E1, E2. constructor; auto; [discriminate|].
    destruct (after_run nonspace s1) as [|d r]; [exact I|].
    unfold nonspace in Hs2. apply negb_false_iff in Hs2. exact Hs2.
Qed.

Lemma split_tokens (s : str) : tokens s (split s).
Proof.
  destruct (tokens_exist s) as [ws H].
  rewrite (tokens_split s ws H). exact H.
Qed.

Section AnalyzerFacts.
Context {F : Floats}.

Lemma is_zero_200 : is_zero (of_int 200) = false.
Proof.
  destruct (is_zero (of_int 200)) eqn:E; [|reflexivity].
  apply of_int_zero in E. discriminate.
Qed.

Lemma analyze_transcript_Ok (text : str) :
  analyze_transcript text
  = Ok {| word_count := length (split text);
          character_count := length text;
          speaking_speed := round2 (speed_of text);
          top_words :=
            most_common 10 (Counter (map lower (filter counted (split text))));
          estimated_duration := round2 (Float (duration_of text)) |}.
Proof.
  unfold analyze_transcript, speed_of, truediv at 1.
  cbn [to_float]. rewrite is_zero_200. cbn [bind gt_zero].
  fold (duration_of text).
  destruct (is_pos (duration_of text)) eqn:G; cbn [bind]; [|reflexivity].
  unfold truediv. cbn [to_float]. rewrite (pos_not_zero _ G). reflexivity.
Qed.

(** C2.  The analysis returns, its [word_count] is the number of
    whitespace-delimited tokens of the transcript (the string has exactly
    one list of tokens), and its [character_count] is the length of the
    transcript. *)
Theorem analyze_transcript_counts (text : str) :
  exists (a : analysis) (ws : list str),
    analyze_transcript text = Ok a
    /\ tokens text ws
    /\ (forall ws', tokens text ws' -> ws' = ws)
    /\ word_count a = length ws
    /\ character_count a = length text.
Proof.
  eexists. exists (split text).
  split; [apply analyze_transcript_Ok|].
  split; [apply split_tokens|].
  split; [intros ws' H; symmetry; apply tokens_split; exact H|].
  split; reflexivity.
Qed.

End AnalyzerFacts.

Lemma lower_char_idem (c : ascii) : lower_char (lower_char c) = lower_char c.
Proof. destruct c as [[] [] [] [] [] [] [] []]; reflexivity. Qed.

Lemma lower_idem (w : str) : lower (lower w) = lower w.
Proof.
  unfold lower. rewrite map_map. apply map_ext. exact lower_char_idem.
Qed.

Lemma lower_length (w : str) : length (lower w) = length w.
Proof. apply length_map. Qed.

Lemma insert_desc_In (x y : str * nat) (l : counter) :
  In x (insert_desc y l) <-> x = y \/ In x l.
Proof.
  induction l as [|z l IH]; simpl.
  - intuition congruence.
  - destruct (snd y <? snd z); simpl; rewrite ?IH; intuition congruence.
Qed.

Lemma sorted_desc_In (x : str * nat) (l : counter) :
  In x (sorted_desc l) <-> In x l.
Proof.
  induction l as [|y l IH]; simpl; [tauto|].
  rewrite insert_desc_In, IH. intuition congruence.
Qed.

Lemma In_firstn {A : Type} (n : nat) (l : list A) (x : A) :
  In x (firstn n l) -> In x l.
Proof.
  revert l. induction n as [|n IH]; intros [|y l]; simpl; try tauto.
  intros [E|H]; [left; exact E | right; exact (IH l H)].
Qed.

Lemma most_common_In (n : nat) (c : counter) (x : str * nat) :
  In x (most_common n c) -> In x c.
Proof.
  unfold most_common. intros H. apply sorted_desc_In.
  exact (In_firstn n _ x H).
Qed.

Lemma most_common_length (n : nat) (c : counter) :
  length (most_common n c) <= n.
Proof. unfold most_common. apply firstn_le_length. Qed.

Lemma incr_In (w k : str) (n : nat) (c : counter) :
  In (k, n) (incr w c) -> k = w \/ exists n', In (k, n') c.
Proof.
  induction c as [|[k' n'] c IH]; simpl.
  - intros [E|[]]. inversion E. left. reflexivity.
  - destruct (str_eqb k' w) eqn:E; simpl.
    + apply str_eqb_eq in E. subst k'.
      intros [H|H].
      * inversion H; subst. left. reflexivity.
      * right. exists n. right. exact H.
    + intros [H|H].
      * inversion H; subst. right. exists n. left. reflexivity.
      * destruct (IH H) as [->|[m Hm]]; [left; reflexivity|].
        right. exists m. right. exact Hm.
Qed.

Lemma fold_incr_In (ws : list str) : forall (c : counter) (k : str) (n : nat),
  In (k, n) (fold_left (fun c w => incr w c) ws c) ->
  In k ws \/ exists n', In (k, n') c.
Proof.
  induction ws as [|w ws IH]; simpl; intros c k n H.
  - right. exists n. exact H.
  - destruct (IH _ _ _ H) as [Hin|[m Hm]]; [left; right; exact Hin|].
    destruct (incr_In _ _ _ _ Hm) as [->|Hc]; [left; left; reflexivity|].
    right. exact Hc.
Qed.

Lemma Counter_In (ws : list str) (k : str) (n : nat) :
  In (k, n) (Counter ws) -> In k ws.
Proof.
  intros H. destruct (fold_incr_In ws [] k n H) as [Hin|[m []]]. exact Hin.
Qed.

(** Equal counts keep the order in which the words were first seen. *)
Example most_common_ties :
  most_common 3 (Counter (map lit ["b"; "a"; "d"; "b"; "c"; "a"; "c"; "c"]%string))
  = [(lit "c", 3); (lit "b", 2); (lit "a", 2)].
Proof. reflexivity. Qed.

Section TopWords.
Context {F : Floats}.

(** C3.  The analysis returns; its [top_words] has at most 10 entries,
    and every token in it is longer than 3 characters, is not a stop
    word in any letter case (its lower-cased form is outside the
    stop-word set), and is the lower-cased form of a word of the
    transcript, hence its own lower-cased form. *)
Theorem top_words_filtered (text : str) :
  exists a : analysis,
    analyze_transcript text = Ok a
    /\ length (top_words a) <= 10
    /\ forall (w : str) (n : nat),
         In (w, n) (top_words a) ->
         3 < length w
         /\ mem (lower w) stop_words = false
         /\ lower w = w
         /\ exists word, In word (split text) /\ w = lower word.
Proof.
  eexists. split; [apply analyze_transcript_Ok|]. cbn [top_words].
  split; [apply most_common_length|].
  intros w n H.
  apply most_common_In, Counter_In, in_map_iff in H.
  destruct H as (word & <- & H).
  apply filter_In in H as [Hin Hc].
  unfold counted in Hc. apply andb_true_iff in Hc as [Hstop Hlen].
  apply negb_true_iff in Hstop. apply Nat.ltb_lt in Hlen.
  rewrite lower_length, lower_idem.
  repeat split; try assumption.
  exists word. auto.
Qed.

End TopWords.

(** ** An instance of the float interface: exact rational arithmetic *)

Lemma round_half_even_floor (q : Q) : (Qfloor q <= round_half_even q)%Z.
Proof.
  unfold round_half_even.
  destruct (Qcompare (q - inject_Z (Qfloor q)) (1 # 2)); [|lia|lia].
  destruct (Z.even (Qfloor q)); lia.
Qed.

Lemma exact_of_int_zero (z : Z) : Qeq_bool (inject_Z z) 0 = true <-> z = 0%Z.
Proof.
  rewrite Qeq_bool_iff. unfold Qeq, inject_Z. simpl. lia.
Qed.

Lemma exact_pos_not_zero (x : Q) :
  negb (Qle_bool x 0) = true -> Qeq_bool x 0 = false.
Proof.
  intros H. apply negb_true_iff in H.
  destruct (Qeq_bool x 0) eqn:E; [|reflexivity].
  apply Qeq_bool_iff in E.
  assert (L : Qle_bool x 0 = true) by (apply Qle_bool_iff; rewrite E; apply Qle_refl).
  congruence.
Qed.

Lemma exact_pos_lt (x : Q) : negb (Qle_bool x 0) = true -> (0 < x)%Q.
Proof.
  intros H. apply negb_true_iff in H. apply Qnot_le_lt. intros L.
  apply Qle_bool_iff in L. congruence.
Qed.

Lemma exact_of_int_nonneg (z : Z) : (0 <= z)%Z -> (0 <= inject_Z z)%Q.
Proof. intros H. change 0%Q with (inject_Z 0). rewrite <- Zle_Qle. exact H. Qed.

Lemma exact_fdiv_nonneg (z : Z) (y : Q) :
  (0 <= z)%Z -> negb (Qle_bool y 0) = true -> (0 <= inject_Z z / y)%Q.
Proof.
  intros Hz Hy. apply Qle_shift_div_l; [apply exact_pos_lt; exact Hy|].
  rewrite Qmult_0_l. apply exact_of_int_nonneg. exact Hz.
Qed.

Lemma exact_fround2_nonneg (x : Q) :
  (0 <= x)%Q -> (0 <= inject_Z (round_half_even (x * 100)) / 100)%Q.
Proof.
  intros Hx. apply Qle_shift_div_l; [reflexivity|]. rewrite Qmult_0_l.
  change 0%Q with (inject_Z 0). rewrite <- Zle_Qle.
  apply Z.le_trans with (Qfloor (x * 100)); [|apply round_half_even_floor].
  change 0%Z with (Qfloor 0). apply Qfloor_resp_le.
  apply Qmult_le_0_compat; [exact Hx | discriminate].
Qed.

Lemma exact_fdiv_zero (z : Z) :
  z <> 0%Z -> Qeq_bool (inject_Z 0 / inject_Z z) 0 = true.
Proof. intros _. apply Qeq_bool_iff. unfold Qdiv. apply Qmult_0_l. Qed.

Lemma exact_fmul_nonneg (x : Q) (z : Z) :
  (0 <= x)%Q -> (0 < z)%Z -> (0 <= x * inject_Z z)%Q.
Proof.
  intros Hx Hz. apply Qmult_le_0_compat; [exact Hx|].
  apply exact_of_int_nonneg. lia.
Qed.

#[export] Instance exact_floats : Floats := {|
  float := Q;
  of_int := inject_Z;
  fdiv := Qdiv;
  fmul := Qmult;
  is_zero := fun x => Qeq_bool x 0;
  is_pos := fun x => negb (Qle_bool x 0);
  fround2 := fun x => (inject_Z (round_half_even (x * 100)) / 100)%Q;
  nonneg := fun x => (0 <= x)%Q;
  of_int_nonneg := exact_of_int_nonneg;
  of_int_zero := exact_of_int_zero;
  pos_not_zero := exact_pos_not_zero;
  fdiv_zero := exact_fdiv_zero;
  fdiv_nonneg := exact_fdiv_nonneg;
  fmul_nonneg := exact_fmul_nonneg;
  fround2_nonneg := exact_fround2_nonneg
|}.

(** ** The specification's example and the speaking speed *)

Lemma fox_split :
  split fox
  = map lit ["the"; "quick"; "brown"; "fox"; "jumps"; "over"; "the"; "lazy";
             "dog"; "dog"; "dog"]%string.
Proof. reflexivity. Qed.

Lemma fox_counted :
  most_common 10 (Counter (map lower (filter counted (split fox))))
  = fox_top_words.
Proof. reflexivity. Qed.

(** C4, as the code has it.  On the example transcript the analysis
    returns [word_count] 11, and its [top_words] is the list that gives
    count 1 to [quick], [brown], [jumps], [over] and [lazy], in this
    order; [dog] has no entry with any count, since its three characters
    fail the filter [len(word) > 3]. *)
Theorem analyze_fox (F : Floats) :
  exists a : analysis,
    analyze_transcript fox = Ok a
    /\ word_count a = 11
    /\ top_words a = fox_top_words
    /\ (forall w, In w (map lit ["quick"; "brown"; "jumps"; "over"; "lazy"]%string)
                  -> In (w, 1) (top_words a))
    /\ forall n, ~ In (lit "dog", n) (top_words a).
Proof.
  eexists. split; [apply analyze_transcript_Ok|].
  cbn [word_count top_words]. rewrite fox_counted, fox_split.
  split; [reflexivity|]. split; [reflexivity|]. split.
  - intros w [<-|[<-|[<-|[<-|[<-|[]]]]]]; simpl; auto 6.
  - intros n H. simpl in H.
    repeat (destruct H as [H|H]; [discriminate H|]). exact H.
Qed.

(** C4, as the specification states it, fails: no result of the analysis
    of the example has [word_count] 11, count 1 for the five words and
    count 3 for [dog]. *)
Lemma analyze_fox_no_dog :
  ~ exists a : analysis,
      @analyze_transcript exact_floats fox = Ok a
      /\ word_count a = 11
      /\ (forall w, In w (map lit ["jumps"; "over"; "quick"; "brown"; "lazy"]%string)
                    -> In (w, 1) (top_words a))
      /\ In (lit "dog", 3) (top_words a).
Proof.
  intros (a & E & _ & _ & H).
  rewrite analyze_transcript_Ok in E. injection E as <-.
  change (In (lit "dog", 3) fox_top_words) in H. simpl in H.
  repeat (destruct H as [H|H]; [discriminate H|]). exact H.
Qed.

(** C2, C3 and C4 on the exact instance of the float interface. *)
Lemma analyze_transcript_counts_witness :
  exists (a : analysis) (ws : list str),
    @analyze_transcript exact_floats fox = Ok a
    /\ tokens fox ws
    /\ (forall ws', tokens fox ws' -> ws' = ws)
    /\ word_count a = length ws
    /\ character_count a = length fox.
Proof. exact (@analyze_transcript_counts exact_floats fox). Defined.

Lemma top_words_filtered_witness :
  exists a : analysis,
    @analyze_transcript exact_floats fox = Ok a
    /\ length (top_words a) <= 10.
Proof.
  destruct (@top_words_filtered exact_floats fox) as (a & E & L & _).
  exists a. split; [exact E | exact L].
Defined.

Lemma analyze_fox_witness :
  exists a : analysis,
    @analyze_transcript exact_floats fox = Ok a
    /\ word_count a = 11
    /\ top_words a = fox_top_words.
Proof.
  destruct (analyze_fox exact_floats) as (a & E & W & T & _).
  exists a. auto.
Defined.

Section SpeakingSpeed.
Context {F : Floats}.

Lemma speed_of_nonneg (text : str) : number_nonneg (round2 (speed_of text)).
Proof.
  unfold speed_of.
  destruct (is_pos (duration_of text)) eqn:G; cbn [round2 number_nonneg]; [|lia].
  apply fround2_nonneg, fmul_nonneg; [|lia].
  apply fdiv_nonneg; [lia | exact G].
Qed.

(** C5.  The analysis returns, so no division by zero was run: the
    division by the estimated duration stands behind [duration > 0];
    its [speaking_speed] is non-negative, and it is the integer 0
    whenever the estimated duration, the character count divided by
    200, is zero, as it is for the empty transcript. *)
Theorem speaking_speed_guarded (text : str) :
  exists a : analysis,
    analyze_transcript text = Ok a
    /\ number_nonneg (speaking_speed a)
    /\ (is_zero (fdiv (of_int (Z.of_nat (character_count a))) (of_int 200)) = true
        -> speaking_speed a = Int 0)
    /\ (text = [] -> speaking_speed a = Int 0).
Proof.
  eexists. split; [apply analyze_transcript_Ok|].
  cbn [speaking_speed character_count].
  split; [apply speed_of_nonneg|].
  assert (Z0 : is_zero (duration_of text) = true -> round2 (speed_of text) = Int 0).
  { intros Hz. unfold speed_of.
    destruct (is_pos (duration_of text)) eqn:G; [|reflexivity].
    rewrite (pos_not_zero _ G) in Hz. discriminate. }
  split; [exact Z0|].
  intros ->. apply Z0. unfold duration_of. simpl.
  apply fdiv_zero. discriminate.
Qed.

End SpeakingSpeed.

(** The division itself is not guarded: with a zero divisor it raises. *)
Example truediv_zero :
  @truediv exact_floats (Int 11) (Float 0%Q) = Raise ZeroDivisionError.
Proof. reflexivity. Qed.

(** C5 on the exact instance, for the empty transcript and for the
    example. *)
Lemma speaking_speed_guarded_witness :
  (exists a : analysis,
     @analyze_transcript exact_floats [] = Ok a
     /\ speaking_speed a = Int 0)
  /\ (exists a : analysis,
        @analyze_transcript exact_floats fox = Ok a
        /\ number_nonneg (speaking_speed a)).
Proof.
  split.
  - destruct (@speaking_speed_guarded exact_floats []) as (a & E & _ & _ & H).
    exists a. split; [exact E | exact (H eq_refl)].
  - destruct (@speaking_speed_guarded exact_floats fox) as (a & E & H & _).
    exists a. split; [exact E | exact H].
Defined.

(** ** [get_video_metadata] *)

Lemma rmatch_group_plus {A : Type} (p : ascii -> bool) (s : str)
  (g : option str) (k : str -> option str -> option A) :
  rmatch (RGroup (RPlus p)) s g k
  = match s with
    | [] => None
    | c :: s' =>
        if p c
        then star p s' (fun s'' => k s'' (Some (firstn (length s - length s'') s)))
        else None
    end.
Proof. destruct s; reflexivity. Qed.

Lemma title_here_None (s : str) :
  match_here title_pattern s = None -> ~ title_at s [].
Proof.
  unfold match_here, title_pattern.
  rewrite rmatch_seq, rmatch_lit.
  intros H (t & q & Hne & Ht & E). cbn [app] in E. subst s.
  rewrite strip_prefix_app, rmatch_seq, rmatch_group_plus in H.
  destruct t as [|c t]; [congruence|].
  cbn [app] in H. cbn [forallb] in Ht.
  apply andb_true_iff in Ht as [Hc Ht]. rewrite Hc in H.
  pose proof (proj1 (star_None _ _ _ _) H t _ eq_refl Ht) as N.
  cbv beta in N. rewrite rmatch_lit, strip_prefix_app in N. discriminate.
Qed.

Lemma title_here_Some (s : str) (m : match_obj) :
  match_here title_pattern s = Some m -> title_at s [].
Proof.
  unfold match_here, title_pattern.
  rewrite rmatch_seq, rmatch_lit.
  destruct (strip_prefix (lit "<title>") s) as [r|] eqn:E; [|discriminate].
  apply strip_prefix_Some in E. subst s.
  rewrite rmatch_seq, rmatch_group_plus.
  destruct r as [|c r]; [discriminate|].
  destruct (not_lt c) eqn:Hc; [|discriminate].
  intros H. apply star_Some in H as (a & b & -> & Ha & H).
  rewrite rmatch_lit in H.
  destruct (strip_prefix (lit "</title>") b) as [q|] eqn:Eb; [|discriminate].
  apply strip_prefix_Some in Eb. subst b.
  exists (c :: a), q. split; [discriminate|]. split.
  - cbn [forallb]. rewrite Hc. exact Ha.
  - reflexivity.
Qed.

(** [search] finds no title exactly when the page holds none. *)
Lemma title_search_None (page : str) :
  search title_pattern page = None <-> forall p, ~ title_at page p.
Proof.
  rewrite search_None. split.
  - intros H p (t & q & Hne & Ht & E).
    apply (title_here_None _ (H p _ E)). exists t, q. auto.
  - intros H p s E.
    destruct (match_here title_pattern s) as [m|] eqn:Em; [|reflexivity].
    exfalso. apply title_here_Some in Em as (t & q & Hne & Ht & Es).
    apply (H p). exists t, q. cbn [app] in Es. subst. auto.
Qed.

Section MetadataFacts.
Variable requests_get : str -> result str.

Lemma get_video_metadata_Ok (id : str) :
  exists md : metadata,
    get_video_metadata requests_get id = Ok md
    /\ video_id md = id /\ url md = watch_url id.
Proof.
  unfold get_video_metadata.
  destruct (requests_get (watch_url id)) as [page|e]; cbn [bind try_except].
  - eexists. split; [reflexivity|]. split; reflexivity.
  - eexists. split; [reflexivity|]. split; reflexivity.
Qed.

(** C9.  For every identifier and every behaviour of the HTTP client,
    [get_video_metadata] returns a record (it never raises) whose
    [video_id] is the input and whose [url] is the watch URL of the
    input; when the request raises, or the page holds no title, the
    record is the placeholder with the title [Unknown Title]. *)
Theorem get_video_metadata_placeholder (id : str) :
  exists md : metadata,
    get_video_metadata requests_get id = Ok md
    /\ video_id md = id
    /\ url md = watch_url id
    /\ ((exists e, requests_get (watch_url id) = Raise e)
        \/ (exists page, requests_get (watch_url id) = Ok page
                         /\ forall p, ~ title_at page p)
        -> md = {| title := unknown_title;
                   video_id := id;
                   url := watch_url id |}).
Proof.
  unfold get_video_metadata.
  destruct (requests_get (watch_url id)) as [page|e] eqn:E;
    cbn [bind try_except].
  - eexists. split; [reflexivity|]. split; [reflexivity|].
    split; [reflexivity|].
    intros [[e He]|(page' & Hp & Hno)]; [discriminate|].
    inversion Hp; subst page'.
    apply title_search_None in Hno. rewrite Hno. reflexivity.
  - eexists. split; [reflexivity|]. split; [reflexivity|].
    split; reflexivity.
Qed.

End MetadataFacts.

(** C9 on two concrete behaviours of the HTTP client: a request that
    raises, and a page without a title. *)
Lemma get_video_metadata_placeholder_witness :
  get_video_metadata (fun _ => Raise (Error (lit "timeout"))) (lit "abc123")
  = Ok {| title := unknown_title;
          video_id := lit "abc123";
          url := lit "https://www.youtube.com/watch?v=abc123" |}
  /\ get_video_metadata (fun _ => Ok (lit "<html><title></title></html>"))
       (lit "abc123")
     = Ok {| title := unknown_title;
             video_id := lit "abc123";
             url := lit "https://www.youtube.com/watch?v=abc123" |}.
Proof.
  split.
  - destruct (get_video_metadata_placeholder
                (fun _ => Raise (Error (lit "timeout"))) (lit "abc123"))
      as (md & E & _ & _ & H).
    rewrite E. f_equal. apply H. left. eexists. reflexivity.
  - destruct (get_video_metadata_placeholder
                (fun _ => Ok (lit "<html><title></title></html>")) (lit "abc123"))
      as (md & E & _ & _ & H).
    rewrite E. f_equal. apply H. right. eexists. split; [reflexivity|].
    apply title_search_None. reflexivity.
Defined.

Example get_video_metadata_title :
  get_video_metadata
    (fun _ => Ok (lit "<head><title>Rocq in 100 seconds - YouTube</title>"))
    (lit "abc123")
  = Ok {| title := lit "Rocq in 100 seconds";
          video_id := lit "abc123";
          url := lit "https://www.youtube.com/watch?v=abc123" |}.
Proof. reflexivity. Qed.

(** ** The calls to the hosted model *)

Section ModelFacts.
Variable generate_content : str -> result str.

(** C8.  For every behaviour of the model and every transcript: the
    keyword and the sentiment operation call the model on their
    instruction followed by the first 1000 characters of the text, and
    nothing else of the text reaches the result; each returns the
    stripped answer when the call returns and its fixed fallback string
    when the call raises, so neither raises; the summary operation calls
    the model on the whole text followed by the instruction and raises
    what the call raises. *)
Theorem model_calls (text : str) :
  (* what the two operations return *)
  extract_keywords generate_content text
  = match generate_content (keywords_template ++ firstn 1000 text) with
    | Ok r => Ok (strip r)
    | Raise _ => Ok (lit "Unable to extract keywords")
    end
  /\ analyze_sentiment generate_content text
     = match generate_content (sentiment_template ++ firstn 1000 text) with
       | Ok r => Ok (strip r)
       | Raise _ => Ok (lit "Unable to analyze sentiment")
       end
  (* they never raise *)
  /\ (exists r, extract_keywords generate_content text = Ok r)
  /\ (exists r, analyze_sentiment generate_content text = Ok r)
  (* only the first 1000 characters matter *)
  /\ (forall text', firstn 1000 text' = firstn 1000 text ->
        extract_keywords generate_content text'
        = extract_keywords generate_content text
        /\ analyze_sentiment generate_content text'
           = analyze_sentiment generate_content text)
  /\ length (firstn 1000 text) <= 1000
  (* the summary has no fallback *)
  /\ (forall prompt,
        generate_gemini_content generate_content text prompt
        = generate_content (text ++ prompt))
  /\ (forall prompt e,
        generate_content (text ++ prompt) = Raise e ->
        generate_gemini_content generate_content text prompt = Raise e).
Proof.
  assert (K : forall t, extract_keywords generate_content t
    = match generate_content (keywords_template ++ firstn 1000 t) with
      | Ok r => Ok (strip r)
      | Raise _ => Ok (lit "Unable to extract keywords")
      end).
  { intros t. unfold extract_keywords.
    destruct (generate_content (keywords_template ++ firstn 1000 t));
      reflexivity. }
  assert (S : forall t, analyze_sentiment generate_content t
    = match generate_content (sentiment_template ++ firstn 1000 t) with
      | Ok r => Ok (strip r)
      | Raise _ => Ok (lit "Unable to analyze sentiment")
      end).
  { intros t. unfold analyze_sentiment.
    destruct (generate_content (sentiment_template ++ firstn 1000 t));
      reflexivity. }
  assert (G : forall prompt,
             generate_gemini_content generate_content text prompt
             = generate_content (text ++ prompt)).
  { intros prompt. unfold generate_gemini_content.
    destruct (generate_content (text ++ prompt)); reflexivity. }
  split; [apply K|]. split; [apply S|].
  split. { rewrite K. destruct (generate_content _); eexists; reflexivity. }
  split. { rewrite S. destruct (generate_content _); eexists; reflexivity. }
  split. { intros text' E. rewrite !K, !S, E. split; reflexivity. }
  split; [apply firstn_le_length|].
  split; [exact G|].
  intros prompt e E. rewrite G. exact E.
Qed.

End ModelFacts.

(** C8 on a model that is down: the two fallbacks, and the failure of
    the summary. *)
Lemma model_calls_witness :
  let down := fun _ : str => Raise (Error (lit "503")) in
  extract_keywords down fox = Ok (lit "Unable to extract keywords")
  /\ analyze_sentiment down fox = Ok (lit "Unable to analyze sentiment")
  /\ generate_gemini_content down fox (prompts detailed)
     = Raise (Error (lit "503")).
Proof.
  intros down.
  destruct (model_calls down fox) as (K & S & _ & _ & _ & _ & _ & G).
  split; [rewrite K; reflexivity|].
  split; [rewrite S; reflexivity|].
  apply G. reflexivity.
Defined.

(** The text behind the first 1000 characters does not reach the
    model. *)
Example extract_keywords_truncates :
  let echo := fun prompt : str => Ok prompt in
  extract_keywords echo (repeat "a"%char 1000 ++ lit "tail")
  = extract_keywords echo (repeat "a"%char 1000).
Proof. vm_compute. reflexivity. Qed.

(** ** [extract_transcript] *)

Lemma capture_nonempty (s : str) (m : match_obj) (g : str) :
  capture s = Some m -> group1 m = Some g -> g <> [].
Proof.
  intros H G. apply capture_Some in H as (c & q & Pc & -> & ->).
  simpl in G. rewrite Pc in G. inversion G. discriminate.
Qed.

Lemma then_capture_nonempty (l s : str) (m : match_obj) (g : str) :
  then_capture l s = Some m -> group1 m = Some g -> g <> [].
Proof.
  unfold then_capture. destruct (strip_prefix l s); [|discriminate].
  apply capture_nonempty.
Qed.

Lemma pattern1_here_nonempty (t : str) (m : match_obj) (g : str) :
  match_here pattern1 t = Some m -> group1 m = Some g -> g <> [].
Proof.
  rewrite pattern1_here. unfold orelse.
  destruct (then_capture shape_watch t) eqn:E1;
    [|destruct (then_capture shape_short t) eqn:E2].
  - intros H; inversion H; subst. eapply then_capture_nonempty; eauto.
  - intros H; inversion H; subst. eapply then_capture_nonempty; eauto.
  - apply then_capture_nonempty.
Qed.

Lemma pattern2_here_nonempty (t : str) (m : match_obj) (g : str) :
  match_here pattern2 t = Some m -> group1 m = Some g -> g <> [].
Proof.
  rewrite pattern2_here.
  destruct (strip_prefix (lit "youtube.com/watch?") t); [|discriminate].
  intros H. apply star_Some in H as (a & b & _ & _ & H).
  eapply then_capture_nonempty; eauto.
Qed.

(** An identifier that was extracted is not empty. *)
Lemma extract_video_id_nonempty (s id : str) :
  extract_video_id s = Some id -> id <> [].
Proof.
  rewrite extract_video_id_unfold.
  destruct (search pattern1 s) as [m|] eqn:E1.
  - apply search_Some in E1 as (p & t & _ & Hm).
    apply (pattern1_here_nonempty _ _ _ Hm).
  - destruct (search pattern2 s) as [m|] eqn:E2; [|discriminate].
    apply search_Some in E2 as (p & t & _ & Hm).
    apply (pattern2_here_nonempty _ _ _ Hm).
Qed.

Lemma truthy_Some (s : str) : truthy (Some s) = true <-> s <> [].
Proof. destruct s; simpl; split; congruence. Qed.

Section TranscriptFacts.
Variable fetch : str -> result (list str).

Lemma extract_transcript_unfold (video_url : str) :
  extract_transcript fetch video_url
  = match extract_video_id video_url with
    | Some id =>
        match fetch id with
        | Ok transcript => Ok (Some (join (lit " ") transcript), Some id)
        | Raise _ => Ok (None, None)
        end
    | None => Ok (None, None)
    end.
Proof.
  unfold extract_transcript.
  destruct (extract_video_id video_url) as [id|] eqn:E; [|reflexivity].
  apply extract_video_id_nonempty, truthy_Some in E. rewrite E.
  cbn [negb]. destruct (fetch id); reflexivity.
Qed.

(** What [extract_transcript] returns, and what the callers' test makes
    of it. *)
Lemma extract_transcript_shape (video_url : str) :
  exists p : option str * option str,
    extract_transcript fetch video_url = Ok p
    /\ (p = (None, None)
        \/ exists text id, p = (Some text, Some id) /\ id <> [])
    /\ (caller_accepts p = true
        <-> exists text id, p = (Some text, Some id) /\ text <> []).
Proof.
  rewrite extract_transcript_unfold.
  destruct (extract_video_id video_url) as [id|] eqn:E.
  - apply extract_video_id_nonempty in E.
    destruct (fetch id) as [transcript|e].
    + eexists. split; [reflexivity|]. split.
      * right. eauto.
      * unfold caller_accepts. cbn [fst snd].
        rewrite (proj2 (truthy_Some id) E), andb_true_r, truthy_Some.
        split.
        -- intros H. eauto.
        -- intros (text & id' & Hp & H). inversion Hp; subst. exact H.
    + exists (None, None). split; [reflexivity|]. split; [left; reflexivity|].
      split; [discriminate | intros (? & ? & Hp & _); discriminate].
  - exists (None, None). split; [reflexivity|]. split; [left; reflexivity|].
    split; [discriminate | intros (? & ? & Hp & _); discriminate].
Qed.

(** C10, as the code has it.  [extract_transcript] returns (it never
    raises), and what it returns is either [(None, None)] or a pair of a
    transcript and a non-empty identifier, never a pair with one [None];
    the callers' test [transcript_text and video_id] accepts exactly the
    pairs whose transcript is present and not empty. *)
Theorem extract_transcript_pair (video_url : str) :
  exists p : option str * option str,
    extract_transcript fetch video_url = Ok p
    /\ (p = (None, None)
        \/ exists text id, p = (Some text, Some id) /\ id <> [])
    /\ (caller_accepts p = true
        <-> exists text id, p = (Some text, Some id) /\ text <> []).
Proof. exact (extract_transcript_shape video_url). Qed.

End TranscriptFacts.

(** C10, as the specification states it, fails: when the service
    returns a transcript without snippets the run is successful, it
    returns the pair of [''] and the identifier, and the callers' test
    rejects it. *)
Lemma extract_transcript_empty_rejected :
  ~ (forall p : option str * option str,
       extract_transcript (fun _ => Ok []) (lit "https://youtu.be/abc123") = Ok p ->
       (caller_accepts p = true <-> successful p)).
Proof.
  intros H.
  specialize (H (Some [], Some (lit "abc123")) eq_refl).
  destruct H as [_ H].
  assert (A : caller_accepts (Some [], Some (lit "abc123")) = true).
  { apply H. exists [], (lit "abc123"). reflexivity. }
  discriminate A.
Qed.

(** C10 on a service that answers every identifier with two snippets,
    and on one that always raises. *)
Lemma extract_transcript_pair_witness :
  (exists p,
     extract_transcript (fun _ => Ok [lit "hello"; lit "world"])
       (lit "https://youtu.be/abc123") = Ok p
     /\ caller_accepts p = true)
  /\ (exists p,
        extract_transcript (fun _ => Raise (Error (lit "no captions")))
          (lit "https://youtu.be/abc123") = Ok p
        /\ caller_accepts p = false).
Proof.
  split.
  - destruct (extract_transcript_pair (fun _ => Ok [lit "hello"; lit "world"])
                (lit "https://youtu.be/abc123")) as (p & E & _ & A).
    exists p. split; [exact E|]. apply A.
    exists (lit "hello world"), (lit "abc123").
    split; [|discriminate].
    assert (E' : Ok p = Ok (Some (lit "hello world"), Some (lit "abc123")))
      by (rewrite <- E; reflexivity).
    inversion E'. reflexivity.
  - destruct (extract_transcript_pair (fun _ => Raise (Error (lit "no captions")))
                (lit "https://youtu.be/abc123")) as (p & E & _ & A).
    exists p. split; [exact E|].
    destruct (caller_accepts p) eqn:C; [|reflexivity].
    destruct (proj1 A eq_refl) as (text & id & Hp & _). subst p.
    discriminate E.
Defined.

(** ** The batch loop *)

Lemma after_run_all (p : ascii -> bool) (s : str) :
  forallb p s = true -> after_run p s = [].
Proof.
  induction s as [|c s IH]; simpl; [reflexivity|].
  intros H. apply andb_true_iff in H as [Hc H]. rewrite Hc. exact (IH H).
Qed.

Lemma strip_blank (s : str) : forallb isspace s = true -> strip s = [].
Proof.
  intros H. unfold strip, lstrip. rewrite (after_run_all _ _ H). reflexivity.
Qed.

Lemma split_on_from_blank (sep : ascii) (s : str) : forall cur piece,
  forallb isspace cur = true -> forallb isspace s = true ->
  In piece (split_on_from sep cur s) -> forallb isspace piece = true.
Proof.
  induction s as [|c s IH]; simpl; intros cur piece Hcur Hs Hin.
  - destruct Hin as [<-|[]]. exact Hcur.
  - apply andb_true_iff in Hs as [Hc Hs].
    destruct (Ascii.eqb c sep).
    + destruct Hin as [<-|Hin]; [exact Hcur|].
      apply (IH [] piece); auto.
    + apply (IH (cur ++ [c]) piece); auto.
      rewrite forallb_app, Hcur. simpl. rewrite Hc. reflexivity.
Qed.

(** A text area of whitespace only leaves no line. *)
Lemma batch_lines_blank (batch_urls : str) :
  forallb isspace batch_urls = true -> batch_lines batch_urls = [].
Proof.
  intros H. unfold batch_lines, split_on.
  assert (P : forall piece, In piece (split_on_from newline [] batch_urls) ->
                            forallb isspace piece = true).
  { intros piece. apply split_on_from_blank; auto. }
  induction (split_on_from newline [] batch_urls) as [|x l IH]; [reflexivity|].
  simpl. rewrite (strip_blank x) by (apply P; left; reflexivity).
  simpl. apply IH. intros piece Hin. apply P. right. exact Hin.
Qed.

Lemma map_filter_comm {A B : Type} (f : A -> B) (p : B -> bool) (l : list A) :
  map f (filter (fun x => p (f x)) l) = filter p (map f l).
Proof.
  induction l as [|x l IH]; simpl; [reflexivity|].
  destruct (p (f x)); simpl; rewrite IH; reflexivity.
Qed.

(** The lines of the batch: the trimmed lines that are not empty, in
    the order of the input. *)
Lemma batch_lines_trimmed (batch_urls : str) :
  batch_lines batch_urls
  = filter (fun line => negb (str_eqb line []))
      (map strip (split_on newline batch_urls)).
Proof.
  unfold batch_lines.
  rewrite (map_filter_comm strip (fun line => truthy (Some line))).
  apply filter_ext. intros [|c line]; reflexivity.
Qed.

Section BatchFacts.
Variable generate_content : str -> result str.
Variable fetch : str -> result (list str).
Variable requests_get : str -> result str.
Variable st : summary_type.

Lemma generate_gemini_content_unfold (text prompt : str) :
  generate_gemini_content generate_content text prompt
  = generate_content (text ++ prompt).
Proof.
  unfold generate_gemini_content.
  destruct (generate_content (text ++ prompt)); reflexivity.
Qed.

Lemma kept_true (url : str) :
  kept fetch url = true
  <-> exists text id,
        extract_transcript fetch url = Ok (Some text, Some id) /\ text <> [].
Proof.
  unfold kept. split.
  - destruct (extract_transcript fetch url) as [[[[|c t]|] [id|]]|e];
      try discriminate.
    intros _. exists (c :: t), id. split; [reflexivity | discriminate].
  - intros (text & id & -> & H). destruct text; [congruence | reflexivity].
Qed.

Lemma kept_false (url : str) :
  kept fetch url = false
  <-> extract_transcript fetch url = Ok (None, None)
      \/ exists id, extract_transcript fetch url = Ok (Some [], Some id).
Proof.
  destruct (extract_transcript_shape fetch url) as (p & E & Hp & _).
  unfold kept. rewrite E.
  destruct Hp as [->|(text & id & -> & _)].
  - split; [left; reflexivity | reflexivity].
  - destruct text as [|c t]; split.
    + intros _. right. exists id. reflexivity.
    + reflexivity.
    + discriminate.
    + intros [H|[id' H]]; discriminate.
Qed.

Lemma batch_loop_returns (urls : list str) : forall acc,
  summaries_return generate_content fetch st urls ->
  exists recs,
    batch_loop generate_content fetch requests_get st urls acc = Ok (acc ++ recs)
    /\ map br_url recs = filter (kept fetch) urls
    /\ Forall (record_of_run generate_content fetch requests_get st) recs.
Proof.
  induction urls as [|url rest IH]; intros acc Hs.
  - exists []. rewrite app_nil_r. repeat split; constructor.
  - assert (Hrest : summaries_return generate_content fetch st rest).
    { intros u t i Hin. apply Hs. right. exact Hin. }
    cbn [batch_loop filter].
    destruct (extract_transcript_shape fetch url) as (p & E & _ & Hacc).
    rewrite E. cbn [bind].
    destruct (caller_accepts p) eqn:C.
    + destruct (proj1 Hacc eq_refl) as (text & id & -> & Hne).
      destruct (get_video_metadata_Ok requests_get id) as (md & Emd & _ & _).
      destruct (Hs url text id (or_introl eq_refl) E Hne) as [s Es].
      rewrite Emd, generate_gemini_content_unfold, Es. cbn [bind].
      destruct (IH (acc ++
                  [{| br_url := url; br_video_id := id; br_title := title md;
                      br_summary := s;
                      br_word_count := length (split text) |}]) Hrest)
        as (recs & Eloop & Hurls & Hrecs).
      eexists (_ :: recs). rewrite Eloop, <- app_assoc.
      split; [reflexivity|].
      rewrite (proj2 (kept_true url)) by eauto.
      split; [simpl; rewrite Hurls; reflexivity|].
      constructor; [|exact Hrecs].
      exists text, md. cbn. auto 7.
    + destruct (IH acc Hrest) as (recs & Eloop & Hurls & Hrecs).
      exists recs. split; [exact Eloop|]. split; [|exact Hrecs].
      destruct (kept fetch url) eqn:K; [|exact Hurls].
      apply kept_true in K as (text & id & E' & Hne).
      rewrite E in E'. inversion E'; subst p.
      assert (X : false = true) by (apply Hacc; eauto). discriminate X.
Qed.

Lemma batch_loop_raises (urls : list str) : forall acc,
  summary_raises generate_content fetch st urls ->
  exists e, batch_loop generate_content fetch requests_get st urls acc = Raise e.
Proof.
  induction urls as [|url rest IH]; intros acc (u & text & id & e & Hin & E & Hne & Eg).
  - destruct Hin.
  - cbn [batch_loop].
    destruct (extract_transcript_shape fetch url) as (p & Ep & _ & Hacc).
    rewrite Ep. cbn [bind].
    assert (Hrest : u <> url -> summary_raises generate_content fetch st rest).
    { intros N. exists u, text, id, e. destruct Hin as [->|Hin]; [congruence|].
      auto. }
    destruct (caller_accepts p) eqn:C.
    + destruct (proj1 Hacc eq_refl) as (text' & id' & -> & Hne').
      destruct (get_video_metadata_Ok requests_get id') as (md & Emd & _ & _).
      rewrite Emd, generate_gemini_content_unfold. cbn [bind].
      destruct (generate_content (text' ++ prompts st)) as [s|e'] eqn:Eg';
        cbn [bind]; [|eauto].
      apply IH, Hrest. intros ->. rewrite E in Ep. inversion Ep; subst.
      congruence.
    + apply IH, Hrest. intros ->. rewrite E in Ep. inversion Ep; subst p.
      assert (X : false = true) by (apply Hacc; eauto). discriminate X.
Qed.

(** C7, as the code has it.  The loop runs over the trimmed lines that
    are not empty, in input order.  When no summary call raises, the
    batch returns a list whose urls are, in input order, exactly the
    lines for which the extraction returned a transcript that is not
    empty, each record holding what was computed for its url; the lines
    left out are those whose extraction failed and those whose
    transcript is empty.  When a summary call raises, the batch raises
    and there is no result list.  An input of whitespace only gives the
    empty list. *)
Theorem process_batch_order (batch_urls : str) :
  batch_lines batch_urls
  = filter (fun line => negb (str_eqb line []))
      (map strip (split_on newline batch_urls))
  /\ (summaries_return generate_content fetch st (batch_lines batch_urls) ->
      exists recs,
        process_batch generate_content fetch requests_get st batch_urls = Ok recs
        /\ map br_url recs = filter (kept fetch) (batch_lines batch_urls)
        /\ Forall (record_of_run generate_content fetch requests_get st) recs)
  /\ (forall url,
        kept fetch url = false
        <-> extract_transcript fetch url = Ok (None, None)
            \/ exists id, extract_transcript fetch url = Ok (Some [], Some id))
  /\ (summary_raises generate_content fetch st (batch_lines batch_urls) ->
      exists e,
        process_batch generate_content fetch requests_get st batch_urls = Raise e)
  /\ (forallb isspace batch_urls = true ->
      process_batch generate_content fetch requests_get st batch_urls = Ok []).
Proof.
  split; [apply batch_lines_trimmed|].
  split; [|split; [apply kept_false | split]].
  - intros Hs. unfold process_batch.
    destruct batch_urls as [|c s] eqn:Eb.
    + exists []. repeat split; constructor.
    + cbn [truthy].
      destruct (batch_lines (c :: s)) as [|u us] eqn:El.
      * exists []. repeat split; constructor.
      * destruct (batch_loop_returns (u :: us) [] Hs) as (recs & E & H1 & H2).
        exists recs. auto.
  - intros Hr. unfold process_batch.
    destruct batch_urls as [|c s] eqn:Eb.
    + destruct Hr as (u & _ & _ & _ & [] & _).
    + cbn [truthy].
      destruct (batch_lines (c :: s)) as [|u us] eqn:El.
      * destruct Hr as (u & _ & _ & _ & [] & _).
      * apply batch_loop_raises. exact Hr.
  - intros Hb. unfold process_batch.
    rewrite (batch_lines_blank _ Hb).
    destruct (truthy (Some batch_urls)); reflexivity.
Qed.

End BatchFacts.

Example process_batch_three_lines :
  process_batch summary_ok one_video page_ok detailed three_lines
  = Ok [{| br_url := lit "https://youtu.be/abc123";
           br_video_id := lit "abc123";
           br_title := lit "A video";
           br_summary := lit "A summary.";
           br_word_count := 3 |}].
Proof. vm_compute. reflexivity. Qed.

(** C7 on that input: the theorem gives the result list and its urls. *)
Lemma process_batch_order_witness :
  exists recs,
    process_batch summary_ok one_video page_ok detailed three_lines = Ok recs
    /\ map br_url recs = [lit "https://youtu.be/abc123"].
Proof.
  destruct (process_batch_order summary_ok one_video page_ok detailed three_lines)
    as (_ & H & _).
  destruct H as (recs & E & Hurls & _).
  - intros url text id _ _ _. eexists. reflexivity.
  - exists recs. split; [exact E|]. rewrite Hurls. vm_compute. reflexivity.
Defined.

(** C7, as the specification states it, fails twice.  A url whose
    transcript has no snippet is left out although its extraction did
    not fail; and when the model is down the summary call raises out of
    the loop, so that there is no result list at all. *)
Lemma process_batch_not_exact :
  let input := lit "https://youtu.be/abc123" in
  ~ (exists recs,
       process_batch summary_ok no_snippets page_ok detailed input = Ok recs
       /\ map br_url recs
          = filter (fun url => negb (extraction_failed no_snippets url))
              (batch_lines input))
  /\ ~ (exists recs,
          process_batch model_down one_video page_ok detailed input = Ok recs).
Proof.
  split.
  - intros (recs & E & H).
    assert (E' : Ok recs = Ok []) by (rewrite <- E; vm_compute; reflexivity).
    inversion E'; subst recs. vm_compute in H. discriminate H.
  - intros (recs & E).
    assert (E' : Ok recs = Raise (Error (lit "503")))
      by (rewrite <- E; vm_compute; reflexivity).
    discriminate E'.
Qed.

(** ** [export_to_json]: bytes, strings and numbers *)

Lemma utf8_char_decode (c : ascii) (r : list byte) :
  utf8_decode (utf8_char c ++ r)
  = match utf8_decode r with
    | Some s => Some (c :: s)
    | None => None
    end.
Proof.
  destruct c as [[] [] [] [] [] [] [] []];
    unfold utf8_char; simpl; destruct (utf8_decode r); reflexivity.
Qed.

Lemma utf8_roundtrip (s : str) : utf8_decode (utf8_encode s) = Some s.
Proof.
  induction s as [|c s IH]; [reflexivity|].
  unfold utf8_encode in *. cbn [flat_map].
  rewrite utf8_char_decode, IH. reflexivity.
Qed.

Lemma encode_char_parse (c : ascii) (t : str) :
  parse_chars (encode_char c ++ t)
  = match parse_chars t with
    | Some (x, rest) => Some (c :: x, rest)
    | None => None
    end.
Proof.
  destruct c as [[] [] [] [] [] [] [] []];
    unfold encode_char; simpl; destruct (parse_chars t) as [[x rest]|];
    reflexivity.
Qed.

Lemma parse_chars_encode (s rest : str) :
  parse_chars (flat_map encode_char s ++ dquote :: rest) = Some (s, rest).
Proof.
  induction s as [|c s IH]; [reflexivity|].
  cbn [flat_map]. rewrite <- app_assoc, encode_char_parse, IH. reflexivity.
Qed.

Lemma encode_string_parse (s rest : str) :
  exists body,
    encode_string s ++ rest = dquote :: body
    /\ parse_chars body = Some (s, rest).
Proof.
  exists (flat_map encode_char s ++ dquote :: rest). split.
  - unfold encode_string. cbn [app]. rewrite <- app_assoc. reflexivity.
  - apply parse_chars_encode.
Qed.

Lemma number_char_false (c : ascii) :
  number_char c = false ->
  is_digit c = false /\ Ascii.eqb c "." = false /\ Ascii.eqb c "e" = false
  /\ Ascii.eqb c "E" = false /\ Ascii.eqb c "+" = false
  /\ Ascii.eqb c "-" = false.
Proof.
  unfold number_char. intros H.
  repeat (apply orb_false_iff in H; destruct H as [H ?]). auto 10.
Qed.

Lemma run_app (p : ascii -> bool) (a b : str) :
  match b with [] => True | c :: _ => p c = false end ->
  run p (a ++ b) = run p a /\ after_run p (a ++ b) = after_run p a ++ b.
Proof.
  intros Hb. induction a as [|c a [IH1 IH2]]; cbn [app run after_run].
  - destruct b as [|c b]; [split; reflexivity|].
    cbn [run after_run]. rewrite Hb. split; reflexivity.
  - destruct (p c); [|split; reflexivity].
    rewrite IH1, IH2. split; reflexivity.
Qed.

Lemma ends_number_digit (rest : str) :
  ends_number rest ->
  match rest with [] => True | c :: _ => is_digit c = false end.
Proof.
  destruct rest as [|c rest]; [trivial|].
  intros H. apply number_char_false in H. tauto.
Qed.

Lemma scan_int_app (s rest i s1 : str) :
  ends_number rest ->
  scan_int s = Some (i, s1) ->
  scan_int (s ++ rest) = Some (i, s1 ++ rest).
Proof.
  intros Hr. pose proof (ends_number_digit rest Hr) as Hd.
  assert (body : forall sign t,
    match t with
    | d :: r =>
        if Ascii.eqb d "0" then Some (sign ++ [d], r)
        else if is_digit d
             then Some (sign ++ d :: run is_digit r, after_run is_digit r)
        else None
    | [] => None
    end = Some (i, s1) ->
    match t ++ rest with
    | d :: r =>
        if Ascii.eqb d "0" then Some (sign ++ [d], r)
        else if is_digit d
             then Some (sign ++ d :: run is_digit r, after_run is_digit r)
        else None
    | [] => None
    end = Some (i, s1 ++ rest)).
  { intros sign [|d r]; [discriminate|]. cbn [app].
    destruct (Ascii.eqb d "0").
    - intros E. inversion E. reflexivity.
    - destruct (is_digit d); [|discriminate].
      destruct (run_app is_digit r rest Hd) as [-> ->].
      intros E. inversion E. reflexivity. }
  unfold scan_int. destruct s as [|c r].
  - cbn [app]. intros E. discriminate E.
  - cbn [app]. destruct (Ascii.eqb c "-").
    + apply body.
    + apply (body [] (c :: r)).
Qed.

Lemma scan_frac_app (s rest f s2 : str) :
  ends_number rest ->
  scan_frac s = (f, s2) ->
  scan_frac (s ++ rest) = (f, s2 ++ rest).
Proof.
  intros Hr. pose proof (ends_number_digit rest Hr) as Hd.
  unfold scan_frac. destruct s as [|p [|d r]]; cbn [app].
  - intros E. inversion E. cbn [app].
    destruct rest as [|c [|d r]]; try reflexivity.
    apply number_char_false in Hr. destruct Hr as (_ & -> & _). reflexivity.
  - intros E. inversion E. cbn [app].
    destruct rest as [|c r]; [reflexivity|].
    simpl in Hd. rewrite Hd, andb_false_r. reflexivity.
  - destruct (Ascii.eqb p "." && is_digit d).
    + destruct (run_app is_digit r rest Hd) as [-> ->].
      intros E. inversion E. reflexivity.
    + intros E. inversion E. reflexivity.
Qed.

Lemma scan_exp_app (s rest e s3 : str) :
  ends_number rest ->
  scan_exp s = (e, s3) ->
  scan_exp (s ++ rest) = (e, s3 ++ rest).
Proof.
  intros Hr. pose proof (ends_number_digit rest Hr) as Hd.
  assert (Hsign : match rest with
                  | [] => True
                  | c :: _ => Ascii.eqb c "+" || Ascii.eqb c "-" = false
                  end).
  { destruct rest as [|c rest]; [trivial|].
    apply number_char_false in Hr. destruct Hr as (_ & _ & _ & _ & -> & ->).
    reflexivity. }
  unfold scan_exp. destruct s as [|x r].
  - cbn [app]. intros E. inversion E. cbn [app].
    destruct rest as [|c rest]; [reflexivity|].
    apply number_char_false in Hr. destruct Hr as (_ & _ & -> & -> & _).
    reflexivity.
  - cbn [app]. destruct (Ascii.eqb x "e" || Ascii.eqb x "E").
    2:{ intros E. inversion E. reflexivity. }
    destruct r as [|c r'].
    + cbn [app]. intros E. inversion E. cbn [app].
      destruct rest as [|c rest]; [reflexivity|].
      rewrite Hsign. simpl in Hd. rewrite Hd. reflexivity.
    + cbn [app]. destruct (Ascii.eqb c "+" || Ascii.eqb c "-").
      * destruct r' as [|d r2]; cbn [app].
        -- intros E. inversion E.
           destruct rest as [|d rest]; [reflexivity|].
           simpl in Hd. rewrite Hd. reflexivity.
        -- destruct (is_digit d).
           ++ destruct (run_app is_digit r2 rest Hd) as [-> ->].
              intros E. inversion E. reflexivity.
           ++ intros E. inversion E. reflexivity.
      * destruct (is_digit c).
        -- destruct (run_app is_digit r' rest Hd) as [-> ->].
           intros E. inversion E. reflexivity.
        -- intros E. inversion E. reflexivity.
Qed.

(** A number scanned to its end is scanned the same way before a
    character that no number holds. *)
Lemma scan_number_app (s rest : str) (t : number_text) :
  ends_number rest ->
  scan_number s = Some (t, []) ->
  scan_number (s ++ rest) = Some (t, rest).
Proof.
  intros Hr. unfold scan_number.
  destruct (scan_int s) as [[i s1]|] eqn:Ei; [|discriminate].
  rewrite (scan_int_app s rest i s1 Hr Ei).
  destruct (scan_frac s1) as [f s2] eqn:Ef.
  rewrite (scan_frac_app s1 rest f s2 Hr Ef).
  destruct (scan_exp s2) as [e s3] eqn:Ee.
  rewrite (scan_exp_app s2 rest e s3 Hr Ee).
  destruct f, e; intros E; inversion E; subst; reflexivity.
Qed.

Lemma uint_str_digits (d : Decimal.uint) : forallb is_digit (uint_str d) = true.
Proof. induction d; simpl; auto. Qed.

Lemma str_uint_uint_str (d : Decimal.uint) : str_uint (uint_str d) = d.
Proof. induction d; simpl; congruence. Qed.

Lemma uint_str_no_sign (d : Decimal.uint) (c : ascii) (s : str) :
  uint_str d = c :: s -> Ascii.eqb c "-" = false.
Proof. destruct d; simpl; intros E; inversion E; reflexivity. Qed.

Lemma to_uint_unorm (p : positive) :
  Decimal.unorm (Pos.to_uint p) = Pos.to_uint p.
Proof.
  rewrite <- DecimalPos.Unsigned.to_of, DecimalPos.Unsigned.of_to.
  reflexivity.
Qed.

(** The digits of a positive number do not start with 0. *)
Lemma to_uint_head (p : positive) :
  exists c s, uint_str (Pos.to_uint p) = c :: s
              /\ Ascii.eqb c "0" = false /\ is_digit c = true.
Proof.
  pose proof (to_uint_unorm p) as U.
  pose proof (Unsigned.to_uint_nonzero p) as NZ.
  pose proof (Unsigned.to_uint_nonnil p) as NN.
  destruct (Pos.to_uint p) as [|u|u|u|u|u|u|u|u|u|u] eqn:E;
    try (eexists; eexists; split; [reflexivity | split; reflexivity]).
  - congruence.
  - exfalso. destruct u as [|u|u|u|u|u|u|u|u|u|u]; [congruence|..].
    all: rewrite unorm_D0 in U.
    all: match type of U with
         | Decimal.unorm ?x = _ =>
             pose proof (nb_digits_unorm x) as L;
             rewrite U in L; simpl in L;
             assert (x <> Decimal.Nil) as N by discriminate;
             specialize (L N); lia
         end.
Qed.

Lemma scan_number_digits (c : ascii) (s : str) :
  Ascii.eqb c "0" = false -> is_digit c = true ->
  forallb is_digit s = true ->
  scan_number (c :: s) = Some (IntText (c :: s), [])
  /\ scan_number ("-"%char :: c :: s) = Some (IntText ("-"%char :: c :: s), []).
Proof.
  intros H0 Hd Hs.
  assert (Hm : Ascii.eqb c "-" = false).
  { destruct (Ascii.eqb_spec c "-"%char) as [->|]; [discriminate Hd | reflexivity]. }
  pose proof (run_app_stop is_digit s [] Hs I) as R.
  rewrite app_nil_r in R.
  assert (A : after_run is_digit s = []) by (apply after_run_all; exact Hs).
  unfold scan_number, scan_int. rewrite Hm, Ascii.eqb_refl, H0, Hd, R, A.
  split; reflexivity.
Qed.

Lemma int_repr_scan (z : Z) :
  scan_number (int_repr z) = Some (IntText (int_repr z), []).
Proof.
  unfold int_repr. destruct z as [|p|p]; [reflexivity| |]; cbn [Z.to_int].
  - destruct (to_uint_head p) as (c & s & E & H0 & Hd).
    pose proof (uint_str_digits (Pos.to_uint p)) as D. rewrite E in *.
    simpl in D. apply andb_true_iff in D as [_ D].
    apply (scan_number_digits c s H0 Hd D).
  - destruct (to_uint_head p) as (c & s & E & H0 & Hd).
    pose proof (uint_str_digits (Pos.to_uint p)) as D. rewrite E in *.
    simpl in D. apply andb_true_iff in D as [_ D].
    apply (scan_number_digits c s H0 Hd D).
Qed.

Lemma int_of_str_repr (z : Z) : int_of_str (int_repr z) = z.
Proof.
  rewrite <- (DecimalZ.of_to z) at 2.
  unfold int_repr, int_of_str.
  destruct (Z.to_int z) as [d|d].
  - destruct (uint_str d) as [|c s] eqn:E.
    + destruct d; try discriminate E. reflexivity.
    + rewrite (uint_str_no_sign d c s E), <- E, str_uint_uint_str. reflexivity.
  - rewrite Ascii.eqb_refl, str_uint_uint_str. reflexivity.
Qed.

Lemma int_repr_head (z : Z) :
  exists c s, int_repr z = c :: s
              /\ (Ascii.eqb c "-" = true \/ is_digit c = true).
Proof.
  unfold int_repr. destruct z as [|p|p]; cbn [Z.to_int].
  - exists "0"%char, []. split; [reflexivity | right; reflexivity].
  - destruct (to_uint_head p) as (c & s & E & _ & Hd).
    exists c, s. auto.
  - eexists. eexists. split; [reflexivity | left; reflexivity].
Qed.

(** ** [export_to_json]: the decoder reads back what the encoder wrote *)

Lemma after_value_ends_number (rest : str) :
  after_value rest -> ends_number rest.
Proof.
  destruct rest as [|c rest]; [trivial|]. intros [->| ->]; reflexivity.
Qed.

Lemma skip_ws_indent (level : nat) (s : str) :
  skip_ws (newline_indent level ++ s) = skip_ws s.
Proof.
  unfold skip_ws, newline_indent. cbn [app after_run].
  change (json_ws newline) with true. cbn iota.
  induction (2 * level) as [|n IH]; [reflexivity|]. exact IH.
Qed.

Lemma skip_ws_start (s : str) : starts_value s -> skip_ws s = s.
Proof.
  destruct s as [|c s]; [intros []|]. intros (H & _).
  unfold skip_ws. cbn [after_run]. rewrite H. reflexivity.
Qed.

Lemma number_start (c : ascii) :
  Ascii.eqb c "-" = true \/ is_digit c = true ->
  json_ws c = false /\ Ascii.eqb c "]" = false /\ Ascii.eqb c "}" = false
  /\ Ascii.eqb c dquote = false /\ Ascii.eqb c "[" = false
  /\ Ascii.eqb c "{" = false /\ Ascii.eqb c "n" = false
  /\ Ascii.eqb c "t" = false /\ Ascii.eqb c "f" = false.
Proof.
  destruct c as [[] [] [] [] [] [] [] []]; intros [H|H];
    try discriminate H; repeat split; reflexivity.
Qed.

Lemma scan_number_head (s : str) (t : number_text) (rest : str) :
  scan_number s = Some (t, rest) ->
  exists c r, s = c :: r /\ (Ascii.eqb c "-" = true \/ is_digit c = true).
Proof.
  unfold scan_number, scan_int.
  destruct s as [|c r]; [discriminate|].
  intros H. exists c, r. split; [reflexivity|].
  destruct (Ascii.eqb c "-") eqn:Em; [left; reflexivity|right].
  destruct (Ascii.eqb_spec c "0"%char) as [->|N]; [reflexivity|].
  destruct (is_digit c); [reflexivity | discriminate H].
Qed.

Lemma join_cons2 (sep x y : str) (l : list str) :
  join sep (x :: y :: l) = x ++ sep ++ join sep (y :: l).
Proof. reflexivity. Qed.

Section JsonFacts.
Variable flt : Type.
Variable float_repr : flt -> str.
Variable float_of_str : str -> option flt.

Abbreviation value := (pyval flt).
Abbreviation enc := (encode float_repr).
Abbreviation ser := (serializable float_repr float_of_str).

Lemma pyval_induction (P : value -> Prop) :
  P PNone ->
  (forall b, P (PBool b)) ->
  (forall z, P (PInt z)) ->
  (forall x, P (PFloat x)) ->
  (forall s, P (PStr s)) ->
  (forall l, Forall P l -> P (PList l)) ->
  (forall l, Forall P l -> P (PTuple l)) ->
  (forall d, Forall (fun kv => P (snd kv)) d -> P (PDict d)) ->
  forall v, P v.
Proof.
  intros HN HB HI HF HS HL HT HD.
  fix IH 1. intros [ | b | z | x | s | l | l | d].
  - exact HN.
  - apply HB.
  - apply HI.
  - apply HF.
  - apply HS.
  - apply HL.
    exact ((fix go (l : list value) : Forall P l :=
              match l with
              | [] => Forall_nil P
              | y :: l' => Forall_cons y (IH y) (go l')
              end) l).
  - apply HT.
    exact ((fix go (l : list value) : Forall P l :=
              match l with
              | [] => Forall_nil P
              | y :: l' => Forall_cons y (IH y) (go l')
              end) l).
  - apply HD.
    exact ((fix go (d : list (str * value))
              : Forall (fun kv => P (snd kv)) d :=
              match d with
              | [] => Forall_nil _
              | kv :: d' => Forall_cons kv (IH (snd kv)) (go d')
              end) d).
Qed.

Lemma serializable_list (l : list value) :
  ser (PList l) <-> Forall ser l.
Proof.
  induction l as [|x l IH]; cbn.
  - split; constructor.
  - split.
    + intros [Hx Hl]. constructor; [exact Hx | apply IH; exact Hl].
    + intros H. inversion H; subst. split; [assumption | apply IH; assumption].
Qed.

Lemma serializable_tuple (l : list value) :
  ser (PTuple l) <-> Forall ser l.
Proof. exact (serializable_list l). Qed.

Lemma serializable_dict (d : list (str * value)) :
  ser (PDict d)
  <-> NoDup (map fst d) /\ Forall (fun kv => ser (snd kv)) d.
Proof.
  cbn. apply and_iff_compat_l.
  induction d as [|kv d IH].
  - split; constructor.
  - split.
    + intros [Hx Hl]. constructor; [exact Hx | apply IH; exact Hl].
    + intros H. inversion H; subst. split; [assumption | apply IH; assumption].
Qed.

Lemma dict_set_fresh (d : list (str * value)) (k : str) (v : value) :
  ~ In k (map fst d) -> dict_set d k v = d ++ [(k, v)].
Proof.
  induction d as [|[k' v'] d IH]; cbn; [reflexivity|].
  intros H. destruct (str_eqb k' k) eqn:E.
  - apply str_eqb_eq in E. tauto.
  - rewrite IH by tauto. reflexivity.
Qed.

Lemma dict_of_pairs_nodup (pairs : list (str * value)) :
  NoDup (map fst pairs) -> dict_of_pairs pairs = pairs.
Proof.
  unfold dict_of_pairs.
  assert (G : forall acc, NoDup (map fst (acc ++ pairs)) ->
    fold_left (fun d kv => dict_set d (fst kv) (snd kv)) pairs acc
    = acc ++ pairs).
  { induction pairs as [|[k v] l IH]; intros acc H; cbn [fold_left].
    - rewrite app_nil_r. reflexivity.
    - cbn [fst snd]. rewrite dict_set_fresh.
      + rewrite IH; rewrite <- app_assoc; [reflexivity | exact H].
      + rewrite map_app in H. cbn in H.
        apply NoDup_remove_2 in H. intros Hin. apply H.
        apply in_or_app. left. exact Hin. }
  intros H. exact (G [] H).
Qed.

Lemma encode_starts (level : nat) (v : value) (rest : str) :
  ser v -> starts_value (enc level v ++ rest).
Proof.
  destruct v as [ | [] | z | x | s | [|y l] | [|y l] | [|kv d]];
    intros H; try (cbn; repeat split; reflexivity).
  - cbn [encode].
    destruct (int_repr_head z) as (c & s & -> & Hc).
    cbn [app starts_value]. pose proof (number_start c Hc). tauto.
  - cbn [encode]. destruct H as [H _].
    destruct (scan_number_head _ _ _ H) as (c & s & -> & Hc).
    cbn [app starts_value]. pose proof (number_start c Hc). tauto.
Qed.


Abbreviation parse := (parse_value float_of_str).
Abbreviation sep level := (","%char :: newline_indent (S level)).

Lemma parse_elements_S (f : nat) (s : str) :
  parse_elements float_of_str (S f) s
  = match parse f s with
    | Some (v, s1) =>
        match skip_ws s1 with
        | c :: s2 =>
            if Ascii.eqb c "," then
              match parse_elements float_of_str f (skip_ws s2) with
              | Some (l, rest) => Some (v :: l, rest)
              | None => None
              end
            else if Ascii.eqb c "]" then Some ([v], s2)
            else None
        | [] => None
        end
    | None => None
    end.
Proof. reflexivity. Qed.

Lemma parse_members_S (f : nat) (q : ascii) (r : str) :
  parse_members float_of_str (S f) (q :: r)
  = if Ascii.eqb q dquote then
      match parse_chars r with
      | Some (k, s1) =>
          match skip_ws s1 with
          | c :: s2 =>
              if Ascii.eqb c ":" then
                match parse f (skip_ws s2) with
                | Some (v, s3) =>
                    match skip_ws s3 with
                    | c' :: s4 =>
                        if Ascii.eqb c' "," then
                          match parse_members float_of_str f (skip_ws s4) with
                          | Some (pairs, rest) => Some ((k, v) :: pairs, rest)
                          | None => None
                          end
                        else if Ascii.eqb c' "}" then Some ([(k, v)], s4)
                        else None
                    | [] => None
                    end
                | None => None
                end
              else None
          | [] => None
          end
      | None => None
      end
    else None.
Proof. reflexivity. Qed.

Lemma skip_ws_cons (c : ascii) (s : str) :
  json_ws c = false -> skip_ws (c :: s) = c :: s.
Proof. intros H. unfold skip_ws. cbn [after_run]. rewrite H. reflexivity. Qed.

Lemma skip_ws_space (s : str) : skip_ws (" "%char :: s) = skip_ws s.
Proof. reflexivity. Qed.

(** The items of a list, read back: the text of the items joined by
    the separator, then the line break and the closing bracket. *)
Lemma parse_elements_encode (level : nat) (rest : str) (l : list value) :
  Forall (fun v => ser v /\
            forall lv fuel r, length (enc lv v) <= fuel -> after_value r ->
              parse fuel (enc lv v ++ r) = Some (listed v, r)) l ->
  l <> [] ->
  forall fuel,
    length (join (sep level) (map (enc (S level)) l)) + 1 <= fuel ->
    parse_elements float_of_str fuel
      (join (sep level) (map (enc (S level)) l)
       ++ newline_indent level ++ "]"%char :: rest)
    = Some (map listed l, rest).
Proof.
  induction 1 as [|x l [Hx IHx] Hl IH]; [congruence|]. intros _ fuel Hf.
  destruct fuel as [|f]; [lia|].
  destruct l as [|y l'].
  - cbn [map join] in *. rewrite parse_elements_S.
    rewrite IHx; [|lia | right; reflexivity].
    rewrite skip_ws_indent, skip_ws_cons by reflexivity. reflexivity.
  - cbn [map] in *. rewrite join_cons2 in Hf |- *. rewrite <- !app_assoc.
    rewrite !length_app in Hf. rewrite parse_elements_S.
    rewrite IHx; [|lia | left; reflexivity].
    cbn [app]. rewrite skip_ws_cons by reflexivity.
    change (Ascii.eqb "," ",") with true. cbn iota.
    rewrite skip_ws_indent.
    assert (St : starts_value
                   (join (sep level) (enc (S level) y :: map (enc (S level)) l')
                    ++ newline_indent level ++ "]"%char :: rest)).
    { inversion Hl as [|? ? [Hy _] _]; subst.
      destruct l'; cbn [map join]; rewrite <- ?app_assoc;
        apply encode_starts; exact Hy. }
    rewrite (skip_ws_start _ St).
    rewrite IH; [reflexivity | discriminate |].
    cbn [length] in Hf. lia.
Qed.

Abbreviation item level :=
  (fun kv : str * value =>
     encode_string (fst kv) ++ lit ": " ++ enc (S level) (snd kv)).

(** The items of a dict, read back. *)
Lemma parse_members_encode (level : nat) (rest : str)
  (d : list (str * value)) :
  Forall (fun kv => ser (snd kv) /\
            forall lv fuel r, length (enc lv (snd kv)) <= fuel ->
              after_value r ->
              parse fuel (enc lv (snd kv) ++ r) = Some (listed (snd kv), r)) d ->
  d <> [] ->
  forall fuel,
    length (join (sep level) (map (item level) d)) + 1 <= fuel ->
    parse_members float_of_str fuel
      (join (sep level) (map (item level) d)
       ++ newline_indent level ++ "}"%char :: rest)
    = Some (map (fun kv => (fst kv, listed (snd kv))) d, rest).
Proof.
  induction 1 as [|[k v] d [Hv IHv] Hd IH]; [congruence|]. intros _ fuel Hf.
  destruct fuel as [|f]; [lia|].
  assert (Key : forall tail,
    after_value tail ->
    length (item level (k, v)) <= f ->
    exists body,
      item level (k, v) ++ tail = dquote :: body
      /\ parse_chars body = Some (k, lit ": " ++ enc (S level) v ++ tail)
      /\ parse f (skip_ws (" "%char :: enc (S level) v ++ tail))
         = Some (listed v, tail)).
  { intros tail Ht Hlen. cbn [fst snd] in *.
    destruct (encode_string_parse k (lit ": " ++ enc (S level) v ++ tail))
      as (body & E & Hp).
    exists body. rewrite <- !app_assoc. split; [exact E|]. split; [exact Hp|].
    rewrite skip_ws_space.
    rewrite skip_ws_start by (apply encode_starts; exact Hv).
    apply IHv; [|exact Ht].
    rewrite !length_app in Hlen. lia. }
  destruct d as [|kv' d'].
  - cbn [map join] in *.
    destruct (Key (newline_indent level ++ "}"%char :: rest)) as (body & E & Hp & Hv');
      [right; reflexivity | lia |].
    rewrite E, parse_members_S, Ascii.eqb_refl, Hp.
    change (lit ": " ++ ?x) with (":"%char :: " "%char :: x).
    rewrite skip_ws_cons by reflexivity.
    change (Ascii.eqb ":" ":") with true. cbn iota. rewrite Hv'.
    rewrite skip_ws_indent, skip_ws_cons by reflexivity. reflexivity.
  - cbn [map] in *. rewrite join_cons2 in Hf |- *.
    rewrite !length_app in Hf.
    set (tail := sep level
                 ++ join (sep level) (item level kv' :: map (item level) d')
                 ++ newline_indent level ++ "}"%char :: rest).
    match goal with
    | |- parse_members _ _ ?s = _ =>
        replace s with
          ((encode_string (fst (k, v)) ++ lit ": "
            ++ enc (S level) (snd (k, v))) ++ tail)
          by (unfold tail; rewrite <- !app_assoc; reflexivity)
    end.
    destruct (Key tail) as (body & E & Hp & Hv');
      [left; reflexivity | rewrite !length_app; cbn [length] in *; lia |].
    unfold tail in *. clear tail.
    rewrite E, parse_members_S, Ascii.eqb_refl, Hp.
    change (lit ": " ++ ?x) with (":"%char :: " "%char :: x).
    rewrite skip_ws_cons by reflexivity.
    change (Ascii.eqb ":" ":") with true. cbn iota. rewrite Hv'.
    cbn [app]. rewrite skip_ws_cons by reflexivity.
    change (Ascii.eqb "," ",") with true. cbn iota.
    rewrite skip_ws_indent.
    assert (St : starts_value
                   (join (sep level) (item level kv' :: map (item level) d')
                    ++ newline_indent level ++ "}"%char :: rest)).
    { destruct d'; cbn [map join]; rewrite <- ?app_assoc;
        cbn; repeat split; reflexivity. }
    rewrite (skip_ws_start _ St).
    rewrite IH; [reflexivity | discriminate |].
    change (length (lit ": ")) with 2 in Hf. cbn [length] in Hf.
    unfold str in *. lia.
Qed.

Lemma parse_value_S (f : nat) (s : str) :
  parse (S f) s
  = match s with
    | [] => None
    | c :: r =>
        if Ascii.eqb c dquote then
          match parse_chars r with
          | Some (t, rest) => Some (PStr t, rest)
          | None => None
          end
        else if Ascii.eqb c "[" then
          match skip_ws r with
          | c1 :: r1 =>
              if Ascii.eqb c1 "]" then Some (PList [], r1)
              else
                match parse_elements float_of_str f (c1 :: r1) with
                | Some (l, rest) => Some (PList l, rest)
                | None => None
                end
          | [] => None
          end
        else if Ascii.eqb c "{" then
          match skip_ws r with
          | c1 :: r1 =>
              if Ascii.eqb c1 "}" then Some (PDict [], r1)
              else
                match parse_members float_of_str f (c1 :: r1) with
                | Some (pairs, rest) => Some (PDict (dict_of_pairs pairs), rest)
                | None => None
                end
          | [] => None
          end
        else if Ascii.eqb c "n" then
          match strip_prefix (lit "null") s with
          | Some rest => Some (PNone, rest)
          | None => None
          end
        else if Ascii.eqb c "t" then
          match strip_prefix (lit "true") s with
          | Some rest => Some (PBool true, rest)
          | None => None
          end
        else if Ascii.eqb c "f" then
          match strip_prefix (lit "false") s with
          | Some rest => Some (PBool false, rest)
          | None => None
          end
        else
          match scan_number s with
          | Some (IntText integer, rest) => Some (PInt (int_of_str integer), rest)
          | Some (FloatText text, rest) =>
              match float_of_str text with
              | Some x => Some (PFloat x, rest)
              | None => None
              end
          | None => None
          end
    end.
Proof. reflexivity. Qed.

(** A number at the head of the text. *)
Lemma parse_number (f : nat) (s r : str) (t : number_text) :
  scan_number s = Some (t, []) -> after_value r ->
  parse (S f) (s ++ r)
  = match t with
    | IntText integer => Some (PInt (int_of_str integer), r)
    | FloatText text =>
        match float_of_str text with
        | Some x => Some (PFloat x, r)
        | None => None
        end
    end.
Proof.
  intros Hs Hr.
  destruct (scan_number_head _ _ _ Hs) as (c & s' & -> & Hc).
  pose proof (scan_number_app _ r t (after_value_ends_number r Hr) Hs) as E.
  rewrite parse_value_S. cbn [app] in *.
  destruct (number_start c Hc) as (_ & _ & _ & -> & -> & -> & -> & -> & ->).
  rewrite E. destruct t; reflexivity.
Qed.

(** The brackets of a list or a tuple around its items. *)
Lemma parse_list (lv f : nat) (r : str) (l : list value) :
  Forall (fun v => ser v /\
            forall lv fuel r, length (enc lv v) <= fuel -> after_value r ->
              parse fuel (enc lv v ++ r) = Some (listed v, r)) l ->
  length (enc lv (PList l)) <= S f ->
  parse (S f) (enc lv (PList l) ++ r) = Some (PList (map listed l), r).
Proof.
  intros Hl Hf. destruct l as [|x l]; [reflexivity|].
  cbn [encode] in *. set (items := map (enc (S lv)) (x :: l)) in *.
  cbn [app]. rewrite <- !app_assoc. cbn [app].
  rewrite parse_value_S.
  change (Ascii.eqb "[" dquote) with false.
  change (Ascii.eqb "[" "[") with true. cbn iota.
  rewrite skip_ws_indent.
  assert (St : starts_value (join (sep lv) items
                             ++ newline_indent lv ++ "]"%char :: r)).
  { unfold items. inversion Hl as [|? ? [Hx _] _]; subst.
    destruct l; cbn [map join]; rewrite <- ?app_assoc;
      apply encode_starts; exact Hx. }
  rewrite (skip_ws_start _ St).
  destruct (join (sep lv) items ++ newline_indent lv ++ "]"%char :: r)
    as [|c1 r1] eqn:Ej; [destruct St|].
  destruct St as (_ & -> & _). rewrite <- Ej.
  unfold items. rewrite parse_elements_encode; [reflexivity | exact Hl | discriminate |].
  fold items. cbn [length] in Hf. rewrite !length_app in Hf.
  cbn [length] in Hf. unfold str in *. lia.
Qed.

(** The braces of a dict around its items. *)
Lemma parse_dict (lv f : nat) (r : str) (d : list (str * value)) :
  Forall (fun kv => ser (snd kv) /\
            forall lv fuel r, length (enc lv (snd kv)) <= fuel ->
              after_value r ->
              parse fuel (enc lv (snd kv) ++ r) = Some (listed (snd kv), r)) d ->
  NoDup (map fst d) ->
  length (enc lv (PDict d)) <= S f ->
  parse (S f) (enc lv (PDict d) ++ r) = Some (listed (PDict d), r).
Proof.
  intros Hd Hk Hf. destruct d as [|kv d]; [reflexivity|].
  cbn [encode listed] in *. set (items := map (item lv) (kv :: d)) in *.
  cbn [app]. rewrite <- !app_assoc. cbn [app].
  rewrite parse_value_S.
  change (Ascii.eqb "{" dquote) with false.
  change (Ascii.eqb "{" "[") with false.
  change (Ascii.eqb "{" "{") with true. cbn iota.
  rewrite skip_ws_indent.
  assert (St : starts_value (join (sep lv) items
                             ++ newline_indent lv ++ "}"%char :: r)).
  { unfold items. destruct d; cbn [map join]; rewrite <- ?app_assoc;
      cbn; repeat split; reflexivity. }
  rewrite (skip_ws_start _ St).
  destruct (join (sep lv) items ++ newline_indent lv ++ "}"%char :: r)
    as [|c1 r1] eqn:Ej; [destruct St|].
  destruct St as (_ & _ & ->). rewrite <- Ej.
  unfold items. rewrite parse_members_encode; [| exact Hd | discriminate |].
  - rewrite dict_of_pairs_nodup; [reflexivity|].
    rewrite map_map. cbn [fst]. exact Hk.
  - fold items. cbn [length] in Hf. rewrite !length_app in Hf.
    cbn [length] in Hf. unfold str in *. lia.
Qed.

(** The decoder reads an encoded value back, tuples as lists. *)
Lemma parse_encode (v : value) :
  ser v ->
  forall lv fuel r,
    length (enc lv v) <= fuel -> after_value r ->
    parse fuel (enc lv v ++ r) = Some (listed v, r).
Proof.
  induction v as [ | b | z | x | s | l IHl | l IHl | d IHd]
    using pyval_induction; intros Hs lv fuel r Hf Hr.
  - destruct fuel as [|f]; [cbn in Hf; lia | reflexivity].
  - destruct fuel as [|f]; [destruct b; cbn in Hf; lia | destruct b; reflexivity].
  - cbn [encode listed] in *.
    destruct (int_repr_head z) as (c & s & E & _).
    destruct fuel as [|f]; [rewrite E in Hf; cbn in Hf; lia|].
    rewrite (parse_number f _ r _ (int_repr_scan z) Hr), int_of_str_repr.
    reflexivity.
  - cbn [encode listed] in *. destruct Hs as [Hscan Hback].
    destruct (scan_number_head _ _ _ Hscan) as (c & s & E & _).
    destruct fuel as [|f]; [rewrite E in Hf; cbn in Hf; lia|].
    rewrite (parse_number f _ r _ Hscan Hr), Hback. reflexivity.
  - destruct fuel as [|f]; [cbn in Hf; lia|].
    cbn [encode listed].
    destruct (encode_string_parse s r) as (body & E & Hp).
    rewrite E, parse_value_S, Ascii.eqb_refl, Hp. reflexivity.
  - apply serializable_list in Hs.
    destruct fuel as [|f]; [destruct l; cbn in Hf; lia|].
    apply parse_list; [|exact Hf].
    clear Hf. induction IHl as [|y l Hy _ IH]; constructor.
    + inversion Hs; subst. split; [assumption | apply Hy; assumption].
    + apply IH. inversion Hs; assumption.
  - apply serializable_tuple in Hs.
    destruct fuel as [|f]; [destruct l; cbn in Hf; lia|].
    apply (parse_list lv f r l); [|exact Hf].
    clear Hf. induction IHl as [|y l Hy _ IH]; constructor.
    + inversion Hs; subst. split; [assumption | apply Hy; assumption].
    + apply IH. inversion Hs; assumption.
  - apply serializable_dict in Hs. destruct Hs as [Hk Hs].
    destruct fuel as [|f]; [destruct d; cbn in Hf; lia|].
    apply parse_dict; [|exact Hk|exact Hf].
    clear Hf Hk. induction IHd as [|kv d Hy _ IH]; constructor.
    + inversion Hs; subst. split; [assumption | apply Hy; assumption].
    + apply IH. inversion Hs; assumption.
Qed.

Lemma loads_dumps (data : value) :
  ser data -> loads float_of_str (dumps float_repr data) = Some (listed data).
Proof.
  intros Hs. unfold loads, dumps.
  pose proof (encode_starts 0 data [] Hs) as St. rewrite app_nil_r in St.
  rewrite (skip_ws_start _ St).
  rewrite <- (app_nil_r (enc 0 data)) at 2.
  rewrite (parse_encode data Hs 0 _ []); [reflexivity | lia | exact I].
Qed.

Lemma map_fixed {A : Type} (f : A -> A) (l : list A) :
  map f l = l -> forall x, In x l -> f x = x.
Proof.
  induction l as [|y l IH]; cbn; intros E x Hin; [destruct Hin|].
  injection E as Ey El.
  destruct Hin as [<-|Hin]; [exact Ey | exact (IH El x Hin)].
Qed.

(** A value without tuples is read back as it was; a value that holds a
    tuple is not. *)
Lemma listed_exact (v : value) :
  (has_tuple v = false -> listed v = v)
  /\ (has_tuple v = true -> listed v <> v).
Proof.
  induction v as [ | b | z | x | s | l IHl | l IHl | d IHd]
    using pyval_induction; cbn [has_tuple listed];
    try (split; [reflexivity | discriminate]).
  - split.
    + intros H. f_equal. induction IHl as [|y l [Hy _] _ IH]; [reflexivity|].
      cbn in H. apply orb_false_iff in H as [H1 H2].
      cbn [map]. rewrite (Hy H1), (IH H2). reflexivity.
    + intros H E. inversion E as [El]. apply existsb_exists in H as (y & Hin & Hy).
      rewrite Forall_forall in IHl.
      apply (proj2 (IHl y Hin) Hy). exact (map_fixed listed l El y Hin).
  - split; [discriminate | intros _ E; discriminate E].
  - split.
    + intros H. f_equal. induction IHd as [|[k y] d [Hy _] _ IH]; [reflexivity|].
      cbn in H. apply orb_false_iff in H as [H1 H2].
      cbn [map fst snd] in *. rewrite (Hy H1), (IH H2). reflexivity.
    + intros H E. inversion E as [Ed].
      apply existsb_exists in H as ([k y] & Hin & Hy). cbn [snd] in Hy.
      rewrite Forall_forall in IHd.
      apply (proj2 (IHd (k, y) Hin) Hy).
      pose proof (map_fixed (fun kv => (fst kv, listed (snd kv))) d Ed (k, y) Hin)
        as F.
      cbn [fst snd] in F |- *. congruence.
Qed.

(** C6, as the code has it.  For every value whose dicts have distinct
    keys and whose floats are carried by their text, decoding the buffer
    of [export_to_json] and reading it as JSON gives the value with each
    tuple turned into a list: the value itself when it holds no tuple
    (the batch results), another value when it holds one (the record of
    [analyze_transcript], by its [top_words]). *)
Theorem export_to_json_roundtrip (data : value) (filename : str) :
  ser data ->
  loads_bytes float_of_str (getvalue (export_to_json float_repr data filename))
  = Some (listed data)
  /\ (has_tuple data = false -> listed data = data)
  /\ (has_tuple data = true -> listed data <> data).
Proof.
  intros Hs. split; [|apply listed_exact].
  unfold loads_bytes, export_to_json. cbn [getvalue].
  rewrite utf8_roundtrip. apply loads_dumps. exact Hs.
Qed.

End JsonFacts.

(** The record of the example transcript, with the exact floats. *)
Definition fox_analysis : pyval Q :=
  match @analyze_transcript exact_floats fox with
  | Ok a => @analysis_py exact_floats a
  | Raise _ => PNone
  end.

Example fox_analysis_json :
  dumps decimal_repr
    (PDict [(lit "speaking_speed", PFloat (Qmake 258824 100));
            (lit "top_words", PList [PTuple [PStr (lit "quick"); PInt 1]]);
            (lit "empty", PList [])])
  = lit "{" ++ [newline]
    ++ lit "  " ++ [dquote] ++ lit "speaking_speed" ++ [dquote]
    ++ lit ": 2588.24," ++ [newline]
    ++ lit "  " ++ [dquote] ++ lit "top_words" ++ [dquote] ++ lit ": ["
    ++ [newline]
    ++ lit "    [" ++ [newline]
    ++ lit "      " ++ [dquote] ++ lit "quick" ++ [dquote] ++ lit ","
    ++ [newline]
    ++ lit "      1" ++ [newline]
    ++ lit "    ]" ++ [newline]
    ++ lit "  ]," ++ [newline]
    ++ lit "  " ++ [dquote] ++ lit "empty" ++ [dquote] ++ lit ": []"
    ++ [newline]
    ++ lit "}".
Proof. vm_compute. reflexivity. Qed.

(** C6, as the specification states it, fails on the record of
    [analyze_transcript]: the buffer is read back with the pairs of
    [top_words] as lists, which is not the record that was exported. *)
Lemma export_analysis_not_exact :
  loads_bytes decimal_of_str
    (getvalue (export_to_json decimal_repr fox_analysis (lit "analysis.json")))
  <> Some fox_analysis.
Proof. intros H. vm_compute in H. discriminate H. Qed.

(** C6 on the two records the program exports: the batch results of the
    three-line example come back as they were, the record of the example
    transcript comes back with lists for tuples. *)
Lemma export_to_json_roundtrip_witness :
  let batch : pyval Q :=
    PList [batch_result_py
             {| br_url := lit "https://youtu.be/abc123";
                br_video_id := lit "abc123";
                br_title := lit "A video";
                br_summary := lit "A summary.";
                br_word_count := 3 |}] in
  loads_bytes decimal_of_str
    (getvalue (export_to_json decimal_repr batch (lit "batch_results.json")))
  = Some batch
  /\ loads_bytes decimal_of_str
       (getvalue (export_to_json decimal_repr fox_analysis (lit "analysis.json")))
     = Some (listed fox_analysis).
Proof.
  intros batch. split.
  - destruct (export_to_json_roundtrip Q decimal_repr decimal_of_str batch
                (lit "batch_results.json")) as (E & Hno & _).
    + cbn. split; [|tauto].
      repeat constructor; cbn; intuition discriminate.
    + rewrite E, (Hno eq_refl). reflexivity.
  - apply (export_to_json_roundtrip Q decimal_repr decimal_of_str fox_analysis
             (lit "analysis.json")).
    vm_compute. split; [|tauto].
    repeat constructor; cbn; intuition discriminate.
Defined.

(* ================================================================== *)
(** * Properties beyond the specification *)

(** A property of characters that holds for the 256 of them. *)
Lemma ascii_all (P : ascii -> bool) :
  forallb (fun n => P (ascii_of_nat n)) (seq 0 256) = true ->
  forall c, P c = true.
Proof.
  intros H c. rewrite forallb_forall in H.
  rewrite <- (ascii_nat_embedding c). apply H, in_seq.
  pose proof (nat_ascii_bounded c). lia.
Qed.

(** ** The counter and [most_common] *)

Lemma count_of_incr_same (w : str) (c : counter) :
  count_of w (incr w c) = S (count_of w c).
Proof.
  induction c as [|[k n] c IH]; simpl.
  - rewrite str_eqb_refl. reflexivity.
  - destruct (str_eqb k w) eqn:E; simpl; rewrite E; [reflexivity | exact IH].
Qed.

Lemma count_of_incr_other (w v : str) (c : counter) :
  v <> w -> count_of w (incr v c) = count_of w c.
Proof.
  intros N. induction c as [|[k n] c IH]; simpl.
  - destruct (str_eqb v w) eqn:E; [apply str_eqb_eq in E; congruence | reflexivity].
  - destruct (str_eqb k v) eqn:Ekv; simpl.
    + apply str_eqb_eq in Ekv. subst k.
      destruct (str_eqb v w) eqn:E; [apply str_eqb_eq in E; congruence | reflexivity].
    + destruct (str_eqb k w); [reflexivity | exact IH].
Qed.

Lemma incr_keys (v : str) (c : counter) :
  map fst (incr v c) = map fst c \/
  (~ In v (map fst c) /\ map fst (incr v c) = map fst c ++ [v]).
Proof.
  induction c as [|[k n] c IH]; simpl.
  - right. split; [tauto | reflexivity].
  - destruct (str_eqb k v) eqn:E; simpl.
    + left. reflexivity.
    + apply str_eqb_neq in E.
      destruct IH as [->|[Hn ->]]; [left; reflexivity|].
      right. split; [intros [H|H]; tauto | reflexivity].
Qed.

Lemma incr_NoDup (v : str) (c : counter) :
  NoDup (map fst c) -> NoDup (map fst (incr v c)).
Proof.
  intros H. destruct (incr_keys v c) as [->|[Hn ->]]; [exact H|].
  apply NoDup_app; [exact H | repeat constructor; intros [] | ].
  intros x Hx [<-|[]]. exact (Hn Hx).
Qed.

Lemma incr_positive (v : str) (c : counter) :
  Forall (fun kn => 1 <= snd kn) c ->
  Forall (fun kn => 1 <= snd kn) (incr v c).
Proof.
  induction 1 as [|[k n] c Hk Hc IH]; simpl.
  - repeat constructor.
  - destruct (str_eqb k v); constructor; simpl in *; auto; lia.
Qed.

Lemma incr_total (v : str) (c : counter) : total (incr v c) = S (total c).
Proof.
  unfold total. induction c as [|[k n] c IH]; simpl; [reflexivity|].
  destruct (str_eqb k v); simpl; [reflexivity | rewrite IH; lia].
Qed.

Lemma count_of_In (w : str) (n : nat) (c : counter) :
  NoDup (map fst c) -> In (w, n) c -> count_of w c = n.
Proof.
  induction c as [|[k m] c IH]; simpl; [tauto|].
  intros H Hin. inversion H as [|? ? Hk Hc]; subst.
  destruct Hin as [E|Hin].
  - inversion E; subst. rewrite str_eqb_refl. reflexivity.
  - destruct (str_eqb k w) eqn:E; [|exact (IH Hc Hin)].
    apply str_eqb_eq in E. subst k. exfalso. apply Hk.
    apply (in_map fst) in Hin. exact Hin.
Qed.

Lemma count_of_positive_In (w : str) (c : counter) :
  1 <= count_of w c -> In (w, count_of w c) c.
Proof.
  induction c as [|[k m] c IH]; simpl; [lia|].
  destruct (str_eqb k w) eqn:E.
  - apply str_eqb_eq in E. subst k. left. reflexivity.
  - intros H. right. exact (IH H).
Qed.

Lemma occurrences_cons (w v : str) (ws : list str) :
  occurrences w (v :: ws)
  = if str_eqb v w then S (occurrences w ws) else occurrences w ws.
Proof.
  unfold occurrences, str_eqb. simpl.
  destruct (list_eq_dec ascii_dec v w); reflexivity.
Qed.

(** The counter of a list, started from [c]. *)
Lemma fold_incr_facts (ws : list str) : forall c : counter,
  NoDup (map fst c) ->
  Forall (fun kn => 1 <= snd kn) c ->
  let c' := fold_left (fun c w => incr w c) ws c in
  NoDup (map fst c')
  /\ Forall (fun kn => 1 <= snd kn) c'
  /\ total c' = length ws + total c
  /\ forall w, count_of w c' = occurrences w ws + count_of w c.
Proof.
  induction ws as [|v ws IH]; intros c Hk Hp; cbn [fold_left].
  - repeat split; auto.
  - destruct (IH (incr v c) (incr_NoDup v c Hk) (incr_positive v c Hp))
      as (H1 & H2 & H3 & H4).
    repeat split; auto.
    + rewrite H3, incr_total. simpl. lia.
    + intros w. rewrite H4, occurrences_cons.
      destruct (str_eqb v w) eqn:E.
      * apply str_eqb_eq in E. subst v. rewrite count_of_incr_same. lia.
      * apply str_eqb_neq in E. rewrite count_of_incr_other by exact E.
        reflexivity.
Qed.

(** [Counter ws] holds each element of [ws] once, with the number of
    times it stands in [ws]. *)
Lemma Counter_exact (ws : list str) :
  NoDup (map fst (Counter ws))
  /\ total (Counter ws) = length ws
  /\ (forall w n, In (w, n) (Counter ws) <-> n = occurrences w ws /\ 1 <= n).
Proof.
  destruct (fold_incr_facts ws [] (NoDup_nil _) (Forall_nil _))
    as (H1 & H2 & H3 & H4).
  fold (Counter ws) in *. cbn in H3, H4.
  split; [exact H1|]. split; [lia|].
  intros w n. split.
  - intros Hin. rewrite Forall_forall in H2.
    pose proof (H2 _ Hin) as P. simpl in P.
    rewrite <- (count_of_In w n _ H1 Hin), H4. split; [lia | ].
    rewrite <- H4, (count_of_In w n _ H1 Hin). exact P.
  - intros [-> P]. specialize (H4 w). rewrite Nat.add_0_r in H4.
    rewrite <- H4 in *. apply count_of_positive_In. exact P.
Qed.

Lemma insert_desc_perm (x : str * nat) (l : counter) :
  Permutation (insert_desc x l) (x :: l).
Proof.
  induction l as [|y l IH]; simpl; [reflexivity|].
  destruct (snd x <? snd y); [|reflexivity].
  rewrite IH. apply perm_swap.
Qed.

Lemma sorted_desc_perm (l : counter) : Permutation (sorted_desc l) l.
Proof.
  induction l as [|x l IH]; simpl; [reflexivity|].
  rewrite insert_desc_perm, IH. reflexivity.
Qed.

Lemma insert_desc_descending (x : str * nat) (l : counter) :
  descending l -> descending (insert_desc x l).
Proof.
  unfold descending. induction 1 as [|y l Hl IH Hy]; simpl.
  - repeat constructor.
  - destruct (snd x <? snd y) eqn:E.
    + apply Nat.ltb_lt in E. constructor; [exact IH|].
      rewrite Forall_forall in *. intros z Hz.
      apply insert_desc_In in Hz. destruct Hz as [->|Hz]; [lia | auto].
    + apply Nat.ltb_ge in E. constructor; [constructor; assumption|].
      constructor; [exact E|].
      rewrite Forall_forall in *. intros z Hz.
      specialize (Hy z Hz). lia.
Qed.

Lemma sorted_desc_descending (l : counter) : descending (sorted_desc l).
Proof.
  induction l as [|x l IH]; simpl; [constructor|].
  apply insert_desc_descending, IH.
Qed.

Lemma descending_app (l1 l2 : counter) :
  descending (l1 ++ l2) ->
  descending l1 /\
  forall x y, In x l1 -> In y l2 -> snd y <= snd x.
Proof.
  unfold descending. induction l1 as [|a l1 IH]; simpl; intros H.
  - split; [constructor | intros x y []].
  - inversion H as [|? ? Hl Ha]; subst.
    destruct (IH Hl) as [S1 S2]. rewrite Forall_forall in Ha.
    split.
    + constructor; [exact S1|]. rewrite Forall_forall.
      intros z Hz. apply Ha, in_or_app. left. exact Hz.
    + intros x y [<-|Hx] Hy; [apply Ha, in_or_app; right; exact Hy|].
      exact (S2 x y Hx Hy).
Qed.

Lemma most_common_descending (n : nat) (c : counter) :
  descending (most_common n c).
Proof.
  unfold most_common.
  pose proof (sorted_desc_descending c) as H.
  rewrite <- (firstn_skipn n (sorted_desc c)) in H.
  exact (proj1 (descending_app _ _ H)).
Qed.

(** What [most_common n] leaves out is counted no more often than what
    it keeps, and it leaves something out only when it keeps [n]. *)
Lemma most_common_largest (n : nat) (c : counter) (x : str * nat) :
  In x c ->
  In x (most_common n c) \/
  (length (most_common n c) = n /\
   forall y, In y (most_common n c) -> snd x <= snd y).
Proof.
  unfold most_common. intros Hx.
  apply sorted_desc_In in Hx.
  pose proof (sorted_desc_descending c) as H.
  rewrite <- (firstn_skipn n (sorted_desc c)) in Hx, H.
  apply in_app_or in Hx. destruct Hx as [Hx|Hx]; [left; exact Hx|].
  right. split.
  - apply firstn_length_le.
    destruct (Nat.le_gt_cases n (length (sorted_desc c))) as [L|L]; [exact L|].
    rewrite skipn_all2 in Hx by lia. destruct Hx.
  - intros y Hy. exact (proj2 (descending_app _ _ H) y x Hy Hx).
Qed.

Lemma most_common_NoDup (n : nat) (c : counter) :
  NoDup (map fst c) -> NoDup (map fst (most_common n c)).
Proof.
  unfold most_common. intros H.
  assert (S : NoDup (map fst (sorted_desc c))).
  { apply (Permutation_NoDup (l := map fst c)); [|exact H].
    apply Permutation_map. symmetry. apply sorted_desc_perm. }
  rewrite <- (firstn_skipn n (sorted_desc c)), map_app in S.
  exact (NoDup_app_remove_r _ _ S).
Qed.

Lemma most_common_total (n : nat) (c : counter) :
  total (most_common n c) <= total c.
Proof.
  unfold most_common, total.
  rewrite <- (Permutation_list_sum
                (Permutation_map snd (sorted_desc_perm c))).
  rewrite <- (firstn_skipn n (sorted_desc c)) at 2.
  rewrite map_app, list_sum_app. lia.
Qed.

Lemma most_common_all (n : nat) (c : counter) :
  length c <= n -> Permutation (most_common n c) c.
Proof.
  unfold most_common. intros H.
  rewrite firstn_all2; [apply sorted_desc_perm|].
  rewrite (Permutation_length (sorted_desc_perm c)). exact H.
Qed.

Lemma tokens_length (s : str) (ws : list str) :
  tokens s ws ->
  2 * length ws <= length s + 1 /\
  (match s with [] => True | c :: _ => isspace c = true end ->
   2 * length ws <= length s).
Proof.
  induction 1 as [sp Hsp | sp w rest ws Hsp Hw Hn Hrest Ht [IH1 IH2]].
  - simpl. split; lia.
  - specialize (IH2 Hrest).
    rewrite !length_app. cbn [length].
    assert (Lw : 1 <= length w) by (destruct w; [congruence | simpl; lia]).
    split; [lia|].
    intros Hs. destruct sp as [|c sp]; [|simpl; lia].
    destruct w as [|c w]; [congruence|].
    simpl in Hs, Hn. rewrite Hs in Hn. discriminate Hn.
Qed.

Lemma split_blank (s : str) : split s = [] <-> forallb isspace s = true.
Proof.
  split.
  - intros E. pose proof (split_tokens s) as T. rewrite E in T.
    inversion T. assumption.
  - intros H. apply tokens_split. constructor. exact H.
Qed.

Lemma Counter_length (ws : list str) : length (Counter ws) <= length ws.
Proof.
  destruct (fold_incr_facts ws [] (NoDup_nil _) (Forall_nil _))
    as (_ & H2 & H3 & _).
  fold (Counter ws) in *. cbn in H3. rewrite Nat.add_0_r in H3.
  rewrite <- H3. unfold total. clear H3.
  induction H2 as [|[k n] c Hk Hc IH]; simpl in *; lia.
Qed.

(** A stable sort: the entries of one count keep their order. *)
Lemma insert_desc_stable (n : nat) (x : str * nat) (l : counter) :
  filter (fun e => snd e =? n) (insert_desc x l)
  = filter (fun e => snd e =? n) (x :: l).
Proof.
  induction l as [|y l IH]; [reflexivity|].
  cbn [insert_desc]. destruct (snd x <? snd y) eqn:E; [|reflexivity].
  apply Nat.ltb_lt in E. cbn [filter] in *. rewrite IH.
  destruct (snd x =? n) eqn:Ex, (snd y =? n) eqn:Ey; try reflexivity.
  apply Nat.eqb_eq in Ex, Ey. lia.
Qed.

Lemma sorted_desc_stable (n : nat) (l : counter) :
  filter (fun e => snd e =? n) (sorted_desc l)
  = filter (fun e => snd e =? n) l.
Proof.
  induction l as [|x l IH]; [reflexivity|].
  cbn [sorted_desc]. rewrite insert_desc_stable. cbn [filter].
  rewrite IH. reflexivity.
Qed.

Lemma filter_firstn {A : Type} (p : A -> bool) (l : list A) : forall m,
  exists k, filter p (firstn m l) = firstn k (filter p l).
Proof.
  induction l as [|x l IH]; intros m.
  - exists 0. rewrite firstn_nil. reflexivity.
  - destruct m as [|m]; [exists 0; reflexivity|].
    destruct (IH m) as [k Hk]. cbn [firstn filter].
    destruct (p x); [exists (S k); cbn [firstn]; rewrite Hk | exists k];
      auto.
Qed.

Lemma incr_key_In (x : str) (c : counter) : In x (map fst (incr x c)).
Proof.
  induction c as [|[k n] c IH]; simpl; [auto|].
  destruct (str_eqb k x) eqn:Ek; simpl; [|auto].
  apply str_eqb_eq in Ek. auto.
Qed.

Lemma Counter_fold_right (ws : list str) :
  Counter ws = fold_right incr [] (rev ws).
Proof.
  exact (eq_sym (fold_left_rev_right incr ws [])).
Qed.

Lemma Counter_keys (ws : list str) : map fst (Counter ws) = first_seen ws.
Proof.
  rewrite Counter_fold_right. unfold first_seen.
  induction (rev ws) as [|x l IH]; [reflexivity|].
  cbn [fold_right nodup].
  pose proof (incr_key_In x (fold_right incr [] l)) as K.
  destruct (incr_keys x (fold_right incr [] l)) as [E|[Hn E]];
    rewrite E in *; rewrite IH in *.
  - destruct (in_dec (list_eq_dec ascii_dec) x l) as [Hin|Hin];
      [reflexivity|].
    exfalso. apply Hin. apply in_rev, nodup_In in K. exact K.
  - destruct (in_dec (list_eq_dec ascii_dec) x l) as [Hin|Hin];
      [|reflexivity].
    exfalso. apply Hn. apply in_rev. rewrite rev_involutive.
    apply nodup_In. exact Hin.
Qed.

(** The counter of [ws], written out: its words in the order they are
    first seen, each with the number of times it stands in [ws]. *)
Lemma Counter_first_seen (ws : list str) :
  Counter ws = map (fun w => (w, occurrences w ws)) (first_seen ws).
Proof.
  rewrite <- Counter_keys, map_map.
  rewrite <- (map_id (Counter ws)) at 1.
  apply map_ext_in. intros [w n] Hin. cbn [fst].
  apply (Counter_exact ws) in Hin. destruct Hin as [-> _]. reflexivity.
Qed.

Lemma filter_map_comm {A B : Type} (f : A -> B) (p : B -> bool) (l : list A) :
  filter p (map f l) = map f (filter (fun x => p (f x)) l).
Proof.
  induction l as [|x l IH]; [reflexivity|].
  cbn [map filter]. destruct (p (f x)); cbn [map]; rewrite IH; reflexivity.
Qed.

Section AnalyzerMore.
Context {F : Floats}.

(** X1.  [analyze_transcript] lists [top_words] by falling count, and no
    word stands in it twice. *)
Theorem top_words_descending (text : str) :
  exists a, analyze_transcript text = Ok a
    /\ descending (top_words a)
    /\ NoDup (map fst (top_words a)).
Proof.
  eexists. split; [apply analyze_transcript_Ok|]. cbn [top_words]. split.
  - apply most_common_descending.
  - apply most_common_NoDup. apply (Counter_exact _).
Qed.

(** X2.  The count beside a word of [top_words] is the number of times
    the word stands, lower-cased, among the counted tokens of the
    transcript; it is never 0. *)
Theorem top_words_counts (text : str) :
  exists a, analyze_transcript text = Ok a
    /\ forall w n, In (w, n) (top_words a) ->
         n = occurrences w (counted_words text) /\ 1 <= n.
Proof.
  eexists. split; [apply analyze_transcript_Ok|]. cbn [top_words].
  intros w n H. apply most_common_In in H.
  apply (Counter_exact _) in H. exact H.
Qed.

(** X3.  [top_words] holds the most frequent words: a counted word of
    the transcript is listed with its count, or ten words are listed and
    each of them is at least as frequent. *)
Theorem top_words_largest (text : str) :
  exists a, analyze_transcript text = Ok a
    /\ forall w, In w (counted_words text) ->
         In (w, occurrences w (counted_words text)) (top_words a)
         \/ (length (top_words a) = 10
             /\ forall v n, In (v, n) (top_words a) ->
                  occurrences w (counted_words text) <= n).
Proof.
  eexists. split; [apply analyze_transcript_Ok|]. cbn [top_words].
  intros w Hw. fold (counted_words text).
  assert (Hin : In (w, occurrences w (counted_words text))
                   (Counter (counted_words text))).
  { apply (Counter_exact _). split; [reflexivity|].
    unfold occurrences. apply count_occ_In. exact Hw. }
  destruct (most_common_largest 10 _ _ Hin) as [H|[H1 H2]];
    [left; exact H | right].
  split; [exact H1|]. intros v n Hv. exact (H2 _ Hv).
Qed.

(** X4.  The counts of [top_words] add up to at most [word_count], and
    a transcript with at most ten counted tokens has each of them in
    [top_words]. *)
Theorem top_words_total (text : str) :
  exists a, analyze_transcript text = Ok a
    /\ total (top_words a) <= word_count a
    /\ (length (counted_words text) <= 10 ->
        forall w, In w (counted_words text) ->
          In (w, occurrences w (counted_words text)) (top_words a)).
Proof.
  eexists. split; [apply analyze_transcript_Ok|].
  cbn [top_words word_count]. fold (counted_words text). split.
  - etransitivity; [apply most_common_total|].
    rewrite (proj1 (proj2 (Counter_exact _))).
    unfold counted_words. rewrite length_map. apply filter_length_le.
  - intros L w Hw.
    apply (Permutation_in (l := Counter (counted_words text))).
    + symmetry. apply most_common_all.
      etransitivity; [apply Counter_length | exact L].
    + apply (Counter_exact _). split; [reflexivity|].
      unfold occurrences. apply count_occ_In. exact Hw.
Qed.

(** X5.  Tokens are separated by whitespace, so twice [word_count] is at
    most [character_count + 1]; and [word_count] is 0 exactly for a
    transcript of whitespace only, whose [top_words] is empty. *)
Theorem word_count_bound (text : str) :
  exists a, analyze_transcript text = Ok a
    /\ 2 * word_count a <= character_count a + 1
    /\ (word_count a = 0 <-> forallb isspace text = true)
    /\ (word_count a = 0 -> top_words a = []).
Proof.
  eexists. split; [apply analyze_transcript_Ok|].
  cbn [top_words word_count character_count]. split; [|split].
  - exact (proj1 (tokens_length _ _ (split_tokens text))).
  - rewrite length_zero_iff_nil. apply split_blank.
  - intros H. apply length_zero_iff_nil in H. rewrite H. reflexivity.
Qed.

(** X8.  Words of equal count stand in [top_words] in the order they
    are first seen in the transcript, and when not all of them fit it
    is the first seen that are kept. *)
Theorem top_words_ties (text : str) (n : nat) :
  exists a k, analyze_transcript text = Ok a
    /\ map fst (filter (fun e => snd e =? n) (top_words a))
       = firstn k
           (filter (fun w => occurrences w (counted_words text) =? n)
              (first_seen (counted_words text))).
Proof.
  destruct (filter_firstn (fun e : str * nat => snd e =? n)
              (sorted_desc (Counter (counted_words text))) 10) as [k Hk].
  eexists. exists k. split; [apply analyze_transcript_Ok|].
  cbn [top_words]. fold (counted_words text). unfold most_common.
  rewrite Hk, sorted_desc_stable, Counter_first_seen, filter_map_comm.
  cbn [snd]. rewrite <- firstn_map, map_map. cbn [fst].
  rewrite map_id. reflexivity.
Qed.

End AnalyzerMore.

(** ** [extract_video_id] *)

(** X6.  An identifier [extract_video_id] returns is a piece of the URL:
    it is not empty, holds none of [&], newline, [?], [#], runs up to the
    end of the URL or to one of those characters, and stands right after
    a shape of the first rule or after a [v=] of the watch page's
    line. *)
Theorem extract_video_id_result (s id : str) :
  extract_video_id s = Some id ->
  id <> [] /\ forallb id_char id = true
  /\ exists pre tail,
       s = pre ++ id ++ tail /\ ends_id tail /\ marker_before pre.
Proof. exact (extract_video_id_piece s id). Qed.

Lemma extract_video_id_result_witness :
  lit "dQw4w9WgXcQ" <> []
  /\ forallb id_char (lit "dQw4w9WgXcQ") = true
  /\ exists pre tail,
       lit "https://www.youtube.com/watch?v=dQw4w9WgXcQ&t=42s"
       = pre ++ lit "dQw4w9WgXcQ" ++ tail
       /\ ends_id tail /\ marker_before pre.
Proof.
  apply (extract_video_id_result
           (lit "https://www.youtube.com/watch?v=dQw4w9WgXcQ&t=42s")).
  reflexivity.
Defined.

(** X7.  The second rule reads the last [v=] of the line: in a watch URL
    with no shape of the first rule, whose query holds several [v=]
    before an identifier character on one line, the identifier after
    the last of them is returned. *)
Theorem extract_video_id_last_v (pre mid id tail : str) :
  (forall p, ~ shape_at
       (pre ++ lit "youtube.com/watch?" ++ mid ++ lit "v=" ++ id ++ tail) p) ->
  (forall p, query_at
       (pre ++ lit "youtube.com/watch?" ++ mid ++ lit "v=" ++ id ++ tail) p ->
     length pre <= length p) ->
  forallb dot mid = true ->
  id <> [] -> forallb id_char id = true -> ends_id tail ->
  (forall a c q,
     mid ++ lit "v=" ++ id ++ tail = a ++ lit "v=" ++ c :: q ->
     forallb dot a = true -> id_char c = true -> length a <= length mid) ->
  extract_video_id
    (pre ++ lit "youtube.com/watch?" ++ mid ++ lit "v=" ++ id ++ tail)
  = Some id.
Proof. exact (extract_video_id_greedy pre mid id tail). Qed.

Lemma extract_video_id_last_v_witness :
  extract_video_id
    (lit "https://www.youtube.com/watch?feature=share&v=abc&rv=zzz")
  = Some (lit "zzz").
Proof.
  apply (extract_video_id_last_v (lit "https://www.")
           (lit "feature=share&v=abc&r") (lit "zzz") []).
  - apply no_shape_search. reflexivity.
  - intros p. apply query_after_prefix. reflexivity.
  - reflexivity.
  - discriminate.
  - reflexivity.
  - exact I.
  - intros a c q E _ _.
    do 22 (destruct a as [|? a]; [simpl; lia|]).
    exfalso. apply (f_equal (skipn 22)) in E. simpl in E.
    repeat (destruct a as [|? a];
            [discriminate E
            | try discriminate E; apply (f_equal (@tl _)) in E; simpl in E]).
Defined.

(** ** [str.strip], [str.split] and [str.join] *)

Lemma forallb_rev {A : Type} (p : A -> bool) (l : list A) :
  forallb p l = true -> forallb p (rev l) = true.
Proof.
  rewrite !forallb_forall. intros H x Hx. apply H, in_rev, Hx.
Qed.

(** [strip] takes whitespace off both ends and nothing else. *)
Lemma strip_piece (s : str) :
  exists a b, s = a ++ strip s ++ b
              /\ forallb isspace a = true /\ forallb isspace b = true.
Proof.
  unfold strip, lstrip.
  exists (run isspace s),
    (rev (run isspace (rev (after_run isspace s)))).
  split; [|split].
  - rewrite <- rev_app_distr, <- run_after_run, rev_involutive.
    apply run_after_run.
  - apply run_all.
  - apply forallb_rev, run_all.
Qed.

Lemma strip_trimmed (s : str) : trimmed (strip s).
Proof.
  split.
  - pose proof (after_run_stop isspace s) as H.
    assert (R : after_run isspace s
                = strip s ++ rev (run isspace (rev (after_run isspace s)))).
    { unfold strip, lstrip.
      rewrite <- rev_app_distr, <- run_after_run, rev_involutive.
      reflexivity. }
    rewrite R in H. destruct (strip s); [exact I | exact H].
  - unfold strip, lstrip. rewrite rev_involutive. apply after_run_stop.
Qed.

Lemma tokens_skip (sp s : str) (ws : list str) :
  forallb isspace sp = true -> tokens s ws -> tokens (sp ++ s) ws.
Proof.
  intros F T. destruct T as [sp' H | sp' w rest ws H Hw Hn Hr T].
  - constructor. rewrite forallb_app, F, H. reflexivity.
  - rewrite app_assoc. constructor; auto.
    rewrite forallb_app, F, H. reflexivity.
Qed.

Lemma tokens_app_space (a b : str) (wa wb : list str) (c : ascii) :
  isspace c = true ->
  tokens a wa -> tokens b wb -> tokens (a ++ c :: b) (wa ++ wb).
Proof.
  intros Hc Ta Tb. induction Ta as [sp H | sp w rest ws H Hw Hn Hr T IH].
  - cbn [app]. rewrite (app_assoc sp [c] b : sp ++ c :: b = (sp ++ [c]) ++ b).
    apply tokens_skip; [|exact Tb].
    rewrite forallb_app, H. simpl. rewrite Hc. reflexivity.
  - rewrite <- !app_assoc. cbn [app]. constructor; auto.
    destruct rest; [exact Hc | exact Hr].
Qed.

Lemma split_app_space (a b : str) (c : ascii) :
  isspace c = true -> split (a ++ c :: b) = split a ++ split b.
Proof.
  intros Hc. apply tokens_split, tokens_app_space;
    [exact Hc | apply split_tokens | apply split_tokens].
Qed.

(** Splitting the joined snippets gives the words of the snippets. *)
Lemma split_join (snippets : list str) :
  split (join (lit " ") snippets) = concat (map split snippets).
Proof.
  induction snippets as [|x [|y l] IH].
  - reflexivity.
  - simpl. rewrite app_nil_r. reflexivity.
  - rewrite join_cons2.
    change (lit " " ++ join (lit " ") (y :: l))
      with (" "%char :: join (lit " ") (y :: l)).
    rewrite split_app_space by reflexivity.
    rewrite IH. reflexivity.
Qed.

Lemma split_on_from_piece (sep : ascii) (s : str) : forall cur piece,
  In piece (split_on_from sep cur s) ->
  piece_of piece (cur ++ s)
  /\ (~ In sep cur -> ~ In sep piece).
Proof.
  induction s as [|c s IH]; intros cur piece; cbn [split_on_from].
  - intros [<-|[]]. split; [exists [], []; rewrite !app_nil_r; reflexivity|auto].
  - destruct (Ascii.eqb c sep) eqn:E.
    + intros [<-|H].
      * split; [exists [], (c :: s); reflexivity | auto].
      * destruct (IH [] piece H) as [(a & b & Hs) Hn].
        split; [|intros _; apply Hn; intros []].
        exists (cur ++ c :: a), b. cbn [app] in Hs. rewrite Hs.
        rewrite <- app_assoc. reflexivity.
    + intros H. destruct (IH (cur ++ [c]) piece H) as [(a & b & Hs) Hn].
      split.
      * exists a, b. rewrite <- Hs, <- app_assoc. reflexivity.
      * intros Hc. apply Hn. intros Hin. apply in_app_or in Hin.
        destruct Hin as [Hin|[->|[]]]; [exact (Hc Hin)|].
        rewrite Ascii.eqb_refl in E. discriminate E.
Qed.

Lemma piece_of_trans (a b c : str) :
  piece_of a b -> piece_of b c -> piece_of a c.
Proof.
  intros (x & y & ->) (u & v & ->).
  exists (u ++ x), (y ++ v). rewrite <- !app_assoc. reflexivity.
Qed.

Lemma piece_of_In (a b : str) (c : ascii) :
  piece_of a b -> In c a -> In c b.
Proof.
  intros (x & y & ->) H. apply in_or_app. right.
  apply in_or_app. left. exact H.
Qed.

(** X12.  Each url the batch hands on is a non-empty piece of the text
    area, with no whitespace at either end and no line break inside. *)
Theorem batch_lines_clean (batch_urls url : str) :
  In url (batch_lines batch_urls) ->
  url <> [] /\ trimmed url /\ ~ In newline url /\ piece_of url batch_urls.
Proof.
  unfold batch_lines. intros H.
  apply in_map_iff in H as (line & <- & H).
  apply filter_In in H as [H T].
  apply truthy_Some in T.
  destruct (split_on_from_piece newline batch_urls [] line H) as [P N].
  assert (Q : piece_of (strip line) line).
  { destruct (strip_piece line) as (a & b & E & _). exists a, b. exact E. }
  split; [exact T|]. split; [apply strip_trimmed|]. split.
  - intros Hin. apply N; [intros []|].
    exact (piece_of_In _ _ _ Q Hin).
  - exact (piece_of_trans _ _ _ Q P).
Qed.

Lemma batch_lines_clean_witness :
  lit "https://youtu.be/abc123" <> []
  /\ trimmed (lit "https://youtu.be/abc123")
  /\ ~ In newline (lit "https://youtu.be/abc123")
  /\ piece_of (lit "https://youtu.be/abc123") three_lines.
Proof.
  apply (batch_lines_clean three_lines (lit "https://youtu.be/abc123")).
  vm_compute. left. reflexivity.
Defined.

Section ServicesMore.
Variable generate_content : str -> result str.
Variable fetch : str -> result (list str).

Lemma extract_transcript_id (video_url text id : str) :
  extract_transcript fetch video_url = Ok (Some text, Some id) ->
  extract_video_id video_url = Some id.
Proof.
  rewrite extract_transcript_unfold.
  destruct (extract_video_id video_url) as [id'|]; [|discriminate].
  destruct (fetch id'); [|discriminate].
  intros H. injection H as _ <-. reflexivity.
Qed.

(** X9.  [extract_transcript] gives [(None, None)] exactly when the URL
    has no recognized shape or the transcript service raises for its
    identifier; otherwise it gives the snippets joined by one space and
    the identifier [extract_video_id] found. *)
Theorem extract_transcript_outcome (video_url : str) :
  (extract_transcript fetch video_url = Ok (None, None)
   <-> ~ recognized video_url
       \/ exists id e, extract_video_id video_url = Some id
                       /\ fetch id = Raise e)
  /\ (forall text id,
        extract_transcript fetch video_url = Ok (Some text, Some id)
        <-> extract_video_id video_url = Some id
            /\ exists snippets, fetch id = Ok snippets
                                /\ text = join (lit " ") snippets).
Proof.
  rewrite extract_transcript_unfold.
  destruct (extract_video_id video_url) as [id|] eqn:E.
  - destruct (fetch id) as [snippets|e] eqn:Ef; split.
    + split; [discriminate|].
      intros [H|(id' & e & H & Hf)].
      * apply extract_video_id_None in H. congruence.
      * injection H as <-. congruence.
    + intros text id'. split.
      * intros H. injection H as <- <-. split; [reflexivity|].
        exists snippets. auto.
      * intros [H (sn & Hf & ->)]. injection H as <-.
        rewrite Ef in Hf. injection Hf as <-. reflexivity.
    + split; [|reflexivity]. intros _. right. exists id, e. auto.
    + intros text id'. split; [discriminate|].
      intros [H (sn & Hf & _)]. injection H as <-. congruence.
  - split.
    + split; [|reflexivity]. intros _. left.
      apply extract_video_id_None. exact E.
    + intros text id. split; [discriminate | intros [H _]; discriminate].
Qed.

(** X10.  The transcript's words are the words of the snippets, in
    order: joining with one space neither merges nor splits a word, so
    the word count of a transcript is the sum over its snippets. *)
Theorem transcript_words (video_url id : str) (snippets : list str) :
  extract_video_id video_url = Some id ->
  fetch id = Ok snippets ->
  exists text,
    extract_transcript fetch video_url = Ok (Some text, Some id)
    /\ split text = concat (map split snippets)
    /\ length (split text)
       = list_sum (map (fun s => length (split s)) snippets).
Proof.
  intros E Ef. exists (join (lit " ") snippets).
  rewrite extract_transcript_unfold, E, Ef.
  split; [reflexivity|]. split; [apply split_join|].
  rewrite split_join. clear.
  induction snippets as [|x l IH]; [reflexivity|].
  cbn [map concat list_sum fold_right]. rewrite length_app.
  f_equal. exact IH.
Qed.

(** X11.  What [extract_keywords] and [analyze_sentiment] return has no
    whitespace at either end: it is the model's answer with the
    whitespace around it taken off, or the fixed message. *)
Theorem model_answers_trimmed (text : str) :
  exists keywords sentiment,
    extract_keywords generate_content text = Ok keywords
    /\ analyze_sentiment generate_content text = Ok sentiment
    /\ trimmed keywords /\ trimmed sentiment
    /\ (forall answer,
          generate_content (keywords_template ++ firstn 1000 text) = Ok answer ->
          exists a b, answer = a ++ keywords ++ b
                      /\ forallb isspace a = true /\ forallb isspace b = true)
    /\ (forall answer,
          generate_content (sentiment_template ++ firstn 1000 text) = Ok answer ->
          exists a b, answer = a ++ sentiment ++ b
                      /\ forallb isspace a = true /\ forallb isspace b = true).
Proof.
  unfold extract_keywords, analyze_sentiment.
  destruct (generate_content (keywords_template ++ firstn 1000 text))
    as [k|ek];
    destruct (generate_content (sentiment_template ++ firstn 1000 text))
      as [s|es]; cbn [bind try_except];
    eexists; eexists;
    (split; [reflexivity|]); (split; [reflexivity|]);
    (split; [try apply strip_trimmed; try (split; reflexivity)|]);
    (split; [try apply strip_trimmed; try (split; reflexivity)|]);
    split; intros answer H; try discriminate H;
    injection H as <-; apply strip_piece.
Qed.

End ServicesMore.

Lemma transcript_words_witness :
  exists text,
    extract_transcript one_video (lit "https://youtu.be/abc123")
    = Ok (Some text, Some (lit "abc123"))
    /\ split text = map lit ["hello"; "there"; "world"]%string.
Proof.
  destruct (transcript_words one_video (lit "https://youtu.be/abc123")
              (lit "abc123") [lit "hello there"; lit "world"]
              eq_refl eq_refl) as (text & E & S & _).
  exists text. split; [exact E | exact S].
Defined.

(** ** [str.replace] and the title of the page *)

Lemma replace_from_skip (old new : str) (s : str) : forall n,
  length s <= n -> replace_from old new n s = [].
Proof.
  induction s as [|c s IH]; intros n L; [reflexivity|].
  destruct n as [|n]; [simpl in L; lia|].
  cbn [replace_from]. apply IH. simpl in L. lia.
Qed.

(** Nothing is replaced in a string that does not hold [old]. *)
Lemma replace_absent (old new s : str) :
  (forall p q, s <> p ++ old ++ q) -> replace old new s = s.
Proof.
  unfold replace. induction s as [|c s IH]; intros H; [reflexivity|].
  cbn [replace_from].
  destruct (strip_prefix old (c :: s)) as [r|] eqn:E.
  - apply strip_prefix_Some in E. exfalso. exact (H [] r E).
  - f_equal. apply IH. intros p q ->. exact (H (c :: p) q eq_refl).
Qed.

(** An [old] that stands at the end only is replaced there. *)
Lemma replace_suffix (old new name : str) :
  old <> [] ->
  (forall p q, name ++ old = p ++ old ++ q -> p = name) ->
  replace old new (name ++ old) = name ++ new.
Proof.
  unfold replace. intros Hold. induction name as [|c name IH]; intros H.
  - cbn [app]. destruct old as [|c o]; [congruence|].
    cbn [replace_from].
    replace (strip_prefix (c :: o) (c :: o)) with (Some (@nil ascii)).
    + rewrite replace_from_skip by (simpl; lia). apply app_nil_r.
    + symmetry. apply strip_prefix_Some. symmetry. apply app_nil_r.
  - cbn [app replace_from].
    destruct (strip_prefix old (c :: name ++ old)) as [r|] eqn:E.
    + apply strip_prefix_Some in E. specialize (H [] r E). discriminate H.
    + f_equal. apply IH. intros p q E'.
      assert (P : c :: p = c :: name).
      { apply (H (c :: p) q). cbn [app]. rewrite E'. reflexivity. }
      injection P as ->. reflexivity.
Qed.

(** Taking occurrences out adds no character. *)
Lemma replace_from_In (old : str) (x : ascii) (s : str) : forall n,
  In x (replace_from old [] n s) -> In x s.
Proof.
  induction s as [|c s IH]; intros n; [simpl; tauto|].
  cbn [replace_from]. destruct n as [|n].
  - destruct (strip_prefix old (c :: s)).
    + cbn [app]. intros H. right. exact (IH _ H).
    + intros [->|H]; [left; reflexivity | right; exact (IH _ H)].
  - intros H. right. exact (IH _ H).
Qed.

Lemma title_here_match (t q : str) :
  t <> [] -> forallb not_lt t = true ->
  match_here title_pattern (lit "<title>" ++ t ++ lit "</title>" ++ q)
  = Some (MatchObj (Some t)).
Proof.
  intros Hne Ht. unfold match_here, title_pattern.
  rewrite rmatch_seq, rmatch_lit, strip_prefix_app.
  rewrite rmatch_seq, rmatch_group_plus.
  destruct t as [|c t]; [congruence|].
  cbn [forallb] in Ht. apply andb_true_iff in Ht as [Hc Ht].
  cbn [app]. rewrite Hc.
  apply star_longest; [exact Ht | reflexivity |].
  rewrite rmatch_lit, strip_prefix_app. do 3 f_equal.
  replace (length (c :: t ++ lit "</title>" ++ q)
           - length (lit "</title>" ++ q)) with (length (c :: t) + 0).
  - change (c :: t ++ lit "</title>" ++ q)
      with ((c :: t) ++ lit "</title>" ++ q).
    rewrite firstn_app_2. cbn [firstn]. apply app_nil_r.
  - cbn [length]. rewrite !length_app. lia.
Qed.

Section MetadataMore.
Variable requests_get : str -> result str.

(** X13.  When the page holds a title, [get_video_metadata] returns the
    text of the first one with every [ - YouTube] taken out: a text
    that does not hold it is returned as it is, one that ends with its
    only occurrence loses that ending, and no character is added. *)
Theorem get_video_metadata_first_title (id pre t q : str) :
  requests_get (watch_url id)
  = Ok (pre ++ lit "<title>" ++ t ++ lit "</title>" ++ q) ->
  t <> [] -> forallb not_lt t = true ->
  (forall p, title_at (pre ++ lit "<title>" ++ t ++ lit "</title>" ++ q) p ->
             length pre <= length p) ->
  exists md : metadata,
    get_video_metadata requests_get id = Ok md
    /\ video_id md = id /\ url md = watch_url id
    /\ title md = replace (lit " - YouTube") [] t
    /\ (forall c, In c (title md) -> In c t)
    /\ ((forall p r, t <> p ++ lit " - YouTube" ++ r) -> title md = t)
    /\ (forall name,
          t = name ++ lit " - YouTube" ->
          (forall p r, t = p ++ lit " - YouTube" ++ r -> p = name) ->
          title md = name).
Proof.
  intros Hpage Hne Ht Hfirst.
  unfold get_video_metadata. rewrite Hpage. cbn [bind try_except].
  rewrite (search_first title_pattern pre _ (MatchObj (Some t)));
    [| | apply title_here_match; assumption].
  - cbn [group1]. eexists. split; [reflexivity|]. cbn [title video_id url].
    split; [reflexivity|]. split; [reflexivity|]. split; [reflexivity|].
    split; [|split].
    + intros c. apply replace_from_In.
    + apply replace_absent.
    + intros name -> H. rewrite replace_suffix;
        [apply app_nil_r | discriminate | exact H].
  - intros p s -> Hs.
    destruct (match_here title_pattern (s ++ _)) as [m|] eqn:Em;
      [|reflexivity].
    exfalso. apply title_here_Some in Em as (t' & q' & Hne' & Ht' & Es).
    cbn [app] in Es.
    assert (L : length (p ++ s) <= length p).
    { apply Hfirst. exists t', q'. rewrite <- app_assoc, Es. auto. }
    rewrite length_app in L. destruct s; [congruence | simpl in L; lia].
Qed.

End MetadataMore.

Lemma get_video_metadata_first_title_witness :
  exists md : metadata,
    get_video_metadata page_ok (lit "abc123") = Ok md
    /\ title md = lit "A video".
Proof.
  destruct (get_video_metadata_first_title page_ok (lit "abc123") []
              (lit "A video - YouTube") [])
    as (md & E & _ & _ & _ & _ & _ & H).
  - reflexivity.
  - discriminate.
  - reflexivity.
  - intros p _. simpl. lia.
  - exists md. split; [exact E|]. apply H; [reflexivity|].
    intros p r Ep.
    do 7 (destruct p as [|? p]; [discriminate Ep|]).
    assert (P : p = []).
    { destruct p; [reflexivity|].
      apply (f_equal (@length ascii)) in Ep. cbn [app length] in Ep.
      rewrite length_app in Ep. simpl in Ep. lia. }
    subst p. simpl in Ep. injection Ep. intros. subst. reflexivity.
Defined.

(** ** The exported buffers *)

Lemma utf8_char_ascii (c : ascii) :
  is_ascii c = true -> utf8_char c = [byte_of_ascii c].
Proof.
  unfold utf8_char, is_ascii. intros ->. reflexivity.
Qed.

Lemma byte_of_ascii_small (c : ascii) :
  implb (is_ascii c) (ascii_byte (byte_of_ascii c)) = true.
Proof. revert c. apply ascii_all. vm_compute. reflexivity. Qed.

Lemma utf8_encode_ascii (s : str) :
  forallb is_ascii s = true ->
  utf8_encode s = map byte_of_ascii s
  /\ forallb ascii_byte (utf8_encode s) = true.
Proof.
  unfold utf8_encode. induction s as [|c s IH]; [split; reflexivity|].
  cbn [forallb flat_map map]. intros H. apply andb_prop in H as [Hc Hs].
  destruct (IH Hs) as [E1 E2]. rewrite (utf8_char_ascii c Hc). cbn [app].
  split; [rewrite E1; reflexivity|].
  cbn [forallb]. rewrite E2.
  pose proof (byte_of_ascii_small c) as B. rewrite Hc in B. simpl in B.
  rewrite B. reflexivity.
Qed.

Lemma to_N_byte_of_N (n : N) : (n < 256)%N -> Byte.to_N (byte_of_N n) = n.
Proof.
  intros H. unfold byte_of_N. destruct (Byte.of_N n) as [b|] eqn:E.
  - apply Byte.to_of_N. exact E.
  - apply Byte.of_N_None_iff in E. lia.
Qed.

Ltac div_lia := zify; Z.to_euclidean_division_equations; lia.

(** The tests of the decoder on what the encoder wrote. *)
Ltac settle_tests :=
  repeat match goal with
    | |- context [N.ltb ?a ?b] =>
        destruct (N.ltb_spec a b);
        [try (exfalso; div_lia) | try (exfalso; div_lia)]
    | |- context [N.leb ?a ?b] =>
        destruct (N.leb_spec a b);
        [try (exfalso; div_lia) | try (exfalso; div_lia)]
    end.

Lemma continuation_byte (x : N) :
  (x < 64)%N -> continuation (byte_of_N (0x80 + x)) = Some x.
Proof.
  intros H. unfold continuation.
  rewrite to_N_byte_of_N by lia.
  destruct (N.leb_spec 0x80 (0x80 + x)); [|lia].
  destruct (N.leb_spec (0x80 + x) 0xBF); [|lia].
  cbn [andb]. f_equal. lia.
Qed.

Lemma decode_utf8_cons (b1 : byte) (r : list byte) :
  decode_utf8 (b1 :: r)
  = let x := Byte.to_N b1 in
    (if x <? 0x80 then option_map (cons x) (decode_utf8 r)
     else if x <? 0xC0 then None
     else if x <? 0xE0 then
       match r with
       | b2 :: r' =>
           match continuation b2 with
           | Some c2 =>
               let n := (x - 0xC0) * 64 + c2 in
               if n <? 0x80 then None
               else option_map (cons n) (decode_utf8 r')
           | None => None
           end
       | _ => None
       end
     else if x <? 0xF0 then
       match r with
       | b2 :: b3 :: r' =>
           match continuation b2, continuation b3 with
           | Some c2, Some c3 =>
               let n := ((x - 0xE0) * 64 + c2) * 64 + c3 in
               if (n <? 0x800) || is_surrogate n then None
               else option_map (cons n) (decode_utf8 r')
           | _, _ => None
           end
       | _ => None
       end
     else if x <? 0xF8 then
       match r with
       | b2 :: b3 :: b4 :: r' =>
           match continuation b2, continuation b3, continuation b4 with
           | Some c2, Some c3, Some c4 =>
               let n := (((x - 0xF0) * 64 + c2) * 64 + c3) * 64 + c4 in
               if (n <? 0x10000) || (0x10FFFF <? n) then None
               else option_map (cons n) (decode_utf8 r')
           | _, _, _ => None
           end
       | _ => None
       end
     else None)%N.
Proof. reflexivity. Qed.

(** One code point, written and read back. *)
Lemma decode_point (n : N) (bs r : list byte) :
  code_point n ->
  utf8_point n = Ok bs ->
  decode_utf8 (bs ++ r) = option_map (cons n) (decode_utf8 r).
Proof.
  unfold code_point, utf8_point. intros Hn.
  destruct (N.ltb_spec n 0x80) as [H1|H1].
  { intros E. replace bs with [byte_of_N n] by congruence.
    change ([byte_of_N n] ++ r) with (byte_of_N n :: r).
    rewrite decode_utf8_cons. cbv zeta.
    rewrite to_N_byte_of_N by lia.
    destruct (N.ltb_spec n 0x80); [reflexivity | lia]. }
  destruct (N.ltb_spec n 0x800) as [H2|H2].
  { intros E.
    replace bs with [byte_of_N (0xC0 + n / 64); byte_of_N (0x80 + n mod 64)]
      by congruence.
    change ([?a; ?b] ++ r) with (a :: b :: r).
    rewrite decode_utf8_cons. cbv zeta.
    rewrite to_N_byte_of_N by div_lia.
    rewrite continuation_byte by div_lia.
    replace ((0xC0 + n / 64 - 0xC0) * 64 + n mod 64)%N with n by div_lia.
    settle_tests. reflexivity. }
  destruct (is_surrogate n) eqn:Hs; [discriminate|].
  assert (S : (n < 0xD800 \/ 0xDFFF < n)%N).
  { unfold is_surrogate in Hs.
    destruct (N.leb_spec 0xD800 n); [|lia].
    destruct (N.leb_spec n 0xDFFF); [discriminate Hs | lia]. }
  destruct (N.ltb_spec n 0x10000) as [H5|H5].
  - intros E.
    replace bs with
      [byte_of_N (0xE0 + n / 4096); byte_of_N (0x80 + (n / 64) mod 64);
       byte_of_N (0x80 + n mod 64)]
      by congruence.
    change ([?a; ?b; ?c] ++ r) with (a :: b :: c :: r).
    rewrite decode_utf8_cons. cbv zeta.
    rewrite to_N_byte_of_N by div_lia.
    rewrite !continuation_byte by div_lia.
    replace (((0xE0 + n / 4096 - 0xE0) * 64 + (n / 64) mod 64) * 64
             + n mod 64)%N with n by div_lia.
    rewrite Hs. settle_tests. reflexivity.
  - intros E.
    replace bs with
      [byte_of_N (0xF0 + n / 262144); byte_of_N (0x80 + (n / 4096) mod 64);
       byte_of_N (0x80 + (n / 64) mod 64); byte_of_N (0x80 + n mod 64)]
      by congruence.
    change ([?a; ?b; ?c; ?d] ++ r) with (a :: b :: c :: d :: r).
    rewrite decode_utf8_cons. cbv zeta.
    rewrite to_N_byte_of_N by div_lia.
    rewrite !continuation_byte by div_lia.
    replace ((((0xF0 + n / 262144 - 0xF0) * 64 + (n / 4096) mod 64) * 64
              + (n / 64) mod 64) * 64 + n mod 64)%N with n by div_lia.
    settle_tests. reflexivity.
Qed.

Lemma utf8_point_length (n : N) (bs : list byte) :
  utf8_point n = Ok bs -> length bs = utf8_width n.
Proof.
  unfold utf8_point, utf8_width.
  destruct (n <? 0x80)%N; [intros E; injection E as <-; reflexivity|].
  destruct (n <? 0x800)%N; [intros E; injection E as <-; reflexivity|].
  destruct (is_surrogate n); [discriminate|].
  destruct (n <? 0x10000)%N; intros E; injection E as <-; reflexivity.
Qed.

Lemma utf8_point_surrogate (n : N) :
  utf8_point n
  = if is_surrogate n then Raise UnicodeEncodeError else utf8_point n.
Proof.
  destruct (is_surrogate n) eqn:Hs; [|reflexivity].
  unfold utf8_point. unfold is_surrogate in Hs.
  apply andb_prop in Hs as [H1 H2].
  apply N.leb_le in H1, H2.
  destruct (N.ltb_spec n 0x80); [lia|].
  destruct (N.ltb_spec n 0x800); [lia|].
  unfold is_surrogate.
  destruct (N.leb_spec 0xD800 n); [|lia].
  destruct (N.leb_spec n 0xDFFF); [reflexivity|lia].
Qed.

Lemma utf8_point_Ok (n : N) :
  is_surrogate n = false -> exists bs, utf8_point n = Ok bs.
Proof.
  unfold utf8_point. intros ->.
  destruct (n <? 0x80)%N; [eexists; reflexivity|].
  destruct (n <? 0x800)%N; [eexists; reflexivity|].
  destruct (n <? 0x10000)%N; eexists; reflexivity.
Qed.

(** A content without surrogates is written, and read back. *)
Lemma encode_utf8_decode (content : list N) :
  Forall code_point content ->
  existsb is_surrogate content = false ->
  exists bs, encode_utf8 content = Ok bs
             /\ decode_utf8 bs = Some content
             /\ length bs = list_sum (map utf8_width content).
Proof.
  induction 1 as [|n rest Hn Hrest IH]; cbn [existsb encode_utf8].
  - intros _. exists []. repeat split.
  - intros H. apply orb_false_elim in H as [Hs Hr].
    destruct (utf8_point_Ok n Hs) as [b Eb].
    destruct (IH Hr) as (bs & Ebs & Dbs & Lbs).
    exists (b ++ bs). rewrite Eb, Ebs. cbn [bind].
    split; [reflexivity|]. split.
    + rewrite (decode_point n b bs Hn Eb), Dbs. reflexivity.
    + rewrite length_app, (utf8_point_length n b Eb), Lbs. reflexivity.
Qed.

(** A surrogate anywhere stops the encoder. *)
Lemma encode_utf8_surrogate (content : list N) :
  existsb is_surrogate content = true ->
  encode_utf8 content = Raise UnicodeEncodeError.
Proof.
  induction content as [|n rest IH]; cbn [existsb encode_utf8];
    [discriminate|].
  intros H. rewrite utf8_point_surrogate.
  destruct (is_surrogate n) eqn:Hs; [reflexivity|].
  cbn [orb] in H. rewrite (IH H).
  destruct (utf8_point_Ok n Hs) as [b ->]. reflexivity.
Qed.

(** X14.  [export_to_text] on a content of any code points.  A content
    without surrogates is written in UTF-8, whatever the file name:
    decoding the buffer gives the content back, and the buffer has one
    to four bytes for each character, by its range.  A content that
    holds a surrogate is not written: the call raises. *)
Theorem export_to_text_roundtrip (content : list N) (filename : str) :
  Forall code_point content ->
  (existsb is_surrogate content = false ->
   exists buffer,
     export_to_text content filename = Ok buffer
     /\ decode_utf8 (getvalue buffer) = Some content
     /\ length (getvalue buffer) = list_sum (map utf8_width content))
  /\ (existsb is_surrogate content = true ->
      export_to_text content filename = Raise UnicodeEncodeError).
Proof.
  intros Hc. unfold export_to_text. split.
  - intros Hs. destruct (encode_utf8_decode content Hc Hs)
      as (bs & E & D & L).
    rewrite E. cbn [bind]. eexists. split; [reflexivity|].
    cbn [getvalue]. split; assumption.
  - intros Hs. rewrite (encode_utf8_surrogate content Hs). reflexivity.
Qed.

Lemma export_to_text_roundtrip_witness :
  (exists buffer,
     export_to_text [0x48; 0xE9; 0x20AC; 0x130; 0x1F600]%N (lit "summary.txt")
     = Ok buffer
     /\ decode_utf8 (getvalue buffer)
        = Some [0x48; 0xE9; 0x20AC; 0x130; 0x1F600]%N
     /\ length (getvalue buffer) = 12)
  /\ export_to_text [0x48; 0xD800]%N (lit "summary.txt")
     = Raise UnicodeEncodeError.
Proof.
  split.
  - apply (export_to_text_roundtrip
             [0x48; 0xE9; 0x20AC; 0x130; 0x1F600]%N (lit "summary.txt")).
    + repeat constructor.
    + reflexivity.
  - apply (export_to_text_roundtrip [0x48; 0xD800]%N (lit "summary.txt")).
    + repeat constructor.
    + reflexivity.
Defined.

(** On U+0000..U+00FF the encoder of the JSON text is the full one. *)
Lemma utf8_point_char (c : ascii) : utf8_point (N_of_ascii c) = Ok (utf8_char c).
Proof. destruct c as [[] [] [] [] [] [] [] []]; reflexivity. Qed.

Lemma encode_utf8_points (s : str) : encode_utf8 (points s) = Ok (utf8_encode s).
Proof.
  unfold points, utf8_encode. induction s as [|c s IH]; [reflexivity|].
  cbn [map encode_utf8 flat_map]. rewrite utf8_point_char, IH. reflexivity.
Qed.

Lemma encode_char_ascii (c : ascii) : forallb is_ascii (encode_char c) = true.
Proof. revert c. apply ascii_all. vm_compute. reflexivity. Qed.

Lemma is_digit_ascii (c : ascii) : implb (is_digit c) (is_ascii c) = true.
Proof. revert c. apply ascii_all. vm_compute. reflexivity. Qed.

Lemma digits_ascii (s : str) :
  forallb is_digit s = true -> forallb is_ascii s = true.
Proof.
  induction s as [|c s IH]; [reflexivity|]. cbn [forallb].
  intros H. apply andb_prop in H as [Hc Hs].
  pose proof (is_digit_ascii c) as D. rewrite Hc in D. simpl in D.
  rewrite D, (IH Hs). reflexivity.
Qed.

Lemma int_repr_ascii (z : Z) : forallb is_ascii (int_repr z) = true.
Proof.
  unfold int_repr. destruct (Z.to_int z) as [d|d].
  - apply digits_ascii, uint_str_digits.
  - cbn [forallb]. rewrite (digits_ascii _ (uint_str_digits d)). reflexivity.
Qed.

Lemma encode_string_ascii (s : str) :
  forallb is_ascii (encode_string s) = true.
Proof.
  unfold encode_string. cbn [forallb]. rewrite forallb_app.
  replace (forallb is_ascii (flat_map encode_char s)) with true;
    [reflexivity|].
  symmetry. induction s as [|c s IH]; [reflexivity|].
  cbn [flat_map]. rewrite forallb_app, encode_char_ascii, IH. reflexivity.
Qed.

Lemma newline_indent_ascii (level : nat) :
  forallb is_ascii (newline_indent level) = true.
Proof.
  unfold newline_indent. cbn [forallb].
  induction (2 * level) as [|n IH]; [reflexivity|]. exact IH.
Qed.

Lemma join_ascii (sep : str) (parts : list str) :
  forallb is_ascii sep = true ->
  Forall (fun p => forallb is_ascii p = true) parts ->
  forallb is_ascii (join sep parts) = true.
Proof.
  intros Hs H. induction H as [|x l Hx Hl IH]; [reflexivity|].
  destruct l as [|y l]; [exact Hx|].
  rewrite join_cons2, !forallb_app, Hx, Hs. exact IH.
Qed.

Section JsonMore.
Variable flt : Type.
Variable float_repr : flt -> str.
Variable float_of_str : str -> option flt.

Lemma encode_ascii (v : pyval flt) :
  (forall x, forallb is_ascii (float_repr x) = true) ->
  forall level, forallb is_ascii (encode float_repr level v) = true.
Proof.
  intros Hf. induction v as [ | b | z | x | s | l IH | l IH | d IH]
    using pyval_induction; intros level; cbn [encode].
  - reflexivity.
  - destruct b; reflexivity.
  - apply int_repr_ascii.
  - apply Hf.
  - apply encode_string_ascii.
  - destruct l as [|v l]; [reflexivity|].
    cbn [forallb]. rewrite !forallb_app, newline_indent_ascii.
    rewrite newline_indent_ascii, join_ascii; [reflexivity | |].
    + cbn [forallb]. apply newline_indent_ascii.
    + apply Forall_map. revert IH. apply Forall_impl. auto.
  - destruct l as [|v l]; [reflexivity|].
    cbn [forallb]. rewrite !forallb_app, newline_indent_ascii.
    rewrite newline_indent_ascii, join_ascii; [reflexivity | |].
    + cbn [forallb]. apply newline_indent_ascii.
    + apply Forall_map. revert IH. apply Forall_impl. auto.
  - destruct d as [|kv d]; [reflexivity|].
    cbn [forallb]. rewrite !forallb_app, newline_indent_ascii.
    rewrite newline_indent_ascii, join_ascii; [reflexivity | |].
    + cbn [forallb]. apply newline_indent_ascii.
    + apply Forall_map. revert IH. apply Forall_impl.
      intros [k x] H. cbn [fst snd] in *.
      rewrite !forallb_app, encode_string_ascii, H. reflexivity.
Qed.

(** X15.  The JSON buffer is plain ASCII: whatever characters the
    strings of the data hold, every byte of the buffer is below 128
    and the buffer has one byte for each character of the text. *)
Theorem export_to_json_ascii (data : pyval flt) (filename : str) :
  (forall x, forallb is_ascii (float_repr x) = true) ->
  forallb ascii_byte (getvalue (export_to_json float_repr data filename))
  = true
  /\ getvalue (export_to_json float_repr data filename)
     = map byte_of_ascii (dumps float_repr data).
Proof.
  intros Hf. unfold export_to_json. cbn [getvalue].
  destruct (utf8_encode_ascii (dumps float_repr data)) as [E1 E2].
  - unfold dumps. apply encode_ascii. exact Hf.
  - split; [exact E2 | exact E1].
Qed.

Lemma batch_results_serializable (rs : list batch_result) :
  serializable float_repr float_of_str (PList (map batch_result_py rs))
  /\ has_tuple (PList (map (@batch_result_py flt) rs)) = false.
Proof.
  split.
  - apply serializable_list. apply Forall_map, Forall_forall.
    intros r _. cbn. split; [|tauto].
    repeat constructor; cbn; intuition discriminate.
  - cbn [has_tuple]. induction rs as [|r rs IH]; [reflexivity|]. exact IH.
Qed.

(** X16.  The export of the batch results always reads back as the very
    list that was exported: its records hold strings and one integer
    under five different keys. *)
Theorem export_batch_results_exact (batch_results : list batch_result)
  (filename : str) :
  loads_bytes float_of_str
    (getvalue (export_to_json float_repr
                 (PList (map batch_result_py batch_results)) filename))
  = Some (PList (map batch_result_py batch_results)).
Proof.
  destruct (batch_results_serializable batch_results) as [S T].
  unfold loads_bytes, export_to_json. cbn [getvalue].
  rewrite utf8_roundtrip, (loads_dumps _ _ _ _ S).
  rewrite (proj1 (listed_exact _ _) T). reflexivity.
Qed.

End JsonMore.

Lemma digit_char_ascii (n : Z) :
  (0 <= n < 10)%Z -> is_ascii (digit_char n) = true.
Proof.
  intros H. unfold digit_char.
  assert (L : Z.to_nat n < 10) by lia.
  revert L. generalize (Z.to_nat n). intros k L.
  do 10 (destruct k as [|k]; [reflexivity|]). lia.
Qed.

Lemma decimal_repr_ascii (q : Q) : forallb is_ascii (decimal_repr q) = true.
Proof.
  unfold decimal_repr. set (h := Qfloor (q * 100)).
  rewrite forallb_app, int_repr_ascii. cbn [forallb andb].
  rewrite digit_char_ascii.
  - destruct (h mod 10 =? 0)%Z; [reflexivity|].
    cbn [forallb]. rewrite digit_char_ascii; [reflexivity|].
    apply Z.mod_pos_bound. lia.
  - pose proof (Z.mod_pos_bound h 100 ltac:(lia)) as B.
    split; [apply Z.div_pos; lia | apply Z.div_lt_upper_bound; lia].
Qed.

Lemma export_to_json_ascii_witness :
  forallb ascii_byte
    (getvalue (export_to_json decimal_repr fox_analysis (lit "analysis.json")))
  = true.
Proof.
  apply (export_to_json_ascii Q decimal_repr fox_analysis
           (lit "analysis.json") decimal_repr_ascii).
Defined.

(** ** The single-video handler *)

Section SingleVideoFacts.
Context {F : Floats}.
Variable generate_content : str -> result str.
Variable fetch : str -> result (list str).
Variable requests_get : str -> result str.
Variable st : summary_type.
Variables show_analysis show_keywords show_sentiment : bool.

Lemma when_Ok {A : Type} (flag : bool) (call : result A) (x : A) :
  call = Ok x -> when flag call = Ok (if flag then Some x else None).
Proof. intros ->. destruct flag; reflexivity. Qed.

Lemma extract_keywords_Ok (text : str) :
  exists r, extract_keywords generate_content text = Ok r.
Proof.
  unfold extract_keywords.
  destruct (generate_content _); cbn [bind try_except]; eexists; reflexivity.
Qed.

Lemma analyze_sentiment_Ok (text : str) :
  exists r, analyze_sentiment generate_content text = Ok r.
Proof.
  unfold analyze_sentiment.
  destruct (generate_content _); cbn [bind try_except]; eexists; reflexivity.
Qed.

(** The handler on a URL the extraction accepts. *)
Lemma analyze_video_accepted (youtube_url text id : str) :
  extract_transcript fetch youtube_url = Ok (Some text, Some id) ->
  text <> [] ->
  exists md a k s,
    get_video_metadata requests_get id = Ok md
    /\ analyze_transcript text = Ok a
    /\ extract_keywords generate_content text = Ok k
    /\ analyze_sentiment generate_content text = Ok s
    /\ analyze_video generate_content fetch requests_get st
         show_analysis show_keywords show_sentiment true youtube_url
       = match generate_content (text ++ prompts st) with
         | Ok summary =>
             Ok (Some {| shown_metadata := md;
                         shown_summary := summary;
                         shown_analysis := if show_analysis then Some a else None;
                         shown_keywords := if show_keywords then Some k else None;
                         shown_sentiment := if show_sentiment then Some s else None |})
         | Raise e => Raise e
         end.
Proof.
  intros E Ht.
  destruct (get_video_metadata_Ok requests_get id) as (md & Hmd & _).
  destruct (extract_keywords_Ok text) as [k Hk].
  destruct (analyze_sentiment_Ok text) as [s Hs].
  exists md. eexists. exists k, s.
  split; [exact Hmd|]. split; [apply analyze_transcript_Ok|].
  split; [exact Hk|]. split; [exact Hs|].
  unfold analyze_video.
  assert (U : truthy (Some youtube_url) = true).
  { destruct youtube_url; [|reflexivity]. vm_compute in E. discriminate E. }
  rewrite U, E. cbn [andb bind]. unfold caller_accepts. cbn [fst snd].
  assert (Ti : truthy (Some id) = true).
  { destruct (extract_transcript_shape fetch youtube_url)
      as (p & Ep & [->|(t' & i' & -> & Hi)] & _); rewrite E in Ep.
    - discriminate Ep.
    - injection Ep as <- <-. apply truthy_Some. exact Hi. }
  rewrite (proj2 (truthy_Some text) Ht), Ti, Hmd. cbn [andb bind].
  rewrite generate_gemini_content_unfold.
  destruct (generate_content (text ++ prompts st)); cbn [bind];
    [|reflexivity].
  rewrite (when_Ok _ _ _ (analyze_transcript_Ok text)),
    (when_Ok _ _ _ Hk), (when_Ok _ _ _ Hs).
  reflexivity.
Qed.

Lemma analyze_video_rejected (analyze_button : bool) (youtube_url : str) :
  analyze_button = false \/ kept fetch youtube_url = false ->
  analyze_video generate_content fetch requests_get st
    show_analysis show_keywords show_sentiment analyze_button youtube_url
  = Ok None.
Proof.
  unfold analyze_video. intros [->|H]; [reflexivity|].
  destruct (analyze_button && truthy (Some youtube_url)); [|reflexivity].
  apply kept_false in H. destruct H as [H|[id H]]; rewrite H; reflexivity.
Qed.

(** X17.  The single-video handler.  Without the button, or on a URL
    whose extraction gives no transcript text, nothing is shown.
    Otherwise the one call that can stop the run is the summary call:
    when it returns, a report is shown whose analysis, keywords and
    sentiment are there exactly for the options that are on; when it
    raises, the run raises the same exception. *)
Theorem analyze_video_outcome (analyze_button : bool) (youtube_url : str) :
  let run :=
    analyze_video generate_content fetch requests_get st
      show_analysis show_keywords show_sentiment analyze_button youtube_url in
  (run = Ok None
   <-> analyze_button = false \/ kept fetch youtube_url = false)
  /\ (forall e,
        run = Raise e
        <-> analyze_button = true
            /\ exists text id,
                 extract_transcript fetch youtube_url = Ok (Some text, Some id)
                 /\ text <> []
                 /\ generate_content (text ++ prompts st) = Raise e)
  /\ (forall r,
        run = Ok (Some r) ->
        exists text id,
          extract_transcript fetch youtube_url = Ok (Some text, Some id)
          /\ extract_video_id youtube_url = Some id
          /\ generate_content (text ++ prompts st) = Ok (shown_summary r)
          /\ get_video_metadata requests_get id = Ok (shown_metadata r)
          /\ (shown_analysis r = None <-> show_analysis = false)
          /\ (shown_keywords r = None <-> show_keywords = false)
          /\ (shown_sentiment r = None <-> show_sentiment = false)).
Proof.
  intros run. subst run.
  destruct analyze_button.
  2:{ rewrite analyze_video_rejected by (left; reflexivity).
      split; [tauto|]. split.
      - intros e. split; [discriminate | intros [H _]; discriminate H].
      - intros r H. discriminate H. }
  destruct (kept fetch youtube_url) eqn:K.
  2:{ rewrite analyze_video_rejected by (right; exact K).
      split; [tauto|]. split.
      - intros e. split; [discriminate|].
        intros (_ & text & id & E & Ht & _).
        assert (K' : kept fetch youtube_url = true)
          by (apply kept_true; exists text, id; auto).
        congruence.
      - intros r H. discriminate H. }
  apply kept_true in K. destruct K as (text & id & E & Ht).
  destruct (analyze_video_accepted youtube_url text id E Ht)
    as (md & a & k & s & Hmd & Ha & Hk & Hs & ->).
  destruct (generate_content (text ++ prompts st)) as [summary|e0] eqn:G.
  - split; [split; [discriminate | intros [H|H]; discriminate H]|].
    split.
    + intros e. split; [discriminate|].
      intros (_ & text' & id' & E' & _ & G').
      rewrite E in E'. injection E' as <- <-. congruence.
    + intros r H. injection H as <-. cbn.
      exists text, id. split; [exact E|]. split.
      * exact (extract_transcript_id fetch youtube_url text id E).
      * split; [exact G|]. split; [exact Hmd|].
        destruct show_analysis, show_keywords, show_sentiment;
          repeat split; intros; congruence.
  - split; [split; [discriminate | intros [H|H]; discriminate H]|].
    split.
    + intros e. split.
      * intros H. injection H as <-. split; [reflexivity|].
        exists text, id. auto.
      * intros (_ & text' & id' & E' & _ & G').
        rewrite E in E'. injection E' as <- <-. congruence.
    + intros r H. discriminate H.
Qed.

End SingleVideoFacts.

(** ** The URL of the metadata and the first failure of a batch *)

Lemma extract_video_id_watch_url (id : str) :
  id <> [] -> forallb id_char id = true ->
  extract_video_id (watch_url id) = Some id.
Proof.
  intros Hne Hid.
  assert (E : watch_url id = lit "https://www." ++ shape_watch ++ id ++ []).
  { rewrite app_nil_r. reflexivity. }
  rewrite E. apply extract_video_id_shape; try assumption.
  - simpl. auto.
  - exact I.
  - intros p. apply shape_after_prefix. reflexivity.
Qed.

(** X19.  The URL [get_video_metadata] puts in its record leads back to
    the video: [extract_video_id] finds in it the identifier the record
    was made for, whenever that identifier came from
    [extract_video_id]. *)
Theorem metadata_url_roundtrip (requests_get : str -> result str)
  (video_url id : str) :
  extract_video_id video_url = Some id ->
  exists md : metadata,
    get_video_metadata requests_get id = Ok md
    /\ extract_video_id (url md) = Some id.
Proof.
  intros E. apply extract_video_id_piece in E as (Hne & Hid & _).
  destruct (get_video_metadata_Ok requests_get id) as (md & Emd & _ & Eu).
  exists md. split; [exact Emd|]. rewrite Eu.
  apply extract_video_id_watch_url; assumption.
Qed.

Lemma metadata_url_roundtrip_witness :
  exists md : metadata,
    get_video_metadata page_ok (lit "dQw4w9WgXcQ") = Ok md
    /\ extract_video_id (url md) = Some (lit "dQw4w9WgXcQ").
Proof.
  apply (metadata_url_roundtrip page_ok
           (lit "https://youtu.be/dQw4w9WgXcQ?t=42")).
  reflexivity.
Defined.

Section BatchMore.
Variable generate_content : str -> result str.
Variable fetch : str -> result (list str).
Variable requests_get : str -> result str.
Variable st : summary_type.

(** The loop stops at the first url whose summary call raises. *)
Lemma batch_loop_first_raise (pre : list str) :
  forall (acc : list batch_result) (url : str) (post : list str)
         (text id : str) (e : exn),
  summaries_return generate_content fetch st pre ->
  extract_transcript fetch url = Ok (Some text, Some id) ->
  text <> [] ->
  generate_content (text ++ prompts st) = Raise e ->
  batch_loop generate_content fetch requests_get st (pre ++ url :: post) acc
  = Raise e.
Proof.
  induction pre as [|u pre IH]; intros acc url post text id e Hs E Ht G.
  - cbn [app batch_loop]. rewrite E. cbn [bind].
    destruct (extract_transcript_shape fetch url) as (p & Ep & _ & Hacc).
    rewrite E in Ep. injection Ep as <-.
    rewrite (proj2 Hacc) by eauto.
    destruct (get_video_metadata_Ok requests_get id) as (md & Emd & _).
    rewrite Emd, generate_gemini_content_unfold, G. reflexivity.
  - assert (Hpre : summaries_return generate_content fetch st pre).
    { intros u' t i Hin. apply Hs. right. exact Hin. }
    cbn [app batch_loop].
    destruct (extract_transcript_shape fetch u) as (p & Ep & _ & Hacc).
    rewrite Ep. cbn [bind].
    destruct (caller_accepts p) eqn:C.
    + destruct (proj1 Hacc eq_refl) as (t & i & -> & Hne).
      destruct (get_video_metadata_Ok requests_get i) as (md & Emd & _).
      destruct (Hs u t i (or_introl eq_refl) Ep Hne) as [s Es].
      rewrite Emd, generate_gemini_content_unfold, Es. cbn [bind].
      exact (IH _ url post text id e Hpre E Ht G).
    + exact (IH _ url post text id e Hpre E Ht G).
Qed.

(** X20.  A batch ends at the first url whose summary call raises: the
    run raises that exception, whatever the urls after it, and the
    records made for the urls before it are not returned. *)
Theorem process_batch_first_failure (batch_urls : str)
  (pre : list str) (url : str) (post : list str) (text id : str) (e : exn) :
  batch_lines batch_urls = pre ++ url :: post ->
  summaries_return generate_content fetch st pre ->
  extract_transcript fetch url = Ok (Some text, Some id) ->
  text <> [] ->
  generate_content (text ++ prompts st) = Raise e ->
  process_batch generate_content fetch requests_get st batch_urls = Raise e.
Proof.
  intros Hl Hs E Ht G. unfold process_batch.
  destruct batch_urls as [|c r];
    [destruct pre; discriminate Hl|].
  cbn [truthy]. rewrite Hl.
  rewrite <- (batch_loop_first_raise pre [] url post text id e Hs E Ht G).
  destruct pre; reflexivity.
Qed.

End BatchMore.

Lemma process_batch_first_failure_witness :
  process_batch summary_abc echo_id page_ok detailed three_lines
  = Raise (Error (lit "quota")).
Proof.
  apply (process_batch_first_failure summary_abc echo_id page_ok detailed
           three_lines
           [lit "https://youtu.be/abc123"; lit "not a url"]
           (lit "https://www.youtube.com/watch?v=zzz999&t=1s") []
           (lit "zzz999") (lit "zzz999")).
  - reflexivity.
  - intros u t i [<-|[<-|[]]] H _.
    + vm_compute in H. injection H as <- _. eexists. reflexivity.
    + vm_compute in H. discriminate H.
  - reflexivity.
  - discriminate.
  - reflexivity.
Defined.
